(** * Nodeviz: the graph model and the four search procedures

    A shallow embedding of [graphUtils.ts] (the graph model) and of
    [algorithms.ts] ([bfs], [dfs], [dijkstra], [astar], [runAlgorithm]),
    followed by the properties of the search engine.

    Modelling conventions.
    - Coordinates, weights and costs are the integer-valued JavaScript
      numbers, on which [+], [-], [*] and [<] are exact: they are in [Z].
      [Math.sqrt] is the real square root: an estimate and a priority of
      [astar] is a number [whole + Math.sqrt(root)] with [whole] and [root]
      integers, kept as the pair of the two ([Num]); such numbers are
      compared exactly, by integer arithmetic ([num_leb]), and
      [num_leb_value] shows that the comparison is the order of the real
      numbers they stand for.  The rounding of a root and of a sum to a
      double is not modelled.  It leaves equal numbers equal, and it can
      change the order of two different ones only when they are closer
      than the rounding error; two different numbers of this form up to
      [M] are at least [1 / (27 * M^3)] apart ([num_value_apart]), which
      is more than the rounding error while priorities stay below 3000.
    - [Set<string>] is the list of its elements in insertion order (the
      order [Array.from(visited)] reports); [Map<string, _>] is a [gmap].
    - The optional [onStep] callback is modelled by its call log: a search
      returns the sequence of [AlgorithmStepResult]s it passes to [onStep],
      in order, together with what the call produced.
    - [performance.now()] and the [executionTime] field are wall-clock
      readings and are not part of the model.
    - Node ids are assumed not to be names of [Object.prototype] members,
      so that a plain object used as a dictionary is a finite map. *)

From stdpp Require Import base decidable option list strings gmap.
From Stdlib Require Import ZArith Lia Reals Lra Psatz.

(** ** Numbers with a square root

    [whole + Math.sqrt(root)]: the values [calculateHeuristic] returns and
    the priorities [astar] computes from them. *)

Record Num := mkNum {
  num_whole : Z;
  num_root : Z
}.

(** An integer as such a number. *)
Definition num_of_Z (whole : Z) : Num := mkNum whole 0.

(** [whole + x] *)
Definition num_add (whole : Z) (x : Num) : Num :=
  mkNum (whole + num_whole x) (num_root x).

(** [x <= y], that is, [x - y <= 0]: with [d] the difference of the whole
    parts and [m], [n] the two numbers under the roots, [sqrt m <= sqrt n + d]
    is decided by squaring twice, each time on two sides of known sign.  The
    numbers under the roots are sums of squares; a negative one, which does
    not occur, counts as 0. *)
Definition num_leb (x y : Num) : bool :=
  let d := (num_whole y - num_whole x)%Z in
  let m := Z.max 0 (num_root x) in
  let n := Z.max 0 (num_root y) in
  if (0 <=? d)%Z
  then (m - n - d * d <=? 0)%Z ||
       ((m - n - d * d) * (m - n - d * d) <=? 4 * d * d * n)%Z
  else (0 <=? n - m - d * d)%Z &&
       (4 * d * d * m <=? (n - m - d * d) * (n - m - d * d))%Z.

Definition num_le (x y : Num) : Prop := num_leb x y = true.

(** The real number a [Num] stands for. *)
Definition num_value (x : Num) : R :=
  (IZR (num_whole x) + sqrt (IZR (num_root x)))%R.

(** ** graphUtils.ts: the data model *)

Inductive EdgeType := EdgeDefault | EdgePath | EdgeUndirected.

#[global] Instance EdgeType_eq_dec : EqDecision EdgeType.
Proof. solve_decision. Defined.

(** [label], [type] and [shape] of a node are presentational and are never
    read by the engine. *)
Record Node := mkNode {
  node_id : string;
  node_x : Z;
  node_y : Z
}.

Record Edge := mkEdge {
  edge_id : string;
  edge_source : string;
  edge_target : string;
  edge_weight : Z;
  edge_type : EdgeType
}.

Record Graph := mkGraph {
  nodes : list Node;
  edges : list Edge
}.

Definition manhattanDistance (node1 node2 : Node) : Z :=
  (Z.abs (node_x node1 - node_x node2) + Z.abs (node_y node1 - node_y node2))%Z.

(** [Math.sqrt(dx * dx + dy * dy)] *)
Definition euclideanDistance (node1 node2 : Node) : Num :=
  let dx := (node_x node1 - node_x node2)%Z in
  let dy := (node_y node1 - node_y node2)%Z in
  mkNum 0 (dx * dx + dy * dy).

(** The predicate of [findEdge]: the edge leads from [sourceId] to
    [targetId], or it is undirected and leads the other way. *)
Definition connects (sourceId targetId : string) (edge : Edge) : Prop :=
  (edge_source edge = sourceId ∧ edge_target edge = targetId) ∨
  (edge_type edge = EdgeUndirected ∧
   edge_source edge = targetId ∧ edge_target edge = sourceId).

#[global] Instance connects_dec sourceId targetId edge :
  Decision (connects sourceId targetId edge).
Proof. unfold connects. apply _. Defined.

Definition findEdge (graph : Graph) (sourceId targetId : string) : option Edge :=
  List.find (λ edge, bool_decide (connects sourceId targetId edge)) (edges graph).

Definition createEmptyGraph : Graph := mkGraph [] [].

(** [addNode] and [addEdge] draw the new identifier from [uuidv4]; here the
    identifier is an argument. *)
Definition addNode (graph : Graph) (id : string) (x y : Z) : Graph :=
  mkGraph (nodes graph ++ [mkNode id x y]) (edges graph).

Definition addEdge (graph : Graph) (id source target : string)
    (weight : Z) (type : EdgeType) : Graph :=
  let existingEdge :=
    List.find (λ edge,
      bool_decide ((edge_source edge = source ∧ edge_target edge = target) ∨
                   (type = EdgeUndirected ∧
                    edge_source edge = target ∧ edge_target edge = source)))
      (edges graph) in
  match existingEdge with
  | Some _ => graph
  | None => mkGraph (nodes graph) (edges graph ++ [mkEdge id source target weight type])
  end.

(** [generateSampleGraph], with ["0"] .. ["5"] for the six generated node
    ids ([setNodeType] only touches the presentational role tag). *)
Definition generateSampleGraph : Graph :=
  let g := createEmptyGraph in
  let g := addNode g "0" 150 150 in
  let g := addNode g "1" 300 100 in
  let g := addNode g "2" 450 150 in
  let g := addNode g "3" 150 300 in
  let g := addNode g "4" 450 300 in
  let g := addNode g "5" 300 400 in
  let g := addEdge g "e01" "0" "1" 2 EdgeDefault in
  let g := addEdge g "e12" "1" "2" 3 EdgeDefault in
  let g := addEdge g "e03" "0" "3" 4 EdgeDefault in
  let g := addEdge g "e24" "2" "4" 5 EdgeDefault in
  let g := addEdge g "e35" "3" "5" 6 EdgeDefault in
  let g := addEdge g "e45" "4" "5" 7 EdgeDefault in
  g.

(** ** algorithms.ts: records *)

Record AlgorithmResult := mkResult {
  res_path : list string;
  res_pathEdges : list string;
  res_pathLength : nat;
  res_pathCost : Z;
  res_nodesVisited : nat
}.

Record AlgorithmStepResult := mkStep {
  step_currentNodeId : option string;
  step_visited : list string;
  step_path : list string;
  step_pathEdges : list string;
  step_frontier : list string;
  step_isComplete : bool
}.

Record QueueItem := mkItem {
  qi_nodeId : string;
  qi_path : list string;
  qi_pathEdges : list string;
  qi_cost : Z;
  qi_priority : Num
}.

(** ** getNeighbors

    The adjacency object has an (initially empty) array for every id of
    [graph.nodes]; only the array of [nodeId] is ever pushed to.  When
    [nodeId] is not a node id there is no array to push to: the first push
    raises a [TypeError], and without any push the result is
    [adjacencyList[nodeId] || []], the empty list. *)

Definition hasNode (graph : Graph) (id : string) : Prop :=
  id ∈ (node_id <$> nodes graph).

#[global] Instance hasNode_dec graph id : Decision (hasNode graph id).
Proof. unfold hasNode. apply _. Defined.

Definition neighborEntries (nodeId : string) (edge : Edge) : list (string * Z) :=
  (if decide (edge_source edge = nodeId)
   then [(edge_target edge, edge_weight edge)] else []) ++
  (if decide (edge_type edge = EdgeUndirected ∧ edge_target edge = nodeId)
   then [(edge_source edge, edge_weight edge)] else []).

Definition getNeighbors (graph : Graph) (nodeId : string)
    : option (list (string * Z)) :=
  let pushed := flat_map (neighborEntries nodeId) (edges graph) in
  if decide (hasNode graph nodeId) then Some pushed
  else match pushed with
       | [] => Some []
       | _ :: _ => None
       end.

(** [graph.nodes.find(node => node.id === id)] *)
Definition findNode (graph : Graph) (id : string) : option Node :=
  List.find (λ node, bool_decide (node_id node = id)) (nodes graph).

Definition calculateHeuristic (node goalNode : Node) (heuristicType : string)
    : Num :=
  if decide (heuristicType = "euclidean") then euclideanDistance node goalNode
  else if decide (heuristicType = "manhattan")
       then num_of_Z (manhattanDistance node goalNode)
  else num_of_Z 0.

(** ** The search loop

    [bfs] (lines 99-213), [dfs] (215-329), [dijkstra] (331-453) and [astar]
    (455-598) have the same loop body, statement for statement; they differ
    in how the frontier is dequeued ([shift], [pop], or [sort] then [shift])
    and in the body of the loop over the neighbours.  The body is written
    once, with these two as parameters.  [SearchState] holds the variables
    the loop mutates. *)

Record SearchState := mkState {
  st_frontier : list QueueItem;
  st_visited : list string;
  st_cameFrom : gmap string string;
  st_costSoFar : gmap string Z;
  st_nodesVisited : nat
}.

(** What a call produces: a returned result, or the [TypeError] of
    [getNeighbors].  [OutOfFuel] is the loop budget of the model running
    out; [search_terminates] shows that it never happens. *)
Inductive Outcome :=
| Returned (result : AlgorithmResult)
| TypeError
| OutOfFuel.

Definition Run : Type := list AlgorithmStepResult * Outcome.

Definition emptyResult (nodesVisited : nat) : AlgorithmResult :=
  mkResult [] [] 0 0 nodesVisited.

Definition Dequeue : Type := list QueueItem → option (QueueItem * list QueueItem).
Definition Relax : Type := QueueItem → SearchState → string * Z → SearchState.

(** One pass through the body of [while (frontier.length > 0)]: either the
    call ends ([Stop]) or the loop goes round again ([Continue]); both carry
    the calls made to [onStep] during the pass. *)
Inductive Pass :=
| Stop (emitted : list AlgorithmStepResult) (outcome : Outcome)
| Continue (emitted : list AlgorithmStepResult) (st : SearchState).

Section Search.
Variable dequeue : Dequeue.
Variable relax : Relax.
Variable graph : Graph.
Variable goalNodeId : string.

Definition pass (st : SearchState) : Pass :=
  match dequeue (st_frontier st) with
  | None =>
      Stop [mkStep None (st_visited st) [] [] [] true]
           (Returned (emptyResult (st_nodesVisited st)))
  | Some (item, frontier) =>
      let nodeId := qi_nodeId item in
      let path := qi_path item in
      let pathEdges := qi_pathEdges item in
      if decide (nodeId = goalNodeId) then
        Stop [mkStep (Some nodeId) (st_visited st) path pathEdges
                     (qi_nodeId <$> frontier) true]
             (Returned (mkResult path pathEdges (length path) (qi_cost item)
                                 (st_nodesVisited st)))
      else if decide (nodeId ∈ st_visited st) then
        Continue [] (mkState frontier (st_visited st) (st_cameFrom st)
                             (st_costSoFar st) (st_nodesVisited st))
      else
        let visited := st_visited st ++ [nodeId] in
        let nodesVisited := S (st_nodesVisited st) in
        let step := mkStep (Some nodeId) visited path pathEdges
                           (qi_nodeId <$> frontier) false in
        match getNeighbors graph nodeId with
        | None => Stop [step] TypeError
        | Some neighbors =>
            Continue [step]
              (fold_left (relax item) neighbors
                 (mkState frontier visited (st_cameFrom st)
                          (st_costSoFar st) nodesVisited))
        end
  end.

Fixpoint search (fuel : nat) (st : SearchState) : Run :=
  match fuel with
  | O => ([], OutOfFuel)
  | S fuel =>
      match pass st with
      | Stop emitted outcome => (emitted, outcome)
      | Continue emitted st' =>
          let '(later, outcome) := search fuel st' in
          (emitted ++ later, outcome)
      end
  end.
End Search.

(** A loop budget that is never exhausted: every pass removes one item, and
    items are only added when a node is settled, which happens once per
    node (the start node and the endpoints of edges). *)
Definition budget (graph : Graph) : nat :=
  let k := S (2 * length (edges graph)) in S (S (k * k)).

Definition initialState (startNodeId : string) (priority : Num)
    (costSoFar : gmap string Z) : SearchState :=
  mkState [mkItem startNodeId [startNodeId] [] 0 priority] [] ∅ costSoFar 0.

(** The item a relaxation pushes: the path extended by the neighbour, and
    the path edges extended by the id of the edge [findEdge] reports. *)
Definition extend (graph : Graph) (item : QueueItem) (neighborId : string)
    (cost : Z) (priority : Num) : QueueItem :=
  let newPathEdges :=
    match findEdge graph (qi_nodeId item) neighborId with
    | Some edge => qi_pathEdges item ++ [edge_id edge]
    | None => qi_pathEdges item
    end in
  mkItem neighborId (qi_path item ++ [neighborId]) newPathEdges cost priority.

(** *** Frontier disciplines *)

(** [frontier.shift()] *)
Definition shift : Dequeue :=
  λ frontier, match frontier with
              | [] => None
              | item :: rest => Some (item, rest)
              end.

(** [frontier.pop()] *)
Definition pop : Dequeue :=
  λ frontier, match reverse frontier with
              | [] => None
              | item :: rest => Some (item, reverse rest)
              end.

(** [frontier.sort((a, b) => key(a) - key(b))]: the stable ascending sort. *)
Fixpoint insertBy (key : QueueItem → Z) (item : QueueItem) (sorted : list QueueItem)
    : list QueueItem :=
  match sorted with
  | [] => [item]
  | other :: rest =>
      if decide (key item ≤ key other)%Z then item :: sorted
      else other :: insertBy key item rest
  end.

Definition sortBy (key : QueueItem → Z) (frontier : list QueueItem) : list QueueItem :=
  foldr (insertBy key) [] frontier.

(** [frontier.sort(...)] followed by [frontier.shift()] *)
Definition shiftSorted (key : QueueItem → Z) : Dequeue :=
  λ frontier, shift (sortBy key frontier).

(** [frontier.sort((a, b) => a.priority - b.priority)]: the same stable
    sort, on the priorities. *)
Fixpoint insertByPriority (item : QueueItem) (sorted : list QueueItem)
    : list QueueItem :=
  match sorted with
  | [] => [item]
  | other :: rest =>
      if num_leb (qi_priority item) (qi_priority other) then item :: sorted
      else other :: insertByPriority item rest
  end.

Definition sortByPriority (frontier : list QueueItem) : list QueueItem :=
  foldr insertByPriority [] frontier.

Definition shiftSortedByPriority : Dequeue :=
  λ frontier, shift (sortByPriority frontier).

(** *** Relaxations: the body of [for (const {nodeId: neighborId, weight} of neighbors)] *)

(** [bfs] and [dfs] *)
Definition relaxUnvisited (graph : Graph) : Relax :=
  λ item st '(neighborId, weight),
    if decide (neighborId ∈ st_visited st) then st
    else
      mkState
        (st_frontier st ++
           [extend graph item neighborId (qi_cost item + weight) (num_of_Z 0)])
        (st_visited st)
        (<[neighborId := qi_nodeId item]> (st_cameFrom st))
        (st_costSoFar st)
        (st_nodesVisited st).

(** [!costSoFar.has(neighborId) || newCost < costSoFar.get(neighborId)!] *)
Definition improves (costSoFar : gmap string Z) (neighborId : string) (newCost : Z)
    : Prop :=
  match costSoFar !! neighborId with
  | None => True
  | Some known => (newCost < known)%Z
  end.

#[global] Instance improves_dec costSoFar neighborId newCost :
  Decision (improves costSoFar neighborId newCost).
Proof. unfold improves. destruct (costSoFar !! neighborId); apply _. Defined.

(** [dijkstra] *)
Definition relaxDijkstra (graph : Graph) : Relax :=
  λ item st '(neighborId, weight),
    let newCost := (qi_cost item + weight)%Z in
    if decide (improves (st_costSoFar st) neighborId newCost) then
      mkState
        (st_frontier st ++
           [extend graph item neighborId newCost (num_of_Z newCost)])
        (st_visited st)
        (<[neighborId := qi_nodeId item]> (st_cameFrom st))
        (<[neighborId := newCost]> (st_costSoFar st))
        (st_nodesVisited st)
    else st.

(** [astar]: the new cost is read from [costSoFar] (0 when absent), and the
    item is pushed only when the neighbour is a node of the graph. *)
Definition relaxAstar (graph : Graph) (goalNode : Node) (heuristicType : string)
    : Relax :=
  λ item st '(neighborId, weight),
    let newCost := (default 0 (st_costSoFar st !! qi_nodeId item) + weight)%Z in
    if decide (improves (st_costSoFar st) neighborId newCost) then
      let costSoFar := <[neighborId := newCost]> (st_costSoFar st) in
      let cameFrom := <[neighborId := qi_nodeId item]> (st_cameFrom st) in
      match findNode graph neighborId with
      | Some neighborNode =>
          let priority :=
            num_add newCost (calculateHeuristic neighborNode goalNode heuristicType) in
          mkState
            (st_frontier st ++ [extend graph item neighborId newCost priority])
            (st_visited st) cameFrom costSoFar (st_nodesVisited st)
      | None =>
          mkState (st_frontier st) (st_visited st) cameFrom costSoFar
                  (st_nodesVisited st)
      end
    else st.

(** ** The four procedures and the dispatcher *)

Definition bfs (graph : Graph) (startNodeId goalNodeId : string) : Run :=
  search shift (relaxUnvisited graph) graph goalNodeId (budget graph)
         (initialState startNodeId (num_of_Z 0) ∅).

Definition dfs (graph : Graph) (startNodeId goalNodeId : string) : Run :=
  search pop (relaxUnvisited graph) graph goalNodeId (budget graph)
         (initialState startNodeId (num_of_Z 0) ∅).

Definition dijkstra (graph : Graph) (startNodeId goalNodeId : string) : Run :=
  search (shiftSorted qi_cost) (relaxDijkstra graph) graph goalNodeId (budget graph)
         (initialState startNodeId (num_of_Z 0) {[startNodeId := 0%Z]}).

(** [heuristicType] is an optional argument: [None] is the omitted (or
    [undefined]) argument, which takes the default ['euclidean']. *)
Definition astar (graph : Graph) (startNodeId goalNodeId : string)
    (heuristicType : option string) : Run :=
  let heuristicType := default "euclidean" heuristicType in
  match findNode graph startNodeId, findNode graph goalNodeId with
  | Some startNode, Some goalNode =>
      search shiftSortedByPriority (relaxAstar graph goalNode heuristicType)
             graph goalNodeId (budget graph)
             (initialState startNodeId
                (calculateHeuristic startNode goalNode heuristicType)
                {[startNodeId := 0%Z]})
  | _, _ => ([], Returned (emptyResult 0))
  end.

(** [algorithmType] is a string at run time; the [default:] arm of the
    [switch] takes every string other than the four names. *)
Definition runAlgorithm (graph : Graph) (startNodeId goalNodeId : string)
    (algorithmType : string) (heuristicType : option string) : Run :=
  let heuristicType := default "euclidean" heuristicType in
  if decide (algorithmType = "bfs") then bfs graph startNodeId goalNodeId
  else if decide (algorithmType = "dfs") then dfs graph startNodeId goalNodeId
  else if decide (algorithmType = "dijkstra") then dijkstra graph startNodeId goalNodeId
  else if decide (algorithmType = "astar")
       then astar graph startNodeId goalNodeId (Some heuristicType)
  else ([], Returned (emptyResult 0)).

(** ** Traversable edges, walks and reachability

    An edge is traversable from [u] to [v] when [connects u v] holds of it
    (the predicate of [findEdge], and the condition under which
    [getNeighbors graph u] lists [v]).  A walk records the node ids it
    passes and the edges it traverses. *)

Inductive walk (graph : Graph) (startId : string)
    : string → list string → list Edge → Prop :=
| walk_start : walk graph startId startId [startId] []
| walk_step nodeId nextId path traversed edge :
    walk graph startId nodeId path traversed →
    edge ∈ edges graph →
    connects nodeId nextId edge →
    walk graph startId nextId (path ++ [nextId]) (traversed ++ [edge]).

Definition reachable (graph : Graph) (startId nodeId : string) : Prop :=
  ∃ path traversed, walk graph startId nodeId path traversed.

Definition totalWeight (traversed : list Edge) : Z :=
  foldr (λ edge total, (edge_weight edge + total)%Z) 0%Z traversed.

(** The invariant of the data model: edges join nodes of the graph. *)
Definition edgesClosed (graph : Graph) : Prop :=
  ∀ edge, edge ∈ edges graph →
    hasNode graph (edge_source edge) ∧ hasNode graph (edge_target edge).

Definition nonNegative (graph : Graph) : Prop :=
  ∀ edge, edge ∈ edges graph → (0 ≤ edge_weight edge)%Z.

(** Quantification over the four procedures (and, for [astar], over the
    heuristic argument). *)
Definition everyAlgorithm (graph : Graph) (startId goalId : string)
    (P : Run → Prop) : Prop :=
  P (bfs graph startId goalId) ∧
  P (dfs graph startId goalId) ∧
  P (dijkstra graph startId goalId) ∧
  ∀ heuristicType, P (astar graph startId goalId heuristicType).

(** ** Vocabulary of the properties

    Laws of the frontier disciplines and of the relaxations, the invariants
    of the loop, and the example graphs the properties are exercised on. *)

Record DequeueLaws (dequeue : Dequeue) : Prop := {
  dequeue_none : ∀ frontier, dequeue frontier = None → frontier = [];
  dequeue_some : ∀ frontier item rest,
    dequeue frontier = Some (item, rest) → frontier ≡ₚ item :: rest
}.

(** The first item of the sorted frontier has the least key. *)
Definition leastFirst (key : QueueItem → Z) (frontier : list QueueItem) : Prop :=
  match frontier with
  | [] => True
  | item :: rest => Forall (λ other, (key item ≤ key other)%Z) rest
  end.

Definition leastPriorityFirst (frontier : list QueueItem) : Prop :=
  match frontier with
  | [] => True
  | item :: rest =>
      Forall (λ other, num_le (qi_priority item) (qi_priority other)) rest
  end.

(** A node is known once it is settled or waiting in the frontier. *)
Definition known (st : SearchState) (nodeId : string) : Prop :=
  nodeId ∈ st_visited st ∨ nodeId ∈ (qi_nodeId <$> st_frontier st).

(** Every node of the graph with an entry in [costSoFar] is known. *)
Definition tracked (graph : Graph) (st : SearchState) : Prop :=
  ∀ nodeId, is_Some (st_costSoFar st !! nodeId) → hasNode graph nodeId →
            known st nodeId.

Record RelaxLaws (graph : Graph) (relax : Relax) : Prop := {
  relax_visited : ∀ item st neighbor,
    st_visited (relax item st neighbor) = st_visited st;
  relax_nodesVisited : ∀ item st neighbor,
    st_nodesVisited (relax item st neighbor) = st_nodesVisited st;
  relax_frontier : ∀ item st neighbor,
    st_frontier (relax item st neighbor) = st_frontier st ∨
    ∃ cost priority,
      st_frontier (relax item st neighbor) =
      st_frontier st ++ [extend graph item neighbor.1 cost priority];
  relax_tracked : ∀ item st neighbor,
    tracked graph st → tracked graph (relax item st neighbor);
  relax_discovers : ∀ item st neighbor,
    tracked graph st → hasNode graph neighbor.1 →
    known (relax item st neighbor) neighbor.1
}.

(** The ids a search can ever meet: the start and the endpoints of edges. *)
Definition candidates (graph : Graph) (startId : string) : list string :=
  startId :: flat_map (λ edge, [edge_source edge; edge_target edge]) (edges graph).

(** Bookkeeping: the goal is never settled, no node is settled twice, the
    counter is the size of the visited set, and only candidates occur. *)
Record Bookkeeping (graph : Graph) (startId goalId : string) (st : SearchState)
    : Prop := {
  book_goal : goalId ∉ st_visited st;
  book_nodup : NoDup (st_visited st);
  book_count : st_nodesVisited st = length (st_visited st);
  book_visited : ∀ nodeId, nodeId ∈ st_visited st → nodeId ∈ candidates graph startId;
  book_frontier : ∀ item, item ∈ st_frontier st →
                          qi_nodeId item ∈ candidates graph startId
}.

(** A step that settles a node: it is not final, and neither its node nor
    its visited set is the goal. *)
Definition settling (goalId : string) (step : AlgorithmStepResult) : Prop :=
  step_isComplete step = false ∧ (goalId ∉ step_visited step) ∧
  ∃ nodeId, step_currentNodeId step = Some nodeId ∧ nodeId ≠ goalId.

(** The log of [onStep] calls made before the last one: one call per
    settled node, none of them final. *)
Definition Logged (goalId : string) (log : list AlgorithmStepResult)
    (st : SearchState) : Prop :=
  length log = st_nodesVisited st ∧ Forall (settling goalId) log.

(** Exploration: what is known is reachable, and every traversable edge
    out of a settled node leads to a known node. *)
Record Explored (graph : Graph) (startId : string) (st : SearchState) : Prop := {
  explored_visited : ∀ nodeId, nodeId ∈ st_visited st → reachable graph startId nodeId;
  explored_frontier : ∀ item, item ∈ st_frontier st →
                              reachable graph startId (qi_nodeId item);
  explored_start : known st startId;
  explored_edges : ∀ nodeId edge nextId,
    nodeId ∈ st_visited st → edge ∈ edges graph → connects nodeId nextId edge →
    known st nextId;
  explored_tracked : tracked graph st
}.

(** The variant of the loop. *)
Definition remaining (graph : Graph) (startId : string) (st : SearchState) : nat :=
  length (st_frontier st) +
  (length (candidates graph startId) - length (st_visited st)) *
  S (2 * length (edges graph)).

(** The last call to [onStep] and the result, when the frontier is
    exhausted ([finalStep], [emptyResult]) and when the goal is dequeued
    ([goalStep], [goalResult]). *)
Definition finalStep (st : SearchState) : AlgorithmStepResult :=
  mkStep None (st_visited st) [] [] [] true.

Definition goalStep (st : SearchState) (item : QueueItem) (rest : list QueueItem)
    : AlgorithmStepResult :=
  mkStep (Some (qi_nodeId item)) (st_visited st) (qi_path item) (qi_pathEdges item)
         (qi_nodeId <$> rest) true.

Definition goalResult (st : SearchState) (item : QueueItem) : AlgorithmResult :=
  mkResult (qi_path item) (qi_pathEdges item) (length (qi_path item)) (qi_cost item)
           (st_nodesVisited st).

(** Example graphs.  A single node and no edge. *)
Definition loneNode : Graph := mkGraph [mkNode "a" 0 0] [].

(** One undirected edge, stored as (A, B, w = 5). *)
Definition undirectedPair : Graph :=
  mkGraph [mkNode "A" 0 0; mkNode "B" 10 0]
          [mkEdge "ab" "A" "B" 5 EdgeUndirected].

(** Three nodes on a line: the direct edge S→G costs 10, the detour through
    the far node F costs 1 + 1. *)
Definition detour : Graph :=
  mkGraph [mkNode "S" 0 0; mkNode "G" 1 0; mkNode "F" 100 0]
          [mkEdge "sg" "S" "G" 10 EdgeDefault;
           mkEdge "sf" "S" "F" 1 EdgeDefault;
           mkEdge "fg" "F" "G" 1 EdgeDefault].


(** The far node X is one step from the start and the square root of 5
    from the goal: its priority, 1 + sqrt 5, is above the priority 3 of the
    goal on the direct edge. *)
Definition skew : Graph :=
  mkGraph [mkNode "S" 3 0; mkNode "X" 1 2; mkNode "G" 0 0]
          [mkEdge "sx" "S" "X" 1 EdgeDefault;
           mkEdge "sg" "S" "G" 3 EdgeDefault;
           mkEdge "xg" "X" "G" 1 EdgeDefault].

(** Every item of the frontier carries a walk from the start to its node,
    and the total weight of the edges that walk traverses. *)
Definition routedItem (graph : Graph) (startId : string) (item : QueueItem) : Prop :=
  ∃ traversed,
    walk graph startId (qi_nodeId item) (qi_path item) traversed ∧
    qi_cost item = totalWeight traversed.

Definition Routed (graph : Graph) (startId : string) (st : SearchState) : Prop :=
  ∀ item, item ∈ st_frontier st → routedItem graph startId item.

(** The relaxation adds the neighbour's weight to the cost the dequeued
    item carries. *)
Definition carriesCost (graph : Graph) (relax : Relax) : Prop :=
  ∀ item st neighbor,
    st_frontier (relax item st neighbor) = st_frontier st ∨
    ∃ priority,
      st_frontier (relax item st neighbor) =
      st_frontier st ++
        [extend graph item neighbor.1 (qi_cost item + neighbor.2) priority].

(** The heuristic estimate [astar] adds for a node id. *)
Definition estimate (graph : Graph) (goalNode : Node) (heuristicType : string)
    (nodeId : string) : Num :=
  match findNode graph nodeId with
  | Some node => calculateHeuristic node goalNode heuristicType
  | None => num_of_Z 0
  end.

Record AstarBooks (graph : Graph) (goalNode : Node) (heuristicType : string)
    (st : SearchState) : Prop := {
  astar_priority : ∀ item, item ∈ st_frontier st →
    qi_priority item =
    num_add (qi_cost item) (estimate graph goalNode heuristicType (qi_nodeId item));
  astar_nodes : ∀ item, item ∈ st_frontier st →
    is_Some (findNode graph (qi_nodeId item));
  astar_costs : ∀ item, item ∈ st_frontier st → qi_nodeId item ∉ st_visited st →
    ∃ cost, st_costSoFar st !! qi_nodeId item = Some cost ∧ (cost ≤ qi_cost item)%Z ∧
            ∃ best, best ∈ st_frontier st ∧ qi_nodeId best = qi_nodeId item ∧
                    qi_cost best = cost
}.


(** The number of node ids on the path of an item. *)
Definition hops (item : QueueItem) : nat := length (qi_path item).

(** The frontier of [bfs] holds the rest of one layer followed by the part
    of the next layer found so far; every traversable edge out of a settled
    node leads to a settled node or to a waiting item one layer further. *)
Record BfsLayers (graph : Graph) (startId : string) (st : SearchState) : Prop := {
  bfs_layers : ∃ depth near far,
    st_frontier st = near ++ far ∧
    Forall (λ item, hops item = depth) near ∧
    Forall (λ item, hops item = S depth) far;
  bfs_start :
    startId ∈ st_visited st ∨
    ∃ item, item ∈ st_frontier st ∧ qi_nodeId item = startId ∧ hops item ≤ 1;
  bfs_edges : ∀ nodeId path traversed edge nextId,
    nodeId ∈ st_visited st → walk graph startId nodeId path traversed →
    edge ∈ edges graph → connects nodeId nextId edge →
    nextId ∈ st_visited st ∨
    ∃ item, item ∈ st_frontier st ∧ qi_nodeId item = nextId ∧
            hops item ≤ S (length path)
}.

(** Entries of [costSoFar] only ever go down. *)
Definition lowered (before after : gmap string Z) : Prop :=
  ∀ nodeId cost, before !! nodeId = Some cost →
    ∃ cost', after !! nodeId = Some cost' ∧ (cost' ≤ cost)%Z.

(** An unsettled node with an entry in [costSoFar] has an item of that cost
    waiting in the frontier ([eligible] singles out the ids for which
    items are pushed at all). *)
Definition costsWaiting (eligible : string → Prop) (st : SearchState) : Prop :=
  ∀ nodeId cost, st_costSoFar st !! nodeId = Some cost → eligible nodeId →
    nodeId ∈ st_visited st ∨
    ∃ item, item ∈ st_frontier st ∧ qi_nodeId item = nodeId ∧ qi_cost item = cost.

Record CostBooks (graph : Graph) (startId : string) (eligible : string → Prop)
    (st : SearchState) : Prop := {
  cb_start : ∃ cost, st_costSoFar st !! startId = Some cost ∧ (cost ≤ 0)%Z;
  cb_costs : costsWaiting eligible st;
  cb_edges : ∀ nodeId path traversed edge nextId,
    nodeId ∈ st_visited st → walk graph startId nodeId path traversed →
    edge ∈ edges graph → connects nodeId nextId edge →
    ∃ cost, st_costSoFar st !! nextId = Some cost ∧
            (cost ≤ totalWeight traversed + edge_weight edge)%Z
}.

(** The estimate never drops by more than the weight along an edge. *)
Definition consistent (graph : Graph) (est : string → Num) : Prop :=
  ∀ edge nodeId nextId, edge ∈ edges graph → connects nodeId nextId edge →
    num_le (est nodeId) (num_add (edge_weight edge) (est nextId)).

(** The least-cost property of a result: its path is a traversable path
    from the start to the goal, its cost is the total weight of the edges of
    that path, and no traversable path from the start to the goal weighs
    less. *)
Definition leastCost (graph : Graph) (startId goalId : string)
    (result : AlgorithmResult) : Prop :=
  ∃ traversed,
    walk graph startId goalId (res_path result) traversed ∧
    res_pathLength result = length (res_path result) ∧
    res_pathCost result = totalWeight traversed ∧
    ∀ path traversed',
      walk graph startId goalId path traversed' →
      (res_pathCost result ≤ totalWeight traversed')%Z.

Definition returnsLeastCost (graph : Graph) (startId goalId : string) (run : Run)
    : Prop :=
  ∃ result, run.2 = Returned result ∧ leastCost graph startId goalId result.

(** ** graphUtils.ts and graphUtilsExtension.ts: the remaining operations *)

(** [graph.edges.map(edge => edge.id === edgeId ? { ...edge, type } : edge)] *)
Definition setEdgeType (graph : Graph) (edgeId : string) (type : EdgeType) : Graph :=
  mkGraph (nodes graph)
    ((λ edge, if decide (edge_id edge = edgeId)
              then mkEdge (edge_id edge) (edge_source edge) (edge_target edge)
                          (edge_weight edge) type
              else edge) <$> edges graph).

Definition updateEdgeWeight (graph : Graph) (edgeId : string) (weight : Z) : Graph :=
  mkGraph (nodes graph)
    ((λ edge, if decide (edge_id edge = edgeId)
              then mkEdge (edge_id edge) (edge_source edge) (edge_target edge)
                          weight (edge_type edge)
              else edge) <$> edges graph).

Definition deleteNode (graph : Graph) (nodeId : string) : Graph :=
  let filteredEdges :=
    filter (λ edge, edge_source edge ≠ nodeId ∧ edge_target edge ≠ nodeId)
           (edges graph) in
  mkGraph (filter (λ node, node_id node ≠ nodeId) (nodes graph)) filteredEdges.

(** graphUtilsExtension.ts *)
Definition moveNode (graph : Graph) (nodeId : string) (x y : Z) : Graph :=
  mkGraph
    ((λ node, if decide (node_id node = nodeId) then mkNode (node_id node) x y
              else node) <$> nodes graph)
    (edges graph).

(** ** useGraph.ts and Index.tsx: marking and resetting the path edges

    Index.tsx passes [edgeId => updateEdgeType(edgeId, 'path')] as the
    [onPathEdge] callback, and [updateEdgeType] is the state update
    [prevGraph => setEdgeType(prevGraph, edgeId, type)]; the replay calls it
    for each path edge id in order. *)
Definition markPathEdges (graph : Graph) (pathEdges : list string) : Graph :=
  foldl (λ prevGraph edgeId, setEdgeType prevGraph edgeId EdgePath) graph pathEdges.

(** The loop over the edges in [resetNodeTypes]: the edges iterated (and
    their types) are those of the graph the loop starts with.  The loop over
    the nodes before it only changes the role tag of nodes. *)
Definition resetEdgeTypes (graph : Graph) : Graph :=
  foldl (λ updatedGraph edge,
           if decide (edge_type edge = EdgePath)
           then setEdgeType updatedGraph (edge_id edge) EdgeDefault
           else updatedGraph)
        graph (edges graph).

(** [getAdjacencyList].  [adjacencyList[key].push(entry)] raises a
    [TypeError] when [key] has no array ([None]). *)
Definition pushEntry (adjacencyList : gmap string (list (string * Z)))
    (key : string) (entry : string * Z) : option (gmap string (list (string * Z))) :=
  match adjacencyList !! key with
  | Some entries => Some (<[key := entries ++ [entry]]> adjacencyList)
  | None => None
  end.

(** The body of [graph.edges.forEach] in [getAdjacencyList]. *)
Definition addAdjacency (adjacencyList : gmap string (list (string * Z)))
    (edge : Edge) : option (gmap string (list (string * Z))) :=
  adjacencyList ← pushEntry adjacencyList (edge_source edge)
                            (edge_target edge, edge_weight edge);
  if decide (edge_type edge = EdgeUndirected)
  then pushEntry adjacencyList (edge_target edge) (edge_source edge, edge_weight edge)
  else Some adjacencyList.

Definition emptyAdjacency (graph : Graph) : gmap string (list (string * Z)) :=
  foldl (λ adjacencyList node, <[node_id node := []]> adjacencyList) ∅ (nodes graph).

Definition fillAdjacency (graph : Graph) : option (gmap string (list (string * Z))) :=
  foldl (λ filled edge, filled ≫= λ adjacencyList, addAdjacency adjacencyList edge)
        (Some (emptyAdjacency graph)) (edges graph).

(** An edge both pushes of [getAdjacencyList] find an array for. *)
Definition pushable (graph : Graph) (edge : Edge) : Prop :=
  hasNode graph (edge_source edge) ∧
  (edge_type edge = EdgeUndirected → hasNode graph (edge_target edge)).

#[global] Instance pushable_dec graph edge : Decision (pushable graph edge).
Proof. unfold pushable. apply _. Defined.

(** The function returns the whole object, or one array when [nodeId] is
    given and truthy (the empty string is not). *)
Inductive AdjacencyResult :=
| AllLists (adjacencyList : gmap string (list (string * Z)))
| OneList (entries : list (string * Z)).

Definition getAdjacencyList (graph : Graph) (nodeId : option string)
    : option AdjacencyResult :=
  adjacencyList ← fillAdjacency graph;
  match nodeId with
  | Some id =>
      if decide (id = "") then Some (AllLists adjacencyList)
      else Some (OneList (default [] (adjacencyList !! id)))
  | None => Some (AllLists adjacencyList)
  end.

(** ** algorithms.ts: [reconstructPath]

    The [while] loop follows [cameFrom] back from the goal; it stops at the
    start, or where [cameFrom] has no entry (or the empty string, which is
    falsy).  Nothing bounds the loop when [cameFrom] is cyclic, so the
    model takes the number of iterations allowed and yields [None] when
    they do not suffice. *)
Fixpoint reconstructLoop (fuel : nat) (graph : Graph) (cameFrom : gmap string string)
    (startNodeId current : string) (path pathEdges : list string)
    : option (list string * list string) :=
  if decide (current = startNodeId) then Some (path, pathEdges)
  else
    match cameFrom !! current with
    | None => Some (path, pathEdges)
    | Some previous =>
        if decide (previous = "") then Some (path, pathEdges)
        else
          match fuel with
          | O => None
          | S fuel =>
              let pathEdges :=
                match findEdge graph previous current with
                | Some edge => pathEdges ++ [edge_id edge]
                | None => pathEdges
                end in
              reconstructLoop fuel graph cameFrom startNodeId previous
                              (previous :: path) pathEdges
          end
    end.

Definition reconstructPath (fuel : nat) (graph : Graph) (cameFrom : gmap string string)
    (startNodeId goalNodeId : string) : option (list string * list string) :=
  reconstructLoop fuel graph cameFrom startNodeId goalNodeId [goalNodeId] [].

(** ** useAlgorithm.ts: replaying the collected steps

    [visualizeNextStep(steps, currentStepIndex)] makes its callback calls and
    may schedule the next call with [setTimeout].  One call is modelled by
    the callback calls it makes, in order, and the index it schedules.  The
    callbacks are taken as supplied; [isPaused] is the value the call sees. *)
Inductive PlaybackCall :=
| SetIsRunning (running : bool)
| SetCurrentStep (index : nat)
| OnVisitNode (nodeId : string)
| OnPathNode (nodeId : string)
| OnPathEdge (edgeId : string).

Definition visualizeNextStep (isPaused : bool) (steps : list AlgorithmStepResult)
    (currentStepIndex : nat) : list PlaybackCall * option nat :=
  match steps !! currentStepIndex with
  | None => ([SetIsRunning false], None)
  | Some step =>
      let visit :=
        match step_currentNodeId step with
        | Some nodeId => if decide (nodeId = "") then [] else [OnVisitNode nodeId]
        | None => []
        end in
      let marks :=
        if decide (currentStepIndex = length steps - 1)
        then (OnPathNode <$> step_path step) ++ (OnPathEdge <$> step_pathEdges step)
        else [] in
      ([SetCurrentStep currentStepIndex] ++ visit ++ marks,
       if negb isPaused && bool_decide (currentStepIndex < length steps - 1)
       then Some (S currentStepIndex) else None)
  end.

(** The calls of a replay that is never paused: each scheduled call runs. *)
Fixpoint replayFrom (remaining : nat) (steps : list AlgorithmStepResult)
    (index : nat) : list PlaybackCall :=
  match remaining with
  | O => []
  | S remaining =>
      let '(calls, next) := visualizeNextStep false steps index in
      match next with
      | Some index' => calls ++ replayFrom remaining steps index'
      | None => calls
      end
  end.

(** [runSelectedAlgorithm] starts the replay at index 0; the replay makes at
    most one call per step, or one call on an empty list. *)
Definition replay (steps : list AlgorithmStepResult) : list PlaybackCall :=
  replayFrom (S (length steps)) steps 0.

(** The arguments of the calls made to each callback, in order. *)
Definition currentStepCalls (calls : list PlaybackCall) : list nat :=
  omap (λ call, match call with SetCurrentStep index => Some index | _ => None end)
       calls.

Definition visitCalls (calls : list PlaybackCall) : list string :=
  omap (λ call, match call with OnVisitNode nodeId => Some nodeId | _ => None end)
       calls.

Definition pathNodeCalls (calls : list PlaybackCall) : list string :=
  omap (λ call, match call with OnPathNode nodeId => Some nodeId | _ => None end)
       calls.

Definition pathEdgeCalls (calls : list PlaybackCall) : list string :=
  omap (λ call, match call with OnPathEdge edgeId => Some edgeId | _ => None end)
       calls.

Definition runningCalls (calls : list PlaybackCall) : list bool :=
  omap (λ call, match call with SetIsRunning running => Some running | _ => None end)
       calls.

(** PerformanceMetrics.tsx: the "Path Length" shown is [path.length - 1],
    or 'No path found' ([None]) for the empty path. *)
Definition shownPathLength (result : AlgorithmResult) : option nat :=
  match res_path result with
  | [] => None
  | _ :: _ => Some (length (res_path result) - 1)
  end.

(** ** Vocabulary of the further properties *)

(** The ids of the edges [findEdge] reports for the hops of a path. *)
Fixpoint hopEdges (graph : Graph) (path : list string) : list string :=
  match path with
  | fromId :: rest =>
      match rest with
      | toId :: _ =>
          match findEdge graph fromId toId with
          | Some edge => edge_id edge :: hopEdges graph rest
          | None => hopEdges graph rest
          end
      | [] => []
      end
  | [] => []
  end.

(** The calls one call of [visualizeNextStep] makes for a step, and the calls
    of a replay listed step by step. *)
Definition stepCalls (isLast : bool) (index : nat) (step : AlgorithmStepResult)
    : list PlaybackCall :=
  [SetCurrentStep index] ++
  match step_currentNodeId step with
  | Some nodeId => if decide (nodeId = "") then [] else [OnVisitNode nodeId]
  | None => []
  end ++
  (if isLast
   then (OnPathNode <$> step_path step) ++ (OnPathEdge <$> step_pathEdges step)
   else []).

Fixpoint replayed (index : nat) (steps : list AlgorithmStepResult)
    : list PlaybackCall :=
  match steps with
  | [] => []
  | step :: rest =>
      stepCalls (bool_decide (rest = [])) index step ++ replayed (S index) rest
  end.

(** [cameFrom] maps every node of the path but the first to the node before
    it. *)
Fixpoint chained (cameFrom : gmap string string) (path : list string) : Prop :=
  match path with
  | previous :: rest =>
      match rest with
      | current :: _ => cameFrom !! current = Some previous ∧ chained cameFrom rest
      | [] => True
      end
  | [] => True
  end.

(** Every item of the frontier carries a walk to its node and the hop edges
    of that walk, one per hop. *)
Definition tracedItem (graph : Graph) (startId : string) (item : QueueItem) : Prop :=
  (∃ traversed, walk graph startId (qi_nodeId item) (qi_path item) traversed) ∧
  qi_pathEdges item = hopEdges graph (qi_path item) ∧
  S (length (qi_pathEdges item)) = length (qi_path item).

(** An edge with its type replaced: [{ ...edge, type }]. *)
Definition retyped (edge : Edge) (type : EdgeType) : Edge :=
  mkEdge (edge_id edge) (edge_source edge) (edge_target edge) (edge_weight edge) type.

(** The ids of the edges of type ['path']. *)
Definition pathTyped (graph : Graph) : list string :=
  edge_id <$> filter (λ edge, edge_type edge = EdgePath) (edges graph).

(** No two edges with the same source and target. *)
Definition noParallel (graph : Graph) : Prop :=
  NoDup ((λ edge, (edge_source edge, edge_target edge)) <$> edges graph).

(** A step log that records the settled nodes one by one: the current nodes
    are the visited list, and each step shows the visited list so far. *)
Definition Recorded (log : list AlgorithmStepResult) (st : SearchState) : Prop :=
  step_currentNodeId <$> log = Some <$> st_visited st ∧
  ∀ index step, log !! index = Some step →
    step_visited step = take (S index) (st_visited st).

(** The path of a waiting item ends in its node; the nodes before it are
    settled, and none of them occurs twice. *)
Definition simpleItem (visited : list string) (item : QueueItem) : Prop :=
  ∃ before,
    qi_path item = before ++ [qi_nodeId item] ∧ NoDup before ∧
    ∀ nodeId, nodeId ∈ before → nodeId ∈ visited.

Definition Carried (graph : Graph) (startId : string) (st : SearchState) : Prop :=
  ∀ item, item ∈ st_frontier st →
    tracedItem graph startId item ∧ simpleItem (st_visited st) item.

(** A step whose path is a walk to its current node that no walk to that
    node beats, by total weight ([leastStep]) or by number of nodes
    ([fewestStep]). *)
Definition leastStep (graph : Graph) (startId : string) (step : AlgorithmStepResult)
    : Prop :=
  ∃ nodeId traversed,
    step_currentNodeId step = Some nodeId ∧
    walk graph startId nodeId (step_path step) traversed ∧
    ∀ path traversed',
      walk graph startId nodeId path traversed' →
      (totalWeight traversed ≤ totalWeight traversed')%Z.

Definition fewestStep (graph : Graph) (startId : string) (step : AlgorithmStepResult)
    : Prop :=
  ∃ nodeId traversed,
    step_currentNodeId step = Some nodeId ∧
    walk graph startId nodeId (step_path step) traversed ∧
    ∀ path traversed',
      walk graph startId nodeId path traversed' →
      length (step_path step) ≤ length path.

(** Two graphs with the same node ids and the same edges. *)
Definition sameLayout (graph graph' : Graph) : Prop :=
  node_id <$> nodes graph = node_id <$> nodes graph' ∧ edges graph = edges graph'.

(** An edge, a graph, an item and a state with the weights and costs
    forgotten. *)
Definition unweighted (edge : Edge) : Edge :=
  mkEdge (edge_id edge) (edge_source edge) (edge_target edge) 0 (edge_type edge).

Definition sameShape (graph graph' : Graph) : Prop :=
  node_id <$> nodes graph = node_id <$> nodes graph' ∧
  unweighted <$> edges graph = unweighted <$> edges graph'.

Definition uncosted (item : QueueItem) : QueueItem :=
  mkItem (qi_nodeId item) (qi_path item) (qi_pathEdges item) 0 (qi_priority item).

Definition uncostedResult (result : AlgorithmResult) : AlgorithmResult :=
  mkResult (res_path result) (res_pathEdges result) (res_pathLength result) 0
           (res_nodesVisited result).

Definition uncostedOutcome (outcome : Outcome) : Outcome :=
  match outcome with
  | Returned result => Returned (uncostedResult result)
  | TypeError => TypeError
  | OutOfFuel => OutOfFuel
  end.

(** Two states that differ at most in the costs the waiting items carry
    and in the bookkeeping maps, which [bfs] and [dfs] never read. *)
Definition alike (st st' : SearchState) : Prop :=
  uncosted <$> st_frontier st = uncosted <$> st_frontier st' ∧
  st_visited st = st_visited st' ∧
  st_nodesVisited st = st_nodesVisited st'.

(** A frontier discipline that does not look at the costs. *)
Definition costBlind (dequeue : Dequeue) : Prop :=
  ∀ frontier frontier',
    uncosted <$> frontier = uncosted <$> frontier' →
    match dequeue frontier, dequeue frontier' with
    | Some (item, rest), Some (item', rest') =>
        uncosted item = uncosted item' ∧ uncosted <$> rest = uncosted <$> rest'
    | None, None => True
    | _, _ => False
    end.

(** The weight of every edge is at least the Manhattan distance between the
    nodes it joins. *)
Definition spatialWeights (graph : Graph) : Prop :=
  ∀ edge sourceNode targetNode,
    edge ∈ edges graph →
    findNode graph (edge_source edge) = Some sourceNode →
    findNode graph (edge_target edge) = Some targetNode →
    (manhattanDistance sourceNode targetNode ≤ edge_weight edge)%Z.


(** Three nodes on a street grid; every edge weighs the Manhattan distance
    between its ends. *)
Definition cityBlocks : Graph :=
  mkGraph [mkNode "A" 0 0; mkNode "B" 3 4; mkNode "C" 3 0]
          [mkEdge "ab" "A" "B" 7 EdgeDefault;
           mkEdge "ac" "A" "C" 3 EdgeUndirected;
           mkEdge "cb" "C" "B" 4 EdgeDefault].

(** Integer coordinates small enough for [dx * dx + dy * dy] to be
    computed exactly in double precision: the differences are below 2^26,
    their squares below 2^52 and the sum below 2^53. *)
Definition exactCoordinates (node : Node) : Prop :=
  (Z.abs (node_x node) ≤ 2 ^ 25 ∧ Z.abs (node_y node) ≤ 2 ^ 25)%Z.

(** * Properties *)

(** ** Numbers with a square root *)

Lemma sqrt_IZR_max root : sqrt (IZR (Z.max 0 root)) = sqrt (IZR root).
Proof.
  destruct (Z.max_spec 0 root) as [[_ ->]|[Hneg ->]]; [done|].
  rewrite sqrt_0. symmetry. apply sqrt_neg_0. apply IZR_le. lia.
Qed.

Lemma Rle_squares (u v : R) : (0 <= u → 0 <= v → u <= v ↔ u * u <= v * v)%R.
Proof.
  intros Hu Hv. split; [intros; nra|].
  intros Hsq. destruct (Rle_or_lt u v) as [?|Hlt]; [done|]. nra.
Qed.

(** The comparison by integer arithmetic is the order of the real numbers. *)
Lemma num_leb_value x y : num_leb x y = true ↔ (num_value x <= num_value y)%R.
Proof.
  unfold num_leb, num_value. destruct x as [a m0], y as [b n0]. simpl.
  rewrite <- (sqrt_IZR_max m0), <- (sqrt_IZR_max n0).
  set (m := Z.max 0 m0). set (n := Z.max 0 n0).
  assert (0 ≤ m)%Z as Hm by lia. assert (0 ≤ n)%Z as Hn by lia.
  clearbody m n. clear m0 n0.
  pose proof (sqrt_pos (IZR m)) as Hp. pose proof (sqrt_pos (IZR n)) as Hq.
  pose proof (sqrt_sqrt (IZR m) (IZR_le _ _ Hm)) as Hpp.
  pose proof (sqrt_sqrt (IZR n) (IZR_le _ _ Hn)) as Hqq.
  set (p := sqrt (IZR m)) in *. set (q := sqrt (IZR n)) in *.
  assert (IZR b = IZR a + IZR (b - a))%R as -> by (rewrite minus_IZR; lra).
  set (d := (b - a)%Z). clearbody d p q.
  destruct (Z.leb_spec 0 d) as [Hd|Hd].
  - apply IZR_le in Hd as Hd'.
    rewrite orb_true_iff, !Z.leb_le.
    assert ((m - n - d * d ≤ 0)%Z ↔ (IZR m - IZR n - IZR d * IZR d <= 0)%R) as ->.
    { split; [intros H%IZR_le|intros H; apply le_IZR];
        repeat first [rewrite minus_IZR in *|rewrite mult_IZR in *]; exact H. }
    assert (((m - n - d * d) * (m - n - d * d) ≤ 4 * d * d * n)%Z ↔
            ((IZR m - IZR n - IZR d * IZR d) * (IZR m - IZR n - IZR d * IZR d) <=
             4 * IZR d * IZR d * IZR n)%R) as ->.
    { split; [intros H%IZR_le|intros H; apply le_IZR];
        repeat first [rewrite minus_IZR in *|rewrite mult_IZR in *]; exact H. }
    set (D := IZR d) in *. set (M := IZR m) in *. set (N := IZR n) in *.
    clearbody D M N. clear Hm Hn Hd.
    transitivity (p <= q + D)%R; [|split; intros; lra].
    rewrite (Rle_squares p (q + D)) by lra.
    transitivity (M - N - D * D <= 2 * D * q)%R; [|split; intros; nra].
    destruct (Rle_or_lt (M - N - D * D) 0) as [Hneg|Hpos].
    + split; [intros _; nra|by left].
    + rewrite (Rle_squares (M - N - D * D) (2 * D * q)) by nra.
      split; [intros [?|?]; [lra|nra]|intros; right; nra].
  - apply IZR_lt in Hd as Hd'.
    rewrite andb_true_iff, !Z.leb_le.
    assert ((0 ≤ n - m - d * d)%Z ↔ (0 <= IZR n - IZR m - IZR d * IZR d)%R) as ->.
    { split; [intros H%IZR_le|intros H; apply le_IZR];
        repeat first [rewrite minus_IZR in *|rewrite mult_IZR in *]; exact H. }
    assert ((4 * d * d * m ≤ (n - m - d * d) * (n - m - d * d))%Z ↔
            (4 * IZR d * IZR d * IZR m <=
             (IZR n - IZR m - IZR d * IZR d) * (IZR n - IZR m - IZR d * IZR d))%R) as ->.
    { split; [intros H%IZR_le|intros H; apply le_IZR];
        repeat first [rewrite minus_IZR in *|rewrite mult_IZR in *]; exact H. }
    set (D := IZR d) in *. set (M := IZR m) in *. set (N := IZR n) in *.
    clearbody D M N. clear Hm Hn Hd.
    transitivity (p - D <= q)%R; [|split; intros; lra].
    rewrite (Rle_squares (p - D) q) by lra.
    transitivity (2 * (- D) * p <= N - M - D * D)%R; [|split; intros; nra].
    destruct (Rle_or_lt 0 (N - M - D * D)) as [Hpos|Hneg].
    + rewrite (Rle_squares (2 * - D * p) (N - M - D * D)) by nra.
      split; [intros [_ ?]; nra|intros; split; [done|nra]].
    + split; [intros [? _]; lra|intros; nra].
Qed.

Lemma num_value_add whole x : num_value (num_add whole x) = (IZR whole + num_value x)%R.
Proof. unfold num_value, num_add. simpl. rewrite plus_IZR. lra. Qed.

Lemma num_value_of_Z whole : num_value (num_of_Z whole) = IZR whole.
Proof. unfold num_value, num_of_Z. simpl. rewrite sqrt_0. lra. Qed.

Lemma IZR_apart (k : Z) : k ≠ 0%Z → (1 <= Rabs (IZR k))%R.
Proof.
  intros Hk. rewrite <- abs_IZR. apply (IZR_le 1). lia.
Qed.

Lemma sqrt_IZR_apart (k : Z) :
  (0 ≤ k)%Z → sqrt (IZR k) ≠ 0%R → (1 <= sqrt (IZR k))%R.
Proof.
  intros Hk Hne. destruct (decide (k = 0%Z)) as [->|Hpos].
  - by rewrite sqrt_0 in Hne.
  - rewrite <- sqrt_1. apply sqrt_le_1_alt. apply (IZR_le 1). lia.
Qed.

(** Two different numbers of this form that are at most [M], with whole
    parts that are not negative, are at least [1 / (27 * M^3)] apart: the
    product of their difference with its three conjugates is an integer. *)
Lemma num_value_apart x y (M : R) :
  (0 ≤ num_whole x)%Z → (0 ≤ num_root x)%Z →
  (0 ≤ num_whole y)%Z → (0 ≤ num_root y)%Z →
  (num_value x <= M)%R → (num_value y <= M)%R →
  num_value x ≠ num_value y →
  (1 <= 27 * (M * M * M) * Rabs (num_value x - num_value y))%R.
Proof.
  unfold num_value. destruct x as [a m], y as [b n]. simpl.
  intros Ha Hm Hb Hn HxM HyM Hne.
  pose proof (sqrt_IZR_apart m Hm) as Hp1. pose proof (sqrt_IZR_apart n Hn) as Hq1.
  pose proof (sqrt_pos (IZR m)) as Hp. pose proof (sqrt_pos (IZR n)) as Hq.
  pose proof (sqrt_sqrt (IZR m) (IZR_le _ _ Hm)) as Hpp.
  pose proof (sqrt_sqrt (IZR n) (IZR_le _ _ Hn)) as Hqq.
  set (p := sqrt (IZR m)) in *. set (q := sqrt (IZR n)) in *.
  apply IZR_le in Ha, Hb.
  set (N := ((m + (b - a) * (b - a) - n) * (m + (b - a) * (b - a) - n)
             - 4 * (b - a) * (b - a) * m)%Z).
  pose proof (IZR_apart N) as HN.
  pose proof (IZR_apart (b - a)) as Hd1.
  assert (IZR (b - a) = IZR b - IZR a)%R as Hd by apply minus_IZR.
  assert (IZR N = (p - q - (IZR b - IZR a)) * (p + q - (IZR b - IZR a)) *
                  ((p - q + (IZR b - IZR a)) * (p + q + (IZR b - IZR a))))%R as HNeq.
  { unfold N. repeat first [rewrite minus_IZR|rewrite mult_IZR|rewrite plus_IZR].
    rewrite <- Hpp, <- Hqq. ring. }
  set (A := IZR a) in *. set (B := IZR b) in *.
  set (D := (A + p - (B + q))%R).
  assert (0 <= M)%R as HM by lra.
  assert (Rabs (p + q - (B - A)) <= 3 * M)%R as HF2.
  { apply Rabs_le. lra. }
  assert (Rabs (p - q + (B - A)) <= 3 * M)%R as HF3.
  { apply Rabs_le. lra. }
  assert (Rabs (p + q + (B - A)) <= 3 * M)%R as HF4.
  { apply Rabs_le. lra. }
  assert (D ≠ 0)%R as HD by (unfold D; lra).
  pose proof (Rabs_pos D) as HDpos.
  destruct (decide (N = 0%Z)) as [Hzero|Hnonzero].
  - rewrite Hzero in HNeq.
    assert (2 <= Rabs D)%R as Hfar.
    { symmetry in HNeq.
      apply Rmult_integral in HNeq as [HNeq|HNeq];
        apply Rmult_integral in HNeq as [HNeq|HNeq].
      - unfold D in HD. lra.
      - assert (q ≠ 0)%R as Hq0 by (unfold D in HD; lra).
        specialize (Hq1 Hq0). replace D with (- (2 * q))%R by (unfold D; lra).
        rewrite Rabs_Ropp, Rabs_pos_eq; lra.
      - assert (b - a ≠ 0)%Z as Hd0.
        { intros Heq. rewrite Heq in Hd. unfold D in HD. lra. }
        specialize (Hd1 Hd0). rewrite Hd in Hd1.
        replace D with (- (2 * (B - A)))%R by (unfold D; lra).
        rewrite Rabs_Ropp, Rabs_mult, (Rabs_pos_eq 2); lra.
      - assert (p ≠ 0)%R as Hp0 by (unfold D in HD; lra).
        specialize (Hp1 Hp0). replace D with (2 * p)%R by (unfold D; lra).
        rewrite Rabs_pos_eq; lra. }
    assert (1 <= M)%R as HM1.
    { assert (Rabs D <= M)%R; [|lra]. apply Rabs_le. unfold D. lra. }
    assert (1 <= M * M * M)%R by nra. nra.
  - specialize (HN Hnonzero). rewrite HNeq, !Rabs_mult in HN.
    fold D in HN. replace (p - q - (B - A))%R with D in HN by (unfold D; lra).
    pose proof (Rabs_pos (p + q - (B - A))). pose proof (Rabs_pos (p - q + (B - A))).
    pose proof (Rabs_pos (p + q + (B - A))).
    set (f2 := Rabs (p + q - (B - A))) in *.
    set (f3 := Rabs (p - q + (B - A))) in *.
    set (f4 := Rabs (p + q + (B - A))) in *.
    set (d := Rabs D) in *.
    assert (f3 * f4 <= 3 * M * (3 * M))%R as H34 by (apply Rmult_le_compat; lra).
    assert (f2 * (f3 * f4) <= 3 * M * (3 * M * (3 * M)))%R as H234.
    { apply Rmult_le_compat; try lra. apply Rmult_le_pos; lra. }
    assert (d * (f2 * (f3 * f4)) <= d * (3 * M * (3 * M * (3 * M))))%R.
    { apply Rmult_le_compat_l; lra. }
    rewrite Rmult_assoc in HN. lra.
Qed.

(** The Euclidean estimate stands for the square root itself. *)
Lemma euclideanDistance_value node1 node2 :
  num_value (euclideanDistance node1 node2) =
  sqrt (IZR ((node_x node1 - node_x node2) * (node_x node1 - node_x node2) +
             (node_y node1 - node_y node2) * (node_y node1 - node_y node2))).
Proof. unfold num_value, euclideanDistance. simpl. lra. Qed.

Lemma num_le_value x y : num_le x y ↔ (num_value x <= num_value y)%R.
Proof. apply num_leb_value. Qed.

Lemma num_le_refl x : num_le x x.
Proof. apply num_le_value. lra. Qed.

Lemma num_le_trans x y z : num_le x y → num_le y z → num_le x z.
Proof. rewrite !num_le_value. lra. Qed.

Lemma num_le_total x y : num_le x y ∨ num_le y x.
Proof. rewrite !num_le_value. lra. Qed.

Lemma num_le_of_Z a b : num_le (num_of_Z a) (num_of_Z b) ↔ (a ≤ b)%Z.
Proof.
  rewrite num_le_value, !num_value_of_Z. split; [apply le_IZR|apply IZR_le].
Qed.

(** Adding integers to the same number compares as the integers do. *)
Lemma num_le_add a b x : num_le (num_add a x) (num_add b x) ↔ (a ≤ b)%Z.
Proof.
  rewrite num_le_value, !num_value_add. split.
  - intros H. apply le_IZR. lra.
  - intros H%IZR_le. lra.
Qed.

Lemma num_le_add_mono a b x y :
  (a ≤ b)%Z → num_le x y → num_le (num_add a x) (num_add b y).
Proof. rewrite !num_le_value, !num_value_add. intros H%IZR_le. lra. Qed.

Lemma num_add_add a b x : num_add a (num_add b x) = num_add (a + b) x.
Proof. unfold num_add. simpl. f_equal. lia. Qed.

Lemma num_add_0 x : num_add 0 x = x.
Proof. by destruct x. Qed.

Lemma num_add_of_Z a b : num_add a (num_of_Z b) = num_of_Z (a + b).
Proof. done. Qed.


(** ** findEdge *)

Lemma find_first {A} (f : A → bool) (l : list A) (x : A) :
  List.find f l = Some x ↔
  ∃ before after, l = before ++ x :: after ∧ f x = true ∧
                  ∀ y, y ∈ before → f y = false.
Proof.
  induction l as [|a l IH]; simpl.
  - split; [done|]. intros (before & after & Heq & _). by destruct before.
  - destruct (f a) eqn:Hfa.
    + split.
      * intros [= <-]. exists [], l. split_and!; [done..|]. by intros y ?%elem_of_nil.
      * intros ([|b before] & after & Heq & Hx & Hbefore); simplify_eq/=; [done|].
        specialize (Hbefore b (list_elem_of_here _ _)). congruence.
    + rewrite IH. split.
      * intros (before & after & -> & Hx & Hbefore).
        exists (a :: before), after. split_and!; [done..|].
        intros y [->|?]%elem_of_cons; auto.
      * intros ([|b before] & after & Heq & Hx & Hbefore); simplify_eq/=; [congruence|].
        exists before, after. split_and!; [done..|].
        intros y ?. apply Hbefore. by right.
Qed.

Lemma find_nothing {A} (f : A → bool) (l : list A) :
  List.find f l = None ↔ ∀ y, y ∈ l → f y = false.
Proof.
  induction l as [|a l IH]; simpl.
  - split; [|done]. by intros _ y ?%elem_of_nil.
  - destruct (f a) eqn:Hfa.
    + split; [done|]. intros H. specialize (H a (list_elem_of_here _ _)). congruence.
    + rewrite IH. split.
      * intros H y [->|?]%elem_of_cons; auto.
      * intros H y ?. apply H. by right.
Qed.

(** ** getNeighbors *)

Lemma elem_of_neighborEntries nodeId edge neighborId weight :
  (neighborId, weight) ∈ neighborEntries nodeId edge ↔
  connects nodeId neighborId edge ∧ edge_weight edge = weight.
Proof.
  unfold neighborEntries, connects. rewrite elem_of_app.
  repeat case_decide; rewrite ?elem_of_cons, ?elem_of_nil; intuition congruence.
Qed.

Lemma elem_of_flat_map {A B} (f : A → list B) (l : list A) (y : B) :
  y ∈ flat_map f l ↔ ∃ x, x ∈ l ∧ y ∈ f x.
Proof.
  induction l as [|a l IH]; simpl.
  - split; [by intros ?%elem_of_nil|]. by intros (x & ?%elem_of_nil & _).
  - rewrite elem_of_app, IH. split.
    + intros [?|(x & ? & ?)]; [exists a|exists x]; split; auto; by constructor.
    + intros (x & [->|?]%elem_of_cons & ?); eauto.
Qed.

Lemma getNeighbors_entries graph nodeId neighbors :
  getNeighbors graph nodeId = Some neighbors →
  neighbors = flat_map (neighborEntries nodeId) (edges graph).
Proof.
  unfold getNeighbors. case_decide; [congruence|].
  destruct (flat_map _ _); congruence.
Qed.

Lemma elem_of_getNeighbors graph nodeId neighbors neighborId weight :
  getNeighbors graph nodeId = Some neighbors →
  (neighborId, weight) ∈ neighbors ↔
  ∃ edge, edge ∈ edges graph ∧ connects nodeId neighborId edge ∧
          edge_weight edge = weight.
Proof.
  intros ->%getNeighbors_entries. rewrite elem_of_flat_map.
  by setoid_rewrite elem_of_neighborEntries.
Qed.

Lemma connects_endpoints nodeId neighborId edge :
  connects nodeId neighborId edge →
  (nodeId = edge_source edge ∧ neighborId = edge_target edge) ∨
  (nodeId = edge_target edge ∧ neighborId = edge_source edge).
Proof. unfold connects. intuition auto. Qed.

Lemma getNeighbors_closed graph nodeId :
  edgesClosed graph → is_Some (getNeighbors graph nodeId).
Proof.
  intros Hclosed. unfold getNeighbors. case_decide as Hnode; [done|].
  destruct (flat_map _ _) as [|[neighborId weight] rest] eqn:Hpushed; [done|].
  exfalso. apply Hnode.
  assert ((neighborId, weight) ∈ flat_map (neighborEntries nodeId) (edges graph))
    as (edge & Hedge & [Hc _]%elem_of_neighborEntries)%elem_of_flat_map
    by (rewrite Hpushed; left).
  destruct (Hclosed _ Hedge), (connects_endpoints _ _ _ Hc) as [[-> _]|[-> _]]; done.
Qed.

Lemma length_neighborEntries nodeId edge : length (neighborEntries nodeId edge) ≤ 2.
Proof.
  unfold neighborEntries. rewrite length_app. repeat case_decide; simpl; lia.
Qed.

Lemma length_getNeighbors graph nodeId neighbors :
  getNeighbors graph nodeId = Some neighbors →
  length neighbors ≤ 2 * length (edges graph).
Proof.
  intros ->%getNeighbors_entries.
  induction (edges graph) as [|edge rest IH]; simpl; [lia|].
  rewrite length_app. pose proof (length_neighborEntries nodeId edge). lia.
Qed.

(** ** Walks *)


Lemma walk_ends graph startId nodeId path traversed :
  walk graph startId nodeId path traversed →
  head path = Some startId ∧ last path = Some nodeId.
Proof.
  induction 1 as [|? ? path ? ? Hw [IHh IHl]]; [done|].
  rewrite last_snoc. split; [|done]. by destruct path.
Qed.

Lemma totalWeight_snoc traversed edge :
  totalWeight (traversed ++ [edge]) = (totalWeight traversed + edge_weight edge)%Z.
Proof. unfold totalWeight. induction traversed; simpl; lia. Qed.

Lemma totalWeight_nonneg graph startId nodeId path traversed :
  nonNegative graph → walk graph startId nodeId path traversed →
  (0 ≤ totalWeight traversed)%Z.
Proof.
  intros Hnn. induction 1 as [|? ? ? ? edge _ IH Hedge _]; [done|].
  rewrite totalWeight_snoc. specialize (Hnn edge Hedge). lia.
Qed.

Lemma reachable_refl graph startId : reachable graph startId startId.
Proof. eexists _, _. constructor. Qed.

Lemma reachable_step graph startId nodeId nextId edge :
  reachable graph startId nodeId → edge ∈ edges graph →
  connects nodeId nextId edge → reachable graph startId nextId.
Proof. intros (path & traversed & Hw) ? ?. eexists _, _. by econstructor. Qed.

(** ** Frontier disciplines *)

Lemma dequeue_nil dequeue : DequeueLaws dequeue → dequeue [] = None.
Proof.
  intros [_ Hsome]. destruct (dequeue []) as [[item rest]|] eqn:Hdq; [|done].
  by apply Hsome, Permutation_nil_cons in Hdq.
Qed.

Lemma shift_laws : DequeueLaws shift.
Proof. split; intros [|item rest]; simpl; intros; by simplify_eq. Qed.

Lemma pop_laws : DequeueLaws pop.
Proof.
  split; unfold pop.
  - intros frontier. destruct (reverse frontier) eqn:Hrev; [|done].
    intros _. by rewrite <- (reverse_involutive frontier), Hrev.
  - intros frontier item rest. destruct (reverse frontier) as [|a l] eqn:Hrev; [done|].
    intros [= <- <-]. rewrite <- (reverse_involutive frontier), Hrev, reverse_cons.
    by rewrite Permutation_app_comm.
Qed.

Lemma insertBy_perm key item sorted : insertBy key item sorted ≡ₚ item :: sorted.
Proof.
  induction sorted as [|other rest IH]; simpl; [done|].
  case_decide; [done|]. rewrite IH. apply Permutation_swap.
Qed.

Lemma sortBy_perm key frontier : sortBy key frontier ≡ₚ frontier.
Proof.
  induction frontier as [|item rest IH]; simpl; [done|].
  by rewrite insertBy_perm, IH.
Qed.

Lemma insertBy_leastFirst key item sorted :
  leastFirst key sorted → leastFirst key (insertBy key item sorted).
Proof.
  destruct sorted as [|other rest]; simpl; [done|]. intros Hrest.
  case_decide as Hle; simpl.
  - constructor; [done|]. eapply Forall_impl; [done|]. simpl. intros; lia.
  - rewrite insertBy_perm. constructor; [lia|done].
Qed.

Lemma sortBy_leastFirst key frontier : leastFirst key (sortBy key frontier).
Proof.
  induction frontier as [|item rest IH]; simpl; [done|].
  by apply insertBy_leastFirst.
Qed.

Lemma shiftSorted_laws key : DequeueLaws (shiftSorted key).
Proof.
  split; unfold shiftSorted.
  - intros frontier Hnone. apply (dequeue_none _ shift_laws) in Hnone.
    apply Permutation_nil. by rewrite <- Hnone, sortBy_perm.
  - intros frontier item rest Hsome. apply (dequeue_some _ shift_laws) in Hsome.
    by rewrite <- Hsome, sortBy_perm.
Qed.

Lemma shiftSorted_least key frontier item rest other :
  shiftSorted key frontier = Some (item, rest) → other ∈ frontier →
  (key item ≤ key other)%Z.
Proof.
  unfold shiftSorted. intros Hsome Hother.
  pose proof (sortBy_leastFirst key frontier) as Hleast.
  rewrite <- (sortBy_perm key) in Hother.
  destruct (sortBy key frontier) as [|first sorted]; simplify_eq/=.
  apply elem_of_cons in Hother as [->|Hother]; [lia|].
  by eapply Forall_forall in Hleast.
Qed.

Lemma insertByPriority_perm item sorted :
  insertByPriority item sorted ≡ₚ item :: sorted.
Proof.
  induction sorted as [|other rest IH]; simpl; [done|].
  destruct (num_leb _ _); [done|]. rewrite IH. apply Permutation_swap.
Qed.

Lemma sortByPriority_perm frontier : sortByPriority frontier ≡ₚ frontier.
Proof.
  induction frontier as [|item rest IH]; simpl; [done|].
  by rewrite insertByPriority_perm, IH.
Qed.

Lemma insertByPriority_leastFirst item sorted :
  leastPriorityFirst sorted → leastPriorityFirst (insertByPriority item sorted).
Proof.
  destruct sorted as [|other rest]; simpl; [done|]. intros Hrest.
  destruct (num_leb (qi_priority item) (qi_priority other)) eqn:Hle; simpl.
  - constructor; [done|]. eapply Forall_impl; [done|]. simpl.
    intros later ?. by eapply num_le_trans.
  - rewrite insertByPriority_perm.
    assert (num_le (qi_priority other) (qi_priority item)) as Hother.
    { destruct (num_le_total (qi_priority other) (qi_priority item)) as [?|Hle'];
        [done|]. unfold num_le in Hle'. congruence. }
    by constructor.
Qed.

Lemma sortByPriority_leastFirst frontier :
  leastPriorityFirst (sortByPriority frontier).
Proof.
  induction frontier as [|item rest IH]; simpl; [done|].
  by apply insertByPriority_leastFirst.
Qed.

Lemma shiftSortedByPriority_laws : DequeueLaws shiftSortedByPriority.
Proof.
  split; unfold shiftSortedByPriority.
  - intros frontier Hnone. apply (dequeue_none _ shift_laws) in Hnone.
    apply Permutation_nil. by rewrite <- Hnone, sortByPriority_perm.
  - intros frontier item rest Hsome. apply (dequeue_some _ shift_laws) in Hsome.
    by rewrite <- Hsome, sortByPriority_perm.
Qed.

Lemma shiftSortedByPriority_least frontier item rest other :
  shiftSortedByPriority frontier = Some (item, rest) → other ∈ frontier →
  num_le (qi_priority item) (qi_priority other).
Proof.
  unfold shiftSortedByPriority. intros Hsome Hother.
  pose proof (sortByPriority_leastFirst frontier) as Hleast.
  rewrite <- sortByPriority_perm in Hother.
  destruct (sortByPriority frontier) as [|first sorted]; simplify_eq/=.
  apply elem_of_cons in Hother as [->|Hother]; [apply num_le_refl|].
  by eapply Forall_forall in Hleast.
Qed.

(** ** One pass of the loop *)

Section Pass.
Context (dequeue : Dequeue) (relax : Relax) (graph : Graph) (goalId : string).

Lemma pass_Continue st emitted st' :
  pass dequeue relax graph goalId st = Continue emitted st' →
  ∃ item rest,
    dequeue (st_frontier st) = Some (item, rest) ∧ qi_nodeId item ≠ goalId ∧
    ((qi_nodeId item ∈ st_visited st ∧ emitted = [] ∧
      st' = mkState rest (st_visited st) (st_cameFrom st) (st_costSoFar st)
                    (st_nodesVisited st)) ∨
     ((qi_nodeId item ∉ st_visited st) ∧
      ∃ neighbors,
        getNeighbors graph (qi_nodeId item) = Some neighbors ∧
        emitted = [mkStep (Some (qi_nodeId item)) (st_visited st ++ [qi_nodeId item])
                          (qi_path item) (qi_pathEdges item) (qi_nodeId <$> rest)
                          false] ∧
        st' = fold_left (relax item) neighbors
                (mkState rest (st_visited st ++ [qi_nodeId item]) (st_cameFrom st)
                         (st_costSoFar st) (S (st_nodesVisited st))))).
Proof.
  unfold pass. destruct (dequeue _) as [[item rest]|]; [|done].
  repeat case_decide; [done|..].
  - intros [= <- <-]. exists item, rest. split_and!; [done..|]. left. done.
  - destruct (getNeighbors _ _) as [neighbors|] eqn:Hn; [|done].
    intros [= <- <-]. exists item, rest. split_and!; [done..|]. right. eauto.
Qed.

Lemma pass_Stop st emitted outcome :
  pass dequeue relax graph goalId st = Stop emitted outcome →
  (dequeue (st_frontier st) = None ∧
   emitted = [mkStep None (st_visited st) [] [] [] true] ∧
   outcome = Returned (emptyResult (st_nodesVisited st))) ∨
  (∃ item rest,
     dequeue (st_frontier st) = Some (item, rest) ∧ qi_nodeId item = goalId ∧
     emitted = [mkStep (Some (qi_nodeId item)) (st_visited st) (qi_path item)
                       (qi_pathEdges item) (qi_nodeId <$> rest) true] ∧
     outcome = Returned (mkResult (qi_path item) (qi_pathEdges item)
                                  (length (qi_path item)) (qi_cost item)
                                  (st_nodesVisited st))) ∨
  (∃ item rest,
     dequeue (st_frontier st) = Some (item, rest) ∧ qi_nodeId item ≠ goalId ∧
     (qi_nodeId item ∉ st_visited st) ∧
     getNeighbors graph (qi_nodeId item) = None ∧
     emitted = [mkStep (Some (qi_nodeId item)) (st_visited st ++ [qi_nodeId item])
                       (qi_path item) (qi_pathEdges item) (qi_nodeId <$> rest)
                       false] ∧
     outcome = TypeError).
Proof.
  unfold pass. destruct (dequeue _) as [[item rest]|].
  - repeat case_decide.
    + intros [= <- <-]. right; left. exists item, rest. done.
    + done.
    + destruct (getNeighbors _ _) as [neighbors|] eqn:Hn; [done|].
      intros [= <- <-]. right; right. exists item, rest. done.
  - intros [= <- <-]. by left.
Qed.

(** The loop rule: an invariant of the passes holds of the state in
    which the last pass starts.  The invariant may mention the calls
    made to [onStep] so far. *)
Lemma search_inv (I : list AlgorithmStepResult → SearchState → Prop) :
  (∀ log st emitted st',
     I log st → pass dequeue relax graph goalId st = Continue emitted st' →
     I (log ++ emitted) st') →
  ∀ fuel log st trace outcome,
    I log st →
    search dequeue relax graph goalId fuel st = (trace, outcome) →
    outcome ≠ OutOfFuel →
    ∃ log' st' emitted,
      I log' st' ∧
      pass dequeue relax graph goalId st' = Stop emitted outcome ∧
      log ++ trace = log' ++ emitted.
Proof.
  intros Hstep fuel. induction fuel as [|fuel IH]; simpl.
  - intros ? ? ? ? _ [= _ <-]. done.
  - intros log st trace outcome HI Hsearch Hout.
    destruct (pass _ _ _ _ st) as [emitted o|emitted st'] eqn:Hpass.
    + simplify_eq. eauto 6.
    + destruct (search _ _ _ _ fuel st') as [later o] eqn:Hlater. simplify_eq.
      destruct (IH _ _ _ _ (Hstep _ _ _ _ HI Hpass) Hlater Hout)
        as (log' & st'' & emitted' & ? & ? & Heq).
      exists log', st'', emitted'. by rewrite <- Heq, (assoc_L (++)).
Qed.
End Pass.

(** ** Relaxations *)

Lemma findNode_Some graph id node :
  findNode graph id = Some node → node ∈ nodes graph ∧ node_id node = id.
Proof.
  unfold findNode. intros (before & after & -> & Hid & _)%find_first.
  apply bool_decide_eq_true in Hid. split; [|done].
  apply elem_of_app. right. left.
Qed.

Lemma findNode_hasNode graph id : is_Some (findNode graph id) ↔ hasNode graph id.
Proof.
  unfold hasNode. rewrite list_elem_of_fmap. split.
  - intros [node [? ?]%findNode_Some]. eauto.
  - intros (node & -> & Hin). destruct (findNode graph (node_id node)) eqn:Hfind; [done|].
    unfold findNode in Hfind. rewrite find_nothing in Hfind.
    specialize (Hfind _ Hin). by apply bool_decide_eq_false in Hfind.
Qed.

Lemma known_push st st' nodeId item :
  st_visited st' = st_visited st →
  st_frontier st' = st_frontier st ++ [item] →
  known st nodeId ∨ nodeId = qi_nodeId item → known st' nodeId.
Proof.
  unfold known. intros -> ->. rewrite fmap_app, elem_of_app. simpl.
  rewrite list_elem_of_singleton. tauto.
Qed.

Lemma qi_nodeId_extend graph item neighborId cost priority :
  qi_nodeId (extend graph item neighborId cost priority) = neighborId.
Proof. done. Qed.

Lemma qi_path_extend graph item neighborId cost priority :
  qi_path (extend graph item neighborId cost priority) = qi_path item ++ [neighborId].
Proof. done. Qed.

Lemma relaxUnvisited_laws graph : RelaxLaws graph (relaxUnvisited graph).
Proof.
  split; intros item st [neighborId weight]; unfold relaxUnvisited;
    case_decide; simpl; eauto.
  - intros Htracked nodeId Hcost Hnode.
    eapply (known_push st); [reflexivity..|]. left. by apply Htracked.
  - intros _ _. by left.
  - intros _ _. eapply (known_push st); [reflexivity..|]. by right.
Qed.

Lemma relaxDijkstra_laws graph : RelaxLaws graph (relaxDijkstra graph).
Proof.
  split; intros item st [neighborId weight]; unfold relaxDijkstra;
    case_decide as Himp; simpl; eauto.
  - intros Htracked nodeId Hcost Hnode.
    eapply (known_push st); [reflexivity..|].
    destruct (decide (nodeId = neighborId)) as [->|Hne]; [by right|left].
    simpl in Hcost. rewrite lookup_insert_ne in Hcost by done. by apply Htracked.
  - intros _ _. eapply (known_push st); [reflexivity..|]. by right.
  - intros Htracked Hnode. apply Htracked; [|done].
    unfold improves in Himp. destruct (st_costSoFar st !! neighborId); [done|].
    by destruct Himp.
Qed.

Lemma relaxAstar_laws graph goalNode heuristicType :
  RelaxLaws graph (relaxAstar graph goalNode heuristicType).
Proof.
  split; intros item st [neighborId weight]; unfold relaxAstar;
    case_decide as Himp; simpl; eauto;
    destruct (findNode graph neighborId) as [neighborNode|] eqn:Hfind; simpl; eauto.
  - intros Htracked nodeId Hcost Hnode.
    eapply (known_push st); [reflexivity..|].
    destruct (decide (nodeId = neighborId)) as [->|Hne]; [by right|left].
    simpl in Hcost. rewrite lookup_insert_ne in Hcost by done. by apply Htracked.
  - intros Htracked nodeId Hcost Hnode.
    destruct (decide (nodeId = neighborId)) as [->|Hne].
    + apply findNode_hasNode in Hnode. rewrite Hfind in Hnode. by destruct Hnode.
    + simpl in Hcost. rewrite lookup_insert_ne in Hcost by done. by apply Htracked.
  - intros _ _. eapply (known_push st); [reflexivity..|]. by right.
  - intros _ Hnode. apply findNode_hasNode in Hnode. rewrite Hfind in Hnode.
    by destruct Hnode.
  - intros Htracked Hnode. apply Htracked; [|done].
    unfold improves in Himp. destruct (st_costSoFar st !! neighborId); [done|].
    by destruct Himp.
  - intros Htracked Hnode. apply Htracked; [|done].
    unfold improves in Himp. destruct (st_costSoFar st !! neighborId); [done|].
    by destruct Himp.
Qed.

Lemma fold_left_preserves {A B} (f : A → B → A) (P : A → Prop) (l : list B) (a : A) :
  P a → (∀ a b, b ∈ l → P a → P (f a b)) → P (fold_left f l a).
Proof.
  revert a. induction l as [|b l IH]; simpl; [done|].
  intros a Ha Hstep. apply IH.
  - apply Hstep; [left|done].
  - intros a' b' ? ?. apply Hstep; [by right|done].
Qed.

Section Relaxing.
Context (graph : Graph) (relax : Relax) (laws : RelaxLaws graph relax).
Context (item : QueueItem).

Lemma relaxing_visited neighbors st :
  st_visited (fold_left (relax item) neighbors st) = st_visited st.
Proof.
  apply (fold_left_preserves _ (λ st', st_visited st' = st_visited st)); [done|].
  intros st' neighbor _ <-. apply laws.
Qed.

Lemma relaxing_nodesVisited neighbors st :
  st_nodesVisited (fold_left (relax item) neighbors st) = st_nodesVisited st.
Proof.
  apply (fold_left_preserves _ (λ st', st_nodesVisited st' = st_nodesVisited st));
    [done|].
  intros st' neighbor _ <-. apply laws.
Qed.

Lemma relax_frontier_mono st neighbor other :
  other ∈ st_frontier st → other ∈ st_frontier (relax item st neighbor).
Proof.
  intros Hin. destruct (relax_frontier _ _ laws item st neighbor)
    as [->|(cost & priority & ->)]; [done|].
  apply elem_of_app. by left.
Qed.

Lemma relaxing_frontier_mono neighbors st other :
  other ∈ st_frontier st → other ∈ st_frontier (fold_left (relax item) neighbors st).
Proof.
  intros Hin. apply (fold_left_preserves _ (λ st', other ∈ st_frontier st')); [done|].
  intros st' neighbor _. apply relax_frontier_mono.
Qed.

Lemma relax_known_mono st neighbor nodeId :
  known st nodeId → known (relax item st neighbor) nodeId.
Proof.
  unfold known. rewrite (relax_visited _ _ laws).
  intros [?|(other & -> & ?)%list_elem_of_fmap]; [by left|right].
  apply list_elem_of_fmap. eauto using relax_frontier_mono.
Qed.

Lemma relaxing_known_mono neighbors st nodeId :
  known st nodeId → known (fold_left (relax item) neighbors st) nodeId.
Proof.
  intros Hk. apply (fold_left_preserves _ (λ st', known st' nodeId)); [done|].
  intros st' neighbor _. apply relax_known_mono.
Qed.

Lemma relaxing_tracked neighbors st :
  tracked graph st → tracked graph (fold_left (relax item) neighbors st).
Proof.
  intros Ht. apply (fold_left_preserves _ (tracked graph)); [done|].
  intros st' neighbor _. apply laws.
Qed.

Lemma relaxing_discovers neighbors st neighbor :
  tracked graph st → neighbor ∈ neighbors → hasNode graph neighbor.1 →
  known (fold_left (relax item) neighbors st) neighbor.1.
Proof.
  revert st. induction neighbors as [|first neighbors IH]; simpl; intros st Ht Hin Hnode.
  - by apply elem_of_nil in Hin.
  - apply elem_of_cons in Hin as [->|Hin].
    + apply relaxing_known_mono. by apply (relax_discovers _ _ laws).
    + apply IH; [|done..]. by apply (relax_tracked _ _ laws).
Qed.

(** The items in the frontier after the neighbours are relaxed: those
    there before, followed by extensions of [item] by a neighbour. *)
Lemma relaxing_frontier neighbors st :
  ∃ pushed,
    st_frontier (fold_left (relax item) neighbors st) = st_frontier st ++ pushed ∧
    length pushed ≤ length neighbors ∧
    Forall (λ new, ∃ neighbor cost priority,
              neighbor ∈ neighbors ∧
              new = extend graph item neighbor.1 cost priority) pushed.
Proof.
  revert st. induction neighbors as [|first neighbors IH]; simpl; intros st.
  - exists []. by rewrite app_nil_r.
  - destruct (IH (relax item st first)) as (pushed & -> & Hlen & Hall).
    assert (Forall (λ new, ∃ neighbor cost priority,
               neighbor ∈ first :: neighbors ∧
               new = extend graph item neighbor.1 cost priority) pushed) as Hall'.
    { eapply Forall_impl; [done|]. intros new (nb & c & p & ? & ->).
      exists nb, c, p. split; [by right|done]. }
    destruct (relax_frontier _ _ laws item st first) as [->|(cost & priority & ->)].
    + exists pushed. split_and!; [done|lia|done].
    + exists (extend graph item first.1 cost priority :: pushed).
      split_and!; [by rewrite <- (assoc_L (++))|simpl; lia|].
      constructor; [|done]. exists first, cost, priority. split; [left|done].
Qed.
End Relaxing.

(** ** Invariants of the loop *)

Lemma length_candidates graph startId :
  length (candidates graph startId) = S (2 * length (edges graph)).
Proof.
  unfold candidates. simpl. f_equal.
  induction (edges graph) as [|edge rest IH]; simpl; lia.
Qed.

Lemma neighbor_candidate graph startId nodeId neighbors neighbor :
  getNeighbors graph nodeId = Some neighbors → neighbor ∈ neighbors →
  neighbor.1 ∈ candidates graph startId.
Proof.
  destruct neighbor as [neighborId weight]. intros Hn Hin.
  apply (elem_of_getNeighbors _ _ _ _ _ Hn) in Hin as (edge & Hedge & Hc & _).
  right. apply elem_of_flat_map. exists edge. split; [done|].
  destruct (connects_endpoints _ _ _ Hc) as [[_ ->]|[_ ->]]; simpl;
    rewrite !elem_of_cons; auto.
Qed.

Section Invariants.
Context (dequeue : Dequeue) (relax : Relax) (graph : Graph).
Context (startId goalId : string).
Context (dequeueLaws : DequeueLaws dequeue) (relaxLaws : RelaxLaws graph relax).

Local Abbreviation body := (pass dequeue relax graph goalId).
Local Abbreviation loop := (search dequeue relax graph goalId).

Lemma dequeued_elem frontier item rest other :
  dequeue frontier = Some (item, rest) →
  other ∈ frontier ↔ other = item ∨ other ∈ rest.
Proof.
  intros Hperm%(dequeue_some _ dequeueLaws). by rewrite Hperm, elem_of_cons.
Qed.

Lemma dequeued_length frontier item rest :
  dequeue frontier = Some (item, rest) → length frontier = S (length rest).
Proof. intros Hperm%(dequeue_some _ dequeueLaws). by rewrite Hperm. Qed.

Lemma bookkeeping_pass st emitted st' :
  Bookkeeping graph startId goalId st → body st = Continue emitted st' →
  Bookkeeping graph startId goalId st'.
Proof.
  intros [Hgoal Hnodup Hcount Hvis Hfront]
    (item & rest & Hdq & Hne & [(Hin & -> & ->)|(Hnotin & neighbors & Hn & -> & ->)])%pass_Continue.
  - split; simpl; try done.
    intros other ?. apply Hfront. rewrite (dequeued_elem _ _ _ _ Hdq). by right.
  - assert (qi_nodeId item ∈ candidates graph startId) as Hcand.
    { apply Hfront. rewrite (dequeued_elem _ _ _ _ Hdq). by left. }
    split; rewrite ?(relaxing_visited _ _ relaxLaws),
                   ?(relaxing_nodesVisited _ _ relaxLaws); simpl.
    + rewrite elem_of_app, list_elem_of_singleton. intuition congruence.
    + apply NoDup_app. split_and!; [done| |apply NoDup_singleton].
      intros nodeId ? ->%list_elem_of_singleton. done.
    + rewrite length_app. simpl. lia.
    + intros nodeId [?| ->%list_elem_of_singleton]%elem_of_app; auto.
    + destruct (relaxing_frontier _ _ relaxLaws item neighbors
                  (mkState rest (st_visited st ++ [qi_nodeId item]) (st_cameFrom st)
                           (st_costSoFar st) (S (st_nodesVisited st))))
        as (pushed & -> & _ & Hpushed). simpl.
      intros other [?|Hnew]%elem_of_app.
      * apply Hfront. rewrite (dequeued_elem _ _ _ _ Hdq). by right.
      * eapply Forall_forall in Hpushed as (neighbor & cost & priority & ? & ->);
          [|done].
        by eapply neighbor_candidate.
Qed.

Lemma remaining_pass st emitted st' :
  Bookkeeping graph startId goalId st → body st = Continue emitted st' →
  remaining graph startId st' < remaining graph startId st.
Proof.
  intros [Hgoal Hnodup Hcount Hvis Hfront]
    (item & rest & Hdq & Hne & [(Hin & -> & ->)|(Hnotin & neighbors & Hn & -> & ->)])%pass_Continue;
    unfold remaining.
  - simpl. rewrite (dequeued_length _ _ _ Hdq). lia.
  - rewrite (relaxing_visited _ _ relaxLaws).
    destruct (relaxing_frontier _ _ relaxLaws item neighbors
                (mkState rest (st_visited st ++ [qi_nodeId item]) (st_cameFrom st)
                         (st_costSoFar st) (S (st_nodesVisited st))))
      as (pushed & -> & Hlen & _). cbn [st_frontier st_visited].
    rewrite !length_app, (dequeued_length _ _ _ Hdq). cbn [length].
    pose proof (length_getNeighbors _ _ _ Hn) as Hbound.
    assert (length (st_visited st ++ [qi_nodeId item])
            ≤ length (candidates graph startId)) as Hroom.
    { apply submseteq_length, NoDup_submseteq.
      - apply NoDup_app. split_and!; [done| |apply NoDup_singleton].
        intros nodeId ? ->%list_elem_of_singleton. done.
      - intros nodeId [?| ->%list_elem_of_singleton]%elem_of_app; [auto|].
        apply Hfront. rewrite (dequeued_elem _ _ _ _ Hdq). by left. }
    rewrite length_app in Hroom. cbn [length] in Hroom.
    set (k := S (2 * length (edges graph))) in *.
    set (c := length (candidates graph startId)) in *.
    set (v := length (st_visited st)) in *.
    replace (c - v) with (S (c - (v + 1))) by lia.
    rewrite Nat.mul_succ_l. lia.
Qed.

Lemma search_terminates_from fuel st :
  Bookkeeping graph startId goalId st → remaining graph startId st < fuel →
  (loop fuel st).2 ≠ OutOfFuel.
Proof.
  revert st. induction fuel as [|fuel IH]; intros st Hbook Hfuel; [lia|].
  simpl. destruct (body st) as [emitted o|emitted st'] eqn:Hpass.
  - simpl. by apply pass_Stop in Hpass as [(_ & _ & ->)|[(? & ? & _ & _ & _ & ->)|(? & ? & _ & _ & _ & _ & _ & ->)]].
  - pose proof (remaining_pass _ _ _ Hbook Hpass).
    specialize (IH st' (bookkeeping_pass _ _ _ Hbook Hpass) ltac:(lia)).
    by destruct (loop fuel st').
Qed.

Lemma logged_pass log st emitted st' :
  Bookkeeping graph startId goalId st → Logged goalId log st →
  body st = Continue emitted st' → Logged goalId (log ++ emitted) st'.
Proof.
  intros [Hgoal _ _ _ _] [Hlen Hall]
    (item & rest & Hdq & Hne & [(Hin & -> & ->)|(Hnotin & neighbors & Hn & -> & ->)])%pass_Continue.
  - by rewrite app_nil_r.
  - split.
    + rewrite (relaxing_nodesVisited _ _ relaxLaws), length_app. simpl. lia.
    + apply Forall_app. split; [done|]. constructor; [|done].
      split_and!; simpl; [done| |eauto].
      rewrite elem_of_app, list_elem_of_singleton. intuition congruence.
Qed.

Lemma known_dequeued st item rest visited cameFrom costSoFar nodesVisited nodeId :
  dequeue (st_frontier st) = Some (item, rest) →
  (∀ other, other ∈ st_visited st → other ∈ visited) →
  qi_nodeId item ∈ visited →
  known st nodeId →
  known (mkState rest visited cameFrom costSoFar nodesVisited) nodeId.
Proof.
  intros Hdq Hsub Hitem [?|(other & -> & Hin)%list_elem_of_fmap]; [left; auto|].
  apply (dequeued_elem _ _ _ _ Hdq) in Hin as [->|Hin]; [by left|right].
  apply list_elem_of_fmap. eauto.
Qed.

Lemma explored_pass st emitted st' :
  edgesClosed graph → Explored graph startId st →
  body st = Continue emitted st' → Explored graph startId st'.
Proof.
  intros Hclosed [Hvis Hfront Hstart Hedges Htracked]
    (item & rest & Hdq & Hne & [(Hin & -> & ->)|(Hnotin & neighbors & Hn & -> & ->)])%pass_Continue.
  - assert (∀ nodeId, known st nodeId →
              known (mkState rest (st_visited st) (st_cameFrom st)
                             (st_costSoFar st) (st_nodesVisited st)) nodeId) as Hmono.
    { intros nodeId. by eapply known_dequeued. }
    split; simpl; eauto.
    + intros other ?. apply Hfront. rewrite (dequeued_elem _ _ _ _ Hdq). by right.
    + intros nodeId ? ?. by apply Hmono, Htracked.
  - set (st0 := mkState rest (st_visited st ++ [qi_nodeId item]) (st_cameFrom st)
                        (st_costSoFar st) (S (st_nodesVisited st))).
    assert (reachable graph startId (qi_nodeId item)) as Hitem.
    { apply Hfront. rewrite (dequeued_elem _ _ _ _ Hdq). by left. }
    assert (∀ nodeId, known st nodeId → known st0 nodeId) as Hmono.
    { intros nodeId. eapply known_dequeued; [done| |].
      - intros other ?. apply elem_of_app. by left.
      - apply elem_of_app. right. left. }
    assert (tracked graph st0) as Htracked0.
    { intros nodeId ? ?. by apply Hmono, Htracked. }
    split; rewrite ?(relaxing_visited _ _ relaxLaws); simpl.
    + intros nodeId [?| ->%list_elem_of_singleton]%elem_of_app; auto.
    + destruct (relaxing_frontier _ _ relaxLaws item neighbors st0)
        as (pushed & -> & _ & Hpushed). simpl.
      intros other [?|Hnew]%elem_of_app.
      * apply Hfront. rewrite (dequeued_elem _ _ _ _ Hdq). by right.
      * eapply Forall_forall in Hpushed as ([nextId weight] & cost & priority & Hnb & ->);
          [|done].
        apply (elem_of_getNeighbors _ _ _ _ _ Hn) in Hnb as (edge & ? & ? & _).
        by eapply reachable_step.
    + by apply (relaxing_known_mono _ _ relaxLaws), Hmono.
    + intros nodeId edge nextId [?| ->%list_elem_of_singleton]%elem_of_app Hedge Hc.
      * apply (relaxing_known_mono _ _ relaxLaws), Hmono. eauto.
      * apply (relaxing_discovers _ _ relaxLaws item neighbors st0
                 (nextId, edge_weight edge)); [done| |].
        -- apply (elem_of_getNeighbors _ _ _ _ _ Hn). eauto.
        -- simpl. destruct (Hclosed _ Hedge).
           by destruct (connects_endpoints _ _ _ Hc) as [[_ ->]|[_ ->]].
    + by apply (relaxing_tracked _ _ relaxLaws).
Qed.

(** When the frontier is empty, the settled nodes are exactly the nodes
    reachable from the start. *)
Lemma explored_exhausted st nodeId :
  Explored graph startId st → st_frontier st = [] →
  nodeId ∈ st_visited st ↔ reachable graph startId nodeId.
Proof.
  intros [Hvis Hfront Hstart Hedges Htracked] Hempty.
  assert (∀ other, known st other → other ∈ st_visited st) as Hknown.
  { unfold known. rewrite Hempty. simpl. intros other [?|?%elem_of_nil]; done. }
  split; [auto|]. intros (path & traversed & Hwalk).
  induction Hwalk; eauto.
Qed.
End Invariants.

(** ** Runs from the initial state *)

Section Runs.
Context (dequeue : Dequeue) (relax : Relax) (graph : Graph).
Context (startId goalId : string) (priority : Num) (costSoFar : gmap string Z).
Context (dequeueLaws : DequeueLaws dequeue) (relaxLaws : RelaxLaws graph relax).
Context (costsAtStart : ∀ nodeId, is_Some (costSoFar !! nodeId) → nodeId = startId).

Local Abbreviation body := (pass dequeue relax graph goalId).
Local Abbreviation loop := (search dequeue relax graph goalId).
Local Abbreviation start := (initialState startId priority costSoFar).

Lemma bookkeeping_start : Bookkeeping graph startId goalId start.
Proof.
  split; simpl; [by intros ?%elem_of_nil|constructor|done|by intros ? ?%elem_of_nil|].
  intros item ->%list_elem_of_singleton. left.
Qed.

Lemma logged_start : Logged goalId [] start.
Proof. by split. Qed.

Lemma known_start : known start startId.
Proof. right. simpl. left. Qed.

Lemma explored_start_state : Explored graph startId start.
Proof using costsAtStart.
  split; simpl.
  - by intros ? ?%elem_of_nil.
  - intros item ->%list_elem_of_singleton. apply reachable_refl.
  - apply known_start.
  - by intros ? ? ? ?%elem_of_nil.
  - intros nodeId ->%costsAtStart _. apply known_start.
Qed.

Lemma remaining_start : remaining graph startId start < budget graph.
Proof.
  unfold remaining, budget. rewrite length_candidates. simpl length.
  rewrite Nat.sub_0_r. lia.
Qed.

Lemma search_terminates : (loop (budget graph) start).2 ≠ OutOfFuel.
Proof using dequeueLaws relaxLaws.
  eapply search_terminates_from; [done..|apply bookkeeping_start|apply remaining_start].
Qed.

(** Every run ends in a pass that stops, started in a state that
    satisfies the bookkeeping and any further invariant [J]. *)
Lemma search_run (J : SearchState → Prop) :
  (∀ st emitted st',
     Bookkeeping graph startId goalId st → J st →
     body st = Continue emitted st' → J st') →
  J start →
  ∃ log st emitted outcome,
    Bookkeeping graph startId goalId st ∧ Logged goalId log st ∧ J st ∧
    body st = Stop emitted outcome ∧
    loop (budget graph) start = (log ++ emitted, outcome).
Proof using dequeueLaws relaxLaws.
  intros Hstep Hstart.
  pose proof search_terminates as Hterm.
  destruct (loop (budget graph) start) as [trace outcome] eqn:Hrun.
  destruct (search_inv dequeue relax graph goalId
              (λ log st, Bookkeeping graph startId goalId st ∧
                         Logged goalId log st ∧ J st))
    with (fuel := budget graph) (log := @nil AlgorithmStepResult) (st := start)
         (trace := trace) (outcome := outcome)
    as (log & st & emitted & (Hbook & Hlog & HJ) & Hstop & Heq); [|auto using bookkeeping_start, logged_start|done..|].
  - intros log st emitted st' (Hbook & Hlog & HJ) Hpass.
    split_and!; eauto using bookkeeping_pass, logged_pass.
  - simpl in Heq. subst trace. eauto 10.
Qed.

(** On a graph whose edges join nodes of the graph, [getNeighbors] never
    raises, and the run ends at the goal or with an empty frontier. *)
Lemma search_run_closed (J : SearchState → Prop) :
  edgesClosed graph →
  (∀ st emitted st',
     Bookkeeping graph startId goalId st → Explored graph startId st → J st →
     body st = Continue emitted st' → J st') →
  J start →
  ∃ log st,
    Bookkeeping graph startId goalId st ∧ Logged goalId log st ∧
    Explored graph startId st ∧ J st ∧
    ((st_frontier st = [] ∧
      loop (budget graph) start =
        (log ++ [finalStep st], Returned (emptyResult (st_nodesVisited st)))) ∨
     (∃ item rest,
        dequeue (st_frontier st) = Some (item, rest) ∧ qi_nodeId item = goalId ∧
        loop (budget graph) start =
          (log ++ [goalStep st item rest], Returned (goalResult st item)))).
Proof using dequeueLaws relaxLaws costsAtStart.
  intros Hclosed Hstep Hstart.
  destruct (search_run (λ st, Explored graph startId st ∧ J st))
    as (log & st & emitted & outcome & Hbook & Hlog & [Hexp HJ] & Hstop & Hrun).
  - intros st emitted st' Hbook [Hexp HJ] Hpass.
    split; eauto using explored_pass.
  - split; [apply explored_start_state|done].
  - exists log, st. split_and!; [done..|].
    apply pass_Stop in Hstop
      as [(Hnone & -> & ->)|[(item & rest & Hdq & Hgoal & -> & ->)|(item & rest & _ & _ & _ & Hthrow & _)]].
    + left. split; [|done]. by apply (dequeue_none _ dequeueLaws).
    + right. eauto.
    + destruct (getNeighbors_closed graph (qi_nodeId item) Hclosed). congruence.
Qed.
End Runs.

(** ** The four procedures as instances of the loop *)

Lemma everyAlgorithm_searches graph startId goalId (P : Run → Prop) :
  (∀ dequeue relax priority costSoFar,
     DequeueLaws dequeue → RelaxLaws graph relax →
     (∀ nodeId, is_Some (costSoFar !! nodeId) → nodeId = startId) →
     P (search dequeue relax graph goalId (budget graph)
               (initialState startId priority costSoFar))) →
  (¬ (hasNode graph startId ∧ hasNode graph goalId) →
   P ([], Returned (emptyResult 0))) →
  everyAlgorithm graph startId goalId P.
Proof.
  intros Hsearch Hguard.
  assert (∀ nodeId, is_Some ((∅ : gmap string Z) !! nodeId) → nodeId = startId) as Hempty.
  { intros nodeId. rewrite lookup_empty. by intros []. }
  assert (∀ nodeId, is_Some (({[startId := 0%Z]} : gmap string Z) !! nodeId) →
                    nodeId = startId) as Hsingle.
  { intros nodeId [? [-> _]%lookup_singleton_Some]. done. }
  split_and!.
  - apply Hsearch; auto using shift_laws, relaxUnvisited_laws.
  - apply Hsearch; auto using pop_laws, relaxUnvisited_laws.
  - apply Hsearch; auto using shiftSorted_laws, relaxDijkstra_laws.
  - intros heuristicType. unfold astar.
    destruct (findNode graph startId) as [startNode|] eqn:Hs;
      [destruct (findNode graph goalId) as [goalNode|] eqn:Hg|].
    + apply Hsearch; auto using shiftSortedByPriority_laws, relaxAstar_laws.
    + apply Hguard. rewrite <- !findNode_hasNode, Hg. by intros [_ []].
    + apply Hguard. rewrite <- !findNode_hasNode, Hs. by intros [[] _].
Qed.

Lemma dequeue_singleton dequeue item :
  DequeueLaws dequeue → dequeue [item] = Some (item, []).
Proof.
  intros laws. destruct (dequeue [item]) as [[first rest]|] eqn:Hdq.
  - apply (dequeue_some _ laws) in Hdq.
    pose proof (Permutation_length Hdq) as Hlen. destruct rest; [|done].
    by apply Permutation_singleton_r in Hdq as [= ->].
  - by apply (dequeue_none _ laws) in Hdq.
Qed.

(** The first pass settles the start node or finds the goal in it; either
    way [onStep] is called. *)
Lemma search_first_call dequeue relax graph startId goalId priority costSoFar :
  DequeueLaws dequeue →
  (search dequeue relax graph goalId (budget graph)
          (initialState startId priority costSoFar)).1 ≠ [].
Proof.
  intros laws. unfold budget. generalize (S (2 * length (edges graph))). intros k.
  generalize (S (k * k)). intros fuel. simpl. unfold pass. simpl.
  rewrite (dequeue_singleton _ _ laws). simpl.
  case_decide; [done|]. destruct (getNeighbors graph startId); [|done].
  by match goal with |- context [search ?d ?r ?g ?t ?f ?st] =>
       destruct (search d r g t f st) end.
Qed.

Lemma search_goal_at_start dequeue relax graph startId priority costSoFar :
  DequeueLaws dequeue →
  search dequeue relax graph startId (budget graph)
         (initialState startId priority costSoFar) =
  ([mkStep (Some startId) [] [startId] [] [] true],
   Returned (mkResult [startId] [] 1 0 0)).
Proof.
  intros laws. unfold budget. generalize (S (2 * length (edges graph))). intros k.
  generalize (S (k * k)). intros fuel. simpl. unfold pass. simpl.
  rewrite (dequeue_singleton _ _ laws). simpl. by case_decide.
Qed.

(** The loop budget of the model is never exhausted: every call returns a
    result or raises the [TypeError] of [getNeighbors]. *)
Lemma never_out_of_fuel graph startId goalId :
  everyAlgorithm graph startId goalId (λ run, run.2 ≠ OutOfFuel).
Proof.
  apply everyAlgorithm_searches; [|done].
  intros dequeue relax priority costSoFar dql rxl _.
  by apply (search_terminates dequeue relax graph startId goalId).
Qed.

(** ** Claims *)

(** C7. [findEdge graph sourceId targetId] is the first edge, in the order
    of [graph.edges], that leads from [sourceId] to [targetId] or is
    undirected and leads from [targetId] to [sourceId]; there is no result
    exactly when no edge qualifies.  In particular an undirected edge stored
    as (A, B) qualifies for [findEdge graph B A], which returns it unless an
    earlier edge qualifies too; on the graph with the single undirected edge
    (A, B, 5) the call returns that edge. *)
Theorem findEdge_first_qualifying graph sourceId targetId :
  (∀ edge,
     findEdge graph sourceId targetId = Some edge ↔
     ∃ before after,
       edges graph = before ++ edge :: after ∧ connects sourceId targetId edge ∧
       ∀ earlier, earlier ∈ before → ¬ connects sourceId targetId earlier) ∧
  (findEdge graph sourceId targetId = None ↔
   ∀ edge, edge ∈ edges graph → ¬ connects sourceId targetId edge) ∧
  (∀ before edge after,
     edges graph = before ++ edge :: after →
     edge_type edge = EdgeUndirected →
     edge_source edge = targetId → edge_target edge = sourceId →
     (∃ found, findEdge graph sourceId targetId = Some found ∧
               connects sourceId targetId found) ∧
     ((∀ earlier, earlier ∈ before → ¬ connects sourceId targetId earlier) →
      findEdge graph sourceId targetId = Some edge)) ∧
  findEdge undirectedPair "B" "A" = Some (mkEdge "ab" "A" "B" 5 EdgeUndirected).
Proof.
  assert (∀ edge,
     findEdge graph sourceId targetId = Some edge ↔
     ∃ before after,
       edges graph = before ++ edge :: after ∧ connects sourceId targetId edge ∧
       ∀ earlier, earlier ∈ before → ¬ connects sourceId targetId earlier) as Hfirst.
  { intros edge. unfold findEdge. rewrite find_first.
    setoid_rewrite bool_decide_eq_true. setoid_rewrite bool_decide_eq_false. done. }
  assert (findEdge graph sourceId targetId = None ↔
          ∀ edge, edge ∈ edges graph → ¬ connects sourceId targetId edge) as Hnone.
  { unfold findEdge. rewrite find_nothing. by setoid_rewrite bool_decide_eq_false. }
  split_and!; [done..| |done].
  intros before edge after Hedges Hundirected Hsource Htarget.
  assert (connects sourceId targetId edge) as Hc by (right; done).
  split.
  - destruct (findEdge graph sourceId targetId) as [found|] eqn:Hfind.
    + exists found. split; [done|].
      by destruct (proj1 (Hfirst found) eq_refl) as (? & ? & _ & ? & _).
    + exfalso. apply (proj1 Hnone eq_refl edge); [|done].
      rewrite Hedges, elem_of_app. right. left.
  - intros Hearlier. apply Hfirst. eauto.
Qed.

(** C8. [runAlgorithm] with an [algorithmType] other than ['bfs'], ['dfs'],
    ['dijkstra'] and ['astar'] returns the empty/zero result and never calls
    [onStep]; an omitted heuristic kind is ['euclidean'], in [astar] and in
    [runAlgorithm]. *)
Theorem runAlgorithm_unknown_kind graph startId goalId algorithmType heuristicType :
  algorithmType ∉ ["bfs"; "dfs"; "dijkstra"; "astar"] →
  runAlgorithm graph startId goalId algorithmType heuristicType =
    ([], Returned (mkResult [] [] 0 0 0)) ∧
  astar graph startId goalId None = astar graph startId goalId (Some "euclidean") ∧
  runAlgorithm graph startId goalId "astar" None =
    astar graph startId goalId (Some "euclidean").
Proof.
  intros Hkind. split; [|done].
  unfold runAlgorithm. repeat case_decide; subst; try done;
    exfalso; apply Hkind; repeat constructor.
Qed.

Lemma runAlgorithm_unknown_kind_witness :
  ("greedy" ∉ ["bfs"; "dfs"; "dijkstra"; "astar"]) ∧
  runAlgorithm generateSampleGraph "0" "5" "greedy" (Some "manhattan") =
    ([], Returned (mkResult [] [] 0 0 0)) ∧
  astar generateSampleGraph "0" "5" None =
    astar generateSampleGraph "0" "5" (Some "euclidean") ∧
  runAlgorithm generateSampleGraph "0" "5" "astar" None =
    astar generateSampleGraph "0" "5" (Some "euclidean").
Proof.
  assert ("greedy" ∉ ["bfs"; "dfs"; "dijkstra"; "astar"]) as Hkind.
  { rewrite !not_elem_of_cons. split_and!; [done..|]. apply not_elem_of_nil. }
  split; [exact Hkind|].
  exact (runAlgorithm_unknown_kind generateSampleGraph "0" "5" "greedy"
           (Some "manhattan") Hkind).
Defined.

(** C4 (as stated, refuted).  With start = goal the claim asks for
    [nodesVisited >= 1]; on the graph with the single node ["a"], [bfs] from
    ["a"] to ["a"] returns [nodesVisited = 0]. *)
Lemma start_is_goal_counterexample :
  hasNode loneNode "a" ∧
  ¬ everyAlgorithm loneNode "a" "a"
      (λ run, ∃ result,
         run.2 = Returned result ∧ res_path result = ["a"] ∧
         res_pathEdges result = [] ∧ res_pathCost result = 0%Z ∧
         1 ≤ res_nodesVisited result).
Proof.
  split; [by vm_compute; left|].
  intros [(result & Hrun & _ & _ & _ & Hvisited) _].
  vm_compute in Hrun. injection Hrun as <-. simpl in Hvisited. lia.
Qed.

(** C4 (amended).  For every algorithm and every graph containing the start
    node, if the start is the goal then the goal is found at the first
    dequeue: the result has path [start], no path edge, path length 1, cost 0
    and [nodesVisited = 0] (the goal itself is not counted), and [onStep]
    is called exactly once, with the final step. *)
Theorem start_is_goal graph startId :
  hasNode graph startId →
  everyAlgorithm graph startId startId
    (λ run, run = ([mkStep (Some startId) [] [startId] [] [] true],
                   Returned (mkResult [startId] [] 1 0 0))).
Proof.
  intros Hnode. apply everyAlgorithm_searches.
  - intros. by apply search_goal_at_start.
  - intros []. done.
Qed.

Lemma start_is_goal_witness :
  hasNode loneNode "a" ∧
  everyAlgorithm loneNode "a" "a"
    (λ run, run = ([mkStep (Some "a") [] ["a"] [] [] true],
                   Returned (mkResult ["a"] [] 1 0 0))).
Proof.
  assert (hasNode loneNode "a") as Hnode by (vm_compute; left).
  split; [exact Hnode|]. exact (start_is_goal loneNode "a" Hnode).
Defined.

(** C3 (as stated, refuted).  The goal ["z"] is not a node of the graph
    with the single node ["a"], yet [bfs] from ["a"] settles ["a"], calls
    [onStep] twice and returns [nodesVisited = 1]. *)
Lemma missing_node_counterexample :
  ¬ hasNode loneNode "z" ∧
  ¬ everyAlgorithm loneNode "a" "z" (λ run, run = ([], Returned (mkResult [] [] 0 0 0))).
Proof.
  split.
  - unfold hasNode. simpl. rewrite list_elem_of_singleton. done.
  - intros [Hbfs _]. vm_compute in Hbfs. discriminate Hbfs.
Qed.

(** C3 (amended).  If the start or the goal is not a node of the graph,
    [astar] returns the empty/zero result without calling [onStep].  [bfs],
    [dfs] and [dijkstra] do not look the ids up: they run the search as for
    any other pair of ids and call [onStep] at least once. *)
Theorem missing_node graph startId goalId :
  ¬ (hasNode graph startId ∧ hasNode graph goalId) →
  (∀ heuristicType,
     astar graph startId goalId heuristicType =
       ([], Returned (mkResult [] [] 0 0 0))) ∧
  (bfs graph startId goalId).1 ≠ [] ∧
  (dfs graph startId goalId).1 ≠ [] ∧
  (dijkstra graph startId goalId).1 ≠ [].
Proof.
  intros Hmissing. split_and!.
  - intros heuristicType. unfold astar.
    destruct (findNode graph startId) as [startNode|] eqn:Hs; [|done].
    destruct (findNode graph goalId) as [goalNode|] eqn:Hg; [|done].
    destruct Hmissing. rewrite <- !findNode_hasNode, Hs, Hg. done.
  - apply search_first_call, shift_laws.
  - apply search_first_call, pop_laws.
  - apply search_first_call, shiftSorted_laws.
Qed.

Lemma missing_node_witness :
  ¬ (hasNode loneNode "a" ∧ hasNode loneNode "z") ∧
  (∀ heuristicType,
     astar loneNode "a" "z" heuristicType = ([], Returned (mkResult [] [] 0 0 0))) ∧
  (bfs loneNode "a" "z").1 ≠ [] ∧
  (dfs loneNode "a" "z").1 ≠ [] ∧
  (dijkstra loneNode "a" "z").1 ≠ [].
Proof.
  assert (¬ (hasNode loneNode "a" ∧ hasNode loneNode "z")) as Hmissing.
  { unfold hasNode. simpl. rewrite !list_elem_of_singleton. by intros [_ ?]. }
  split; [exact Hmissing|]. exact (missing_node loneNode "a" "z" Hmissing).
Defined.

(** C9.  For every algorithm the goal is never settled: it is absent from
    the visited set of every step passed to [onStep], the final one
    included, and [nodesVisited] is the number of settling steps, each for a
    node other than the goal; it is also the size of the visited set in the
    final step. *)
Theorem goal_never_settled graph startId goalId :
  everyAlgorithm graph startId goalId
    (λ run,
       (∀ step, step ∈ run.1 → goalId ∉ step_visited step) ∧
       ∀ result, run.2 = Returned result →
         ∃ log,
           Forall (settling goalId) log ∧ res_nodesVisited result = length log ∧
           (run.1 = log ∧ log = [] ∨
            ∃ final,
              run.1 = log ++ [final] ∧ step_isComplete final = true ∧
              NoDup (step_visited final) ∧
              length (step_visited final) = res_nodesVisited result)).
Proof.
  apply everyAlgorithm_searches.
  - intros dequeue relax priority costSoFar dql rxl _.
    destruct (search_run dequeue relax graph startId goalId priority costSoFar
                dql rxl (λ _, True))
      as (log & st & emitted & outcome & Hbook & [Hlen Hlog] & _ & Hstop & ->);
      [done..|].
    destruct Hbook as [Hgoal Hnodup Hcount _ _]. simpl.
    assert (∀ step, step ∈ log → goalId ∉ step_visited step) as Hsteps.
    { intros step Hin. eapply Forall_forall in Hlog as (_ & ? & _); done. }
    apply pass_Stop in Hstop
      as [(_ & -> & ->)|[(item & rest & _ & _ & -> & ->)|(item & rest & _ & Hne & Hnew & _ & -> & ->)]].
    + split.
      * intros step [?| ->%list_elem_of_singleton]%elem_of_app; auto.
      * intros result [= <-]. exists log. split_and!; [done|simpl; lia|].
        right. eexists. split_and!; [done..|]. simpl. lia.
    + split.
      * intros step [?| ->%list_elem_of_singleton]%elem_of_app; auto.
      * intros result [= <-]. exists log. split_and!; [done|simpl; lia|].
        right. eexists. split_and!; [done..|]. simpl. lia.
    + split; [|done].
      intros step [?| ->%list_elem_of_singleton]%elem_of_app; [auto|]. simpl.
      rewrite elem_of_app, list_elem_of_singleton. intuition congruence.
  - intros _. simpl. split; [by intros ? ?%elem_of_nil|].
    intros result [= <-]. exists []. split_and!; [done..|]. by left.
Qed.

(** C6.  For every algorithm run on a graph containing the start and the
    goal, the calls to [onStep] are [nodesVisited] calls with
    [isComplete = false] followed by exactly one call with
    [isComplete = true], which is the last; and the run does return when the
    edges of the graph join nodes of the graph. *)
Theorem step_sink_protocol graph startId goalId :
  hasNode graph startId → hasNode graph goalId →
  everyAlgorithm graph startId goalId
    (λ run,
       (edgesClosed graph → ∃ result, run.2 = Returned result) ∧
       ∀ result, run.2 = Returned result →
         ∃ log final,
           run.1 = log ++ [final] ∧ length log = res_nodesVisited result ∧
           Forall (λ step, step_isComplete step = false) log ∧
           step_isComplete final = true).
Proof.
  intros Hs Hg. apply everyAlgorithm_searches; [|by intros []].
  intros dequeue relax priority costSoFar dql rxl _.
  destruct (search_run dequeue relax graph startId goalId priority costSoFar
              dql rxl (λ _, True))
    as (log & st & emitted & outcome & Hbook & [Hlen Hlog] & _ & Hstop & ->);
    [done..|].
  simpl.
  assert (Forall (λ step, step_isComplete step = false) log) as Hopen.
  { eapply Forall_impl; [done|]. by intros step [? _]. }
  apply pass_Stop in Hstop
    as [(_ & -> & ->)|[(item & rest & _ & _ & -> & ->)|(item & rest & _ & _ & _ & Hthrow & -> & ->)]].
  - split; [eauto|]. intros result [= <-]. eexists log, _. done.
  - split; [eauto|]. intros result [= <-]. eexists log, _. done.
  - split; [|done]. intros Hclosed.
    destruct (getNeighbors_closed graph (qi_nodeId item) Hclosed). congruence.
Qed.

Lemma step_sink_protocol_witness :
  hasNode generateSampleGraph "0" ∧ hasNode generateSampleGraph "5" ∧
  everyAlgorithm generateSampleGraph "0" "5"
    (λ run,
       (edgesClosed generateSampleGraph → ∃ result, run.2 = Returned result) ∧
       ∀ result, run.2 = Returned result →
         ∃ log final,
           run.1 = log ++ [final] ∧ length log = res_nodesVisited result ∧
           Forall (λ step, step_isComplete step = false) log ∧
           step_isComplete final = true).
Proof.
  assert (hasNode generateSampleGraph "0") as Hs by (vm_compute; repeat constructor).
  assert (hasNode generateSampleGraph "5") as Hg by (vm_compute; repeat constructor).
  split_and!; [exact Hs|exact Hg|].
  exact (step_sink_protocol generateSampleGraph "0" "5" Hs Hg).
Defined.

(** C5.  For every algorithm, on a graph whose edges join nodes of the graph
    and which contains the start and the goal: if the goal is not reachable
    from the start, the result has no path, no path edge, length 0, cost 0,
    and [nodesVisited] is the number of nodes reachable from the start
    ([visited] lists them without repetition); the last call to [onStep] is
    the final step with no current node, after one non-final call per settled
    node. *)
Theorem unreachable_goal graph startId goalId :
  edgesClosed graph → hasNode graph startId → hasNode graph goalId →
  ¬ reachable graph startId goalId →
  everyAlgorithm graph startId goalId
    (λ run, ∃ visited log,
       run = (log ++ [mkStep None visited [] [] [] true],
              Returned (mkResult [] [] 0 0 (length visited))) ∧
       NoDup visited ∧
       (∀ nodeId, nodeId ∈ visited ↔ reachable graph startId nodeId) ∧
       length log = length visited ∧
       Forall (λ step, step_isComplete step = false) log).
Proof.
  intros Hclosed Hs Hg Hunreachable.
  apply everyAlgorithm_searches; [|by intros []].
  intros dequeue relax priority costSoFar dql rxl Hcosts.
  destruct (search_run_closed dequeue relax graph startId goalId priority costSoFar
              dql rxl Hcosts (λ _, True))
    as (log & st & Hbook & [Hlen Hlog] & Hexp & _ & Hend); [done..|].
  destruct Hend as [[Hempty ->]|(item & rest & Hdq & Hgoal & _)].
  - exists (st_visited st), log. destruct Hbook as [_ Hnodup Hcount _ _].
    split_and!.
    + unfold finalStep, emptyResult. by rewrite Hcount.
    + done.
    + intros nodeId. by eapply explored_exhausted.
    + lia.
    + eapply Forall_impl; [done|]. by intros step [? _].
  - destruct Hunreachable. rewrite <- Hgoal. apply (explored_frontier _ _ _ Hexp).
    rewrite (dequeued_elem _ dql _ _ _ _ Hdq). by left.
Qed.

Lemma unreachable_goal_witness :
  edgesClosed generateSampleGraph ∧ hasNode generateSampleGraph "5" ∧
  hasNode generateSampleGraph "0" ∧ ¬ reachable generateSampleGraph "5" "0" ∧
  everyAlgorithm generateSampleGraph "5" "0"
    (λ run, ∃ visited log,
       run = (log ++ [mkStep None visited [] [] [] true],
              Returned (mkResult [] [] 0 0 (length visited))) ∧
       NoDup visited ∧
       (∀ nodeId, nodeId ∈ visited ↔ reachable generateSampleGraph "5" nodeId) ∧
       length log = length visited ∧
       Forall (λ step, step_isComplete step = false) log).
Proof.
  assert (edgesClosed generateSampleGraph) as Hclosed.
  { intros edge Hedge. vm_compute in Hedge. unfold hasNode.
    repeat (apply elem_of_cons in Hedge as [->|Hedge];
            [vm_compute; split; repeat constructor|]).
    by apply elem_of_nil in Hedge. }
  assert (hasNode generateSampleGraph "5") as Hs by (vm_compute; repeat constructor).
  assert (hasNode generateSampleGraph "0") as Hg by (vm_compute; repeat constructor).
  assert (¬ reachable generateSampleGraph "5" "0") as Hunreachable.
  { intros (path & traversed & Hwalk).
    assert (∀ nodeId path traversed,
              walk generateSampleGraph "5" nodeId path traversed → nodeId = "5")
      as Hstuck.
    { clear. induction 1 as [|? ? ? ? edge _ -> Hedge Hc]; [done|].
      vm_compute in Hedge. unfold connects in Hc.
      repeat (apply elem_of_cons in Hedge as [->|Hedge];
              [simpl in Hc; by destruct Hc as [[? _]|[? _]]|]).
      by apply elem_of_nil in Hedge. }
    by apply Hstuck in Hwalk. }
  split_and!; [exact Hclosed|exact Hs|exact Hg|exact Hunreachable|].
  exact (unreachable_goal generateSampleGraph "5" "0" Hclosed Hs Hg Hunreachable).
Defined.

(** ** Paths and costs carried by the queue items *)

Lemma relaxUnvisited_carries graph : carriesCost graph (relaxUnvisited graph).
Proof.
  intros item st [neighborId weight]. unfold relaxUnvisited.
  case_decide; simpl; eauto.
Qed.

Lemma relaxDijkstra_carries graph : carriesCost graph (relaxDijkstra graph).
Proof.
  intros item st [neighborId weight]. unfold relaxDijkstra.
  case_decide; simpl; eauto.
Qed.

Lemma routedItem_extend graph startId item neighbors neighborId weight priority :
  routedItem graph startId item →
  getNeighbors graph (qi_nodeId item) = Some neighbors →
  (neighborId, weight) ∈ neighbors →
  routedItem graph startId
    (extend graph item neighborId (qi_cost item + weight) priority).
Proof.
  intros (traversed & Hwalk & Hcost) Hn Hin.
  apply (elem_of_getNeighbors _ _ _ _ _ Hn) in Hin as (edge & Hedge & Hc & <-).
  exists (traversed ++ [edge]). split.
  - by econstructor.
  - rewrite totalWeight_snoc. simpl. lia.
Qed.

Lemma routed_start graph startId priority costSoFar :
  Routed graph startId (initialState startId priority costSoFar).
Proof.
  intros item ->%list_elem_of_singleton. exists []. split; [constructor|done].
Qed.

Lemma routed_pass dequeue relax graph startId goalId st emitted st' :
  DequeueLaws dequeue → carriesCost graph relax →
  Routed graph startId st →
  pass dequeue relax graph goalId st = Continue emitted st' →
  Routed graph startId st'.
Proof.
  intros dql Hcarries Hrouted
    (item & rest & Hdq & Hne & [(Hin & -> & ->)|(Hnotin & neighbors & Hn & -> & ->)])%pass_Continue.
  - intros other ?. apply Hrouted. rewrite (dequeued_elem _ dql _ _ _ _ Hdq). by right.
  - apply (fold_left_preserves _ (Routed graph startId)).
    + intros other ?. apply Hrouted. rewrite (dequeued_elem _ dql _ _ _ _ Hdq).
      by right.
    + intros st1 [neighborId weight] Hin Hst1 other.
      destruct (Hcarries item st1 (neighborId, weight)) as [->|(priority & ->)];
        [apply Hst1|].
      intros [?| ->%list_elem_of_singleton]%elem_of_app; [by apply Hst1|].
      eapply routedItem_extend; [|done..].
      apply Hrouted. rewrite (dequeued_elem _ dql _ _ _ _ Hdq). by left.
Qed.

(** *** [astar]: the cost read from [costSoFar] is the cost the item carries *)

Section Astar.
Context (graph : Graph) (goalNode : Node) (heuristicType : string).
Context (startId goalId : string).
Context (nonNeg : nonNegative graph).

Local Abbreviation dequeueA := shiftSortedByPriority.
Local Abbreviation relaxA := (relaxAstar graph goalNode heuristicType).
Local Abbreviation Books := (AstarBooks graph goalNode heuristicType).

(** The item dequeued for an unsettled node is the cheapest pushed for
    it, whose cost is the entry of [costSoFar]. *)
Lemma astar_dequeued_cost st item rest :
  Books st → dequeueA (st_frontier st) = Some (item, rest) →
  qi_nodeId item ∉ st_visited st →
  st_costSoFar st !! qi_nodeId item = Some (qi_cost item).
Proof.
  intros [Hprio _ Hcosts] Hdq Hnew.
  assert (item ∈ st_frontier st) as Hitem.
  { rewrite (dequeued_elem _ shiftSortedByPriority_laws _ _ _ _ Hdq). by left. }
  destruct (Hcosts _ Hitem Hnew) as (cost & Hlookup & Hle & best & Hbest & Hnode & <-).
  pose proof (shiftSortedByPriority_least _ _ _ _ Hdq Hbest) as Hleast.
  rewrite (Hprio _ Hitem), (Hprio _ Hbest), Hnode in Hleast.
  apply num_le_add in Hleast. rewrite Hlookup. f_equal. lia.
Qed.

(** One relaxation while the neighbours of [item] are processed. *)
Lemma astar_relax item neighbors st neighbor :
  routedItem graph startId item →
  getNeighbors graph (qi_nodeId item) = Some neighbors → neighbor ∈ neighbors →
  qi_nodeId item ∈ st_visited st ∧
  st_costSoFar st !! qi_nodeId item = Some (qi_cost item) ∧
  Routed graph startId st ∧ Books st →
  qi_nodeId item ∈ st_visited (relaxA item st neighbor) ∧
  st_costSoFar (relaxA item st neighbor) !! qi_nodeId item = Some (qi_cost item) ∧
  Routed graph startId (relaxA item st neighbor) ∧ Books (relaxA item st neighbor).
Proof using nonNeg.
  destruct neighbor as [neighborId weight].
  intros Hitem Hn Hin (Hsettled & Hcost & Hrouted & [Hprio Hnodes Hcosts]).
  assert (0 ≤ weight)%Z as Hweight.
  { apply (elem_of_getNeighbors _ _ _ _ _ Hn) in Hin as (edge & Hedge & _ & <-).
    by apply nonNeg. }
  unfold relaxAstar. rewrite Hcost. simpl.
  case_decide as Himp; [|done].
  assert (neighborId ≠ qi_nodeId item) as Hother.
  { intros ->. unfold improves in Himp. rewrite Hcost in Himp. lia. }
  assert (∀ other cost,
            st_costSoFar st !! qi_nodeId other = Some cost →
            qi_nodeId other = neighborId → (qi_cost item + weight < cost)%Z)
    as Hbetter.
  { intros other cost Hlookup Heq. unfold improves in Himp.
    by rewrite <- Heq, Hlookup in Himp. }
  destruct (findNode graph neighborId) as [neighborNode|] eqn:Hfind; simpl;
    (split; [done|]); (split; [by rewrite lookup_insert_ne|]).
  - split.
    + intros other [?| ->%list_elem_of_singleton]%elem_of_app; [by apply Hrouted|].
      by eapply routedItem_extend.
    + split; simpl.
      * intros other [?| ->%list_elem_of_singleton]%elem_of_app; [by apply Hprio|].
        simpl. unfold estimate. by rewrite Hfind.
      * intros other [?| ->%list_elem_of_singleton]%elem_of_app; [by apply Hnodes|].
        simpl. by rewrite Hfind.
      * intros other Hother' Hnew.
        destruct (decide (qi_nodeId other = neighborId)) as [Heq|Hne].
        -- exists (qi_cost item + weight)%Z. rewrite Heq, lookup_insert_eq.
           split_and!; [done| |].
           ++ apply elem_of_app in Hother' as [Hold| ->%list_elem_of_singleton];
                [|simpl; lia].
              destruct (Hcosts _ Hold Hnew) as (cost & Hlookup & Hle & _).
              pose proof (Hbetter _ _ Hlookup Heq). lia.
           ++ eexists. split_and!; [apply elem_of_app; right; left|done..].
        -- apply elem_of_app in Hother' as [Hold| ->%list_elem_of_singleton];
             [|done].
           destruct (Hcosts _ Hold Hnew) as (cost & Hlookup & Hle & best & ? & ? & ?).
           exists cost. rewrite lookup_insert_ne by done. split_and!; [done..|].
           exists best. split_and!; [|done..]. apply elem_of_app. by left.
  - split; [done|]. split; simpl; [done..|].
    intros other Hold Hnew.
    assert (qi_nodeId other ≠ neighborId) as Hne.
    { intros Heq. destruct (Hnodes _ Hold) as [node Hnode].
      rewrite Heq, Hfind in Hnode. done. }
    rewrite lookup_insert_ne by done. by apply Hcosts.
Qed.

Lemma astar_pass st emitted st' :
  Routed graph startId st ∧ Books st →
  pass dequeueA relaxA graph goalId st = Continue emitted st' →
  Routed graph startId st' ∧ Books st'.
Proof using nonNeg.
  intros [Hrouted Hbooks] Hpass.
  pose proof Hpass
    as (item & rest & Hdq & Hne & [(Hin & -> & ->)|(Hnotin & neighbors & Hn & -> & ->)])%pass_Continue.
  - assert (∀ other, other ∈ st_frontier st ↔ other = item ∨ other ∈ rest) as Helem.
    { intros other. by apply (dequeued_elem _ shiftSortedByPriority_laws). }
    destruct Hbooks as [Hprio Hnodes Hcosts].
    split; [|split]; simpl.
    + intros other ?. apply Hrouted, Helem. by right.
    + intros other ?. apply Hprio, Helem. by right.
    + intros other ?. apply Hnodes, Helem. by right.
    + intros other Hother Hnew.
      destruct (Hcosts other) as (cost & ? & ? & best & Hbest & Hnode & ?);
        [apply Helem; by right|done|].
      exists cost. split_and!; [done..|]. exists best. split_and!; [|done..].
      apply Helem in Hbest as [->|?]; [|done]. by rewrite Hnode in Hin.
  - assert (∀ other, other ∈ st_frontier st ↔ other = item ∨ other ∈ rest) as Helem.
    { intros other. by apply (dequeued_elem _ shiftSortedByPriority_laws). }
    pose proof (astar_dequeued_cost _ _ _ Hbooks Hdq Hnotin) as Hcost.
    assert (routedItem graph startId item) as Hitem.
    { apply Hrouted, Helem. by left. }
    destruct Hbooks as [Hprio Hnodes Hcosts].
    apply (fold_left_preserves _
             (λ st1, qi_nodeId item ∈ st_visited st1 ∧
                     st_costSoFar st1 !! qi_nodeId item = Some (qi_cost item) ∧
                     Routed graph startId st1 ∧ Books st1)).
    + split_and!; simpl.
      * apply elem_of_app. right. left.
      * done.
      * intros other ?. apply Hrouted, Helem. by right.
      * split; simpl.
        -- intros other ?. apply Hprio, Helem. by right.
        -- intros other ?. apply Hnodes, Helem. by right.
        -- intros other Hother Hnew.
           rewrite elem_of_app, list_elem_of_singleton in Hnew.
           destruct (Hcosts other) as (cost & ? & ? & best & Hbest & Hnode & ?);
             [apply Helem; by right|tauto|].
           exists cost. split_and!; [done..|]. exists best. split_and!; [|done..].
           apply Helem in Hbest as [->|?]; [|done]. destruct Hnew. by right.
    + intros st1 neighbor Hin Hst1. by eapply astar_relax.
Qed.

Lemma astar_start startNode :
  findNode graph startId = Some startNode →
  Books (initialState startId (calculateHeuristic startNode goalNode heuristicType)
                      {[startId := 0%Z]}).
Proof.
  intros Hfind. split; simpl.
  - intros item ->%list_elem_of_singleton. simpl. unfold estimate.
    by rewrite Hfind, num_add_0.
  - intros item ->%list_elem_of_singleton. simpl. by rewrite Hfind.
  - intros item ->%list_elem_of_singleton _. simpl. exists 0%Z.
    rewrite lookup_singleton_eq. split_and!; [done..|].
    eexists. split_and!; [left|done..].
Qed.
End Astar.





(** ** [bfs]: fewest nodes *)

Section Bfs.
Context (graph : Graph) (startId goalId : string).

Local Abbreviation relaxB := (relaxUnvisited graph).
Local Abbreviation Layers := (BfsLayers graph startId).

(** Every walk ends in a settled node or is at least as long as the path
    of some waiting item. *)
Lemma bfs_frontier_bound st nodeId path traversed :
  Layers st → walk graph startId nodeId path traversed →
  nodeId ∈ st_visited st ∨
  ∃ item, item ∈ st_frontier st ∧ hops item ≤ length path.
Proof.
  intros [_ Hstart Hedges]. induction 1 as [|nodeId nextId path traversed edge Hwalk IH Hedge Hc].
  - destruct Hstart as [?|(item & ? & _ & ?)]; [by left|right]. eauto.
  - rewrite length_app. simpl. destruct IH as [Hsettled|(item & ? & ?)].
    + destruct (Hedges _ _ _ _ _ Hsettled Hwalk Hedge Hc) as [?|(item & ? & _ & ?)];
        [by left|right].
      exists item. split; [done|lia].
    + right. exists item. split; [done|lia].
Qed.

Lemma bfs_first_least st item rest other :
  Layers st → st_frontier st = item :: rest → other ∈ st_frontier st →
  hops item ≤ hops other.
Proof.
  intros [(depth & near & far & Hfrontier & Hnear & Hfar) _ _] Heq Hother.
  rewrite Hfrontier in Heq, Hother.
  destruct near as [|first near]; simpl in Heq, Hother; simplify_eq.
  - pose proof (proj1 (Forall_forall _ _) Hfar _ Hother) as Hdeep.
    apply Forall_cons in Hfar as [Hfirst _]. simpl in *. lia.
  - assert (depth ≤ hops other) as Hrange.
    { change (other ∈ (item :: near) ++ far) in Hother.
      apply elem_of_app in Hother as [Hin|Hin].
      - eapply Forall_forall in Hnear; [|done]. simpl in *. lia.
      - eapply Forall_forall in Hfar; [|done]. simpl in *. lia. }
    apply Forall_cons in Hnear as [Hfirst _]. lia.
Qed.

Lemma bfs_relaxing_discovers item neighbors st neighbor :
  neighbor ∈ neighbors →
  neighbor.1 ∈ st_visited st ∨
  ∃ new, new ∈ st_frontier (fold_left (relaxB item) neighbors st) ∧
         qi_nodeId new = neighbor.1 ∧ hops new = S (hops item).
Proof.
  revert st. induction neighbors as [|first neighbors IH]; simpl; intros st Hin.
  - by apply elem_of_nil in Hin.
  - apply elem_of_cons in Hin as [->|Hin].
    + destruct first as [neighborId weight]. unfold relaxUnvisited at 2.
      case_decide; [by left|right].
      eexists. split; [apply (relaxing_frontier_mono _ _ (relaxUnvisited_laws graph))|].
      * simpl. apply elem_of_app. right. left.
      * split; [done|]. unfold hops. simpl. rewrite length_app. simpl. lia.
    + destruct (IH (relaxB item st first) Hin) as [Hv|?]; [left|by right].
      by rewrite (relax_visited _ _ (relaxUnvisited_laws graph)) in Hv.
Qed.

Lemma bfs_layers_pass st emitted st' :
  Layers st →
  pass shift relaxB graph goalId st = Continue emitted st' → Layers st'.
Proof.
  intros Hlayers Hpass.
  pose proof Hpass
    as (item & rest & Hdq & Hne & Hcases)%pass_Continue.
  assert (st_frontier st = item :: rest) as Hfrontier.
  { unfold shift in Hdq. destruct (st_frontier st); by simplify_eq. }
  assert (∀ other, other ∈ st_frontier st ↔ other = item ∨ other ∈ rest) as Helem.
  { intros other. by rewrite Hfrontier, elem_of_cons. }
  assert (∃ near far,
             rest = near ++ far ∧ Forall (λ other, hops other = hops item) near ∧
             Forall (λ other, hops other = S (hops item)) far) as Hrest.
  { destruct Hlayers as [(depth & near & far & Heq & Hnear & Hfar) _ _].
    rewrite Hfrontier in Heq. destruct near as [|first near]; simpl in Heq; simplify_eq.
    - apply Forall_cons in Hfar as [Hfirst Hfar].
      exists rest, []. rewrite app_nil_r, Hfirst. split_and!; auto.
    - apply Forall_cons in Hnear as [Hfirst Hnear].
      exists near, far. rewrite Hfirst. split_and!; auto. }
  destruct Hcases as [(Hin & -> & ->)|(Hnotin & neighbors & Hn & -> & ->)].
  - destruct Hlayers as [_ Hstart Hedges].
    destruct Hrest as (near & far & -> & Hnear & Hfar).
    split; simpl.
    + by exists (hops item), near, far.
    + destruct Hstart as [?|(other & [->|?]%Helem & Hnode & ?)];
        [by left|left; by rewrite <- Hnode|right; eauto].
    + intros nodeId path traversed edge nextId Hsettled Hwalk Hedge Hc.
      destruct (Hedges _ _ _ _ _ Hsettled Hwalk Hedge Hc)
        as [?|(other & [->|?]%Helem & Hnode & ?)];
        [by left|left; by rewrite <- Hnode|right; eauto].
  - set (st0 := mkState rest (st_visited st ++ [qi_nodeId item]) (st_cameFrom st)
                        (st_costSoFar st) (S (st_nodesVisited st))).
    assert (∀ path traversed,
              walk graph startId (qi_nodeId item) path traversed →
              hops item ≤ length path) as Hshortest.
    { intros path traversed Hwalk.
      destruct (bfs_frontier_bound _ _ _ _ Hlayers Hwalk) as [?|(other & Hother & ?)];
        [done|].
      pose proof (bfs_first_least _ _ _ other Hlayers Hfrontier Hother). lia. }
    destruct Hlayers as [_ Hstart Hedges].
    destruct (relaxing_frontier _ _ (relaxUnvisited_laws graph) item neighbors st0)
      as (pushed & Hpushed & _ & Hnew).
    assert (Forall (λ new, hops new = S (hops item)) pushed) as Hdeeper.
    { eapply Forall_impl; [done|]. intros new (nb & c & p & _ & ->).
      unfold hops. simpl. rewrite length_app. simpl. lia. }
    assert (∀ other, other ∈ rest →
              other ∈ st_frontier (fold_left (relaxB item) neighbors st0)) as Hkept.
    { intros other ?. rewrite Hpushed. apply elem_of_app. by left. }
    split; rewrite ?(relaxing_visited _ _ (relaxUnvisited_laws graph)).
    + rewrite Hpushed. simpl.
      destruct Hrest as (near & far & -> & Hnear & Hfar).
      exists (hops item), near, (far ++ pushed).
      rewrite (assoc_L (++)). split_and!; [done..|]. by apply Forall_app.
    + simpl. destruct Hstart as [?|(other & [->|?]%Helem & Hnode & ?)].
      * left. apply elem_of_app. by left.
      * left. rewrite <- Hnode. apply elem_of_app. right. left.
      * right. eauto.
    + simpl. intros nodeId path traversed edge nextId Hsettled Hwalk Hedge Hc.
      apply elem_of_app in Hsettled as [Hsettled| ->%list_elem_of_singleton].
      * destruct (Hedges _ _ _ _ _ Hsettled Hwalk Hedge Hc)
          as [?|(other & [->|?]%Helem & Hnode & ?)].
        -- left. apply elem_of_app. by left.
        -- left. rewrite <- Hnode. apply elem_of_app. right. left.
        -- right. eauto.
      * destruct (bfs_relaxing_discovers item neighbors st0 (nextId, edge_weight edge))
          as [?|(new & ? & ? & Hnewhops)].
        -- apply (elem_of_getNeighbors _ _ _ _ _ Hn). eauto.
        -- by left.
        -- right. exists new. split_and!; [done..|].
           pose proof (Hshortest _ _ Hwalk). lia.
Qed.
End Bfs.

Lemma bfs_layers_start graph startId priority costSoFar :
  BfsLayers graph startId (initialState startId priority costSoFar).
Proof.
  split; simpl.
  - exists 1, [mkItem startId [startId] [] 0 priority], []. split_and!; [done| |done].
    by constructor.
  - right. eexists. split_and!; [left|done|done].
  - by intros ? ? ? ? ? ?%elem_of_nil.
Qed.

(** C2.  When the goal is reachable from the start, the path [bfs] returns
    is a traversable path from the start to the goal, and no traversable path
    from the start to the goal has fewer nodes, whatever the weights.  The
    call does return when the edges of the graph join nodes of the graph
    (otherwise [getNeighbors] may raise). *)
Theorem bfs_fewest_nodes graph startId goalId :
  reachable graph startId goalId →
  (∀ result,
     (bfs graph startId goalId).2 = Returned result →
     ∃ traversed,
       walk graph startId goalId (res_path result) traversed ∧
       res_pathLength result = length (res_path result) ∧
       ∀ path traversed',
         walk graph startId goalId path traversed' →
         length (res_path result) ≤ length path) ∧
  (edgesClosed graph → ∃ result, (bfs graph startId goalId).2 = Returned result).
Proof.
  intros (path0 & traversed0 & Hreach). unfold bfs.
  destruct (search_run shift (relaxUnvisited graph) graph startId goalId (num_of_Z 0) ∅
              shift_laws (relaxUnvisited_laws graph)
              (λ st, Routed graph startId st ∧ BfsLayers graph startId st))
    as (log & st & emitted & outcome & Hbook & _ & [Hrouted Hlayers] & Hstop & ->).
  - intros st emitted st' _ [Hrouted Hlayers] Hpass. split.
    + eapply routed_pass; eauto using shift_laws, relaxUnvisited_carries.
    + by eapply bfs_layers_pass.
  - split; [apply routed_start|apply bfs_layers_start].
  - simpl. apply pass_Stop in Hstop
      as [(Hnone & _ & _)|[(item & rest & Hdq & Hgoal & _ & ->)|(item & rest & _ & _ & _ & Hthrow & _ & ->)]].
    + exfalso. apply (dequeue_none _ shift_laws) in Hnone.
      destruct (bfs_frontier_bound _ _ _ _ _ _ Hlayers Hreach)
        as [Hsettled|(other & Hin & _)].
      * by destruct (book_goal _ _ _ _ Hbook).
      * rewrite Hnone in Hin. by apply elem_of_nil in Hin.
    + split; [|eauto]. intros result [= <-]. simpl.
      assert (st_frontier st = item :: rest) as Hfrontier.
      { unfold shift in Hdq. destruct (st_frontier st); by simplify_eq. }
      destruct (Hrouted item) as (traversed & Hwalk & _);
        [rewrite Hfrontier; left|].
      rewrite Hgoal in Hwalk. exists traversed. split_and!; [done..|].
      intros path traversed' Hother.
      destruct (bfs_frontier_bound _ _ _ _ _ _ Hlayers Hother)
        as [Hsettled|(other & Hin & Hle)].
      * by destruct (book_goal _ _ _ _ Hbook).
      * pose proof (bfs_first_least _ _ _ _ _ other Hlayers Hfrontier Hin) as Hleast.
        unfold hops in *. lia.
    + split; [done|]. intros Hclosed.
      destruct (getNeighbors_closed graph (qi_nodeId item) Hclosed). congruence.
Qed.

Lemma bfs_fewest_nodes_witness :
  reachable detour "S" "G" ∧
  ∀ result,
    (bfs detour "S" "G").2 = Returned result →
    ∃ traversed,
      walk detour "S" "G" (res_path result) traversed ∧
      res_pathLength result = length (res_path result) ∧
      ∀ path traversed',
        walk detour "S" "G" path traversed' →
        length (res_path result) ≤ length path.
Proof.
  assert (reachable detour "S" "G") as Hreach.
  { exists (["S"] ++ ["G"]), ([] ++ [mkEdge "sg" "S" "G" 10 EdgeDefault]).
    eapply walk_step; [apply walk_start|vm_compute; repeat constructor|by left]. }
  split; [exact Hreach|].
  exact (proj1 (bfs_fewest_nodes detour "S" "G" Hreach)).
Defined.

(** ** [dijkstra] and [astar]: least cost *)

Lemma lowered_refl costs : lowered costs costs.
Proof. intros nodeId cost ?. exists cost. split; [done|lia]. Qed.

Lemma lowered_trans costs1 costs2 costs3 :
  lowered costs1 costs2 → lowered costs2 costs3 → lowered costs1 costs3.
Proof.
  intros H12 H23 nodeId cost Hlookup.
  destruct (H12 _ _ Hlookup) as (cost2 & Hlookup2 & ?).
  destruct (H23 _ _ Hlookup2) as (cost3 & ? & ?).
  exists cost3. split; [done|lia].
Qed.

Lemma lowered_insert costs nodeId newCost :
  improves costs nodeId newCost → lowered costs (<[nodeId := newCost]> costs).
Proof.
  intros Himp other cost Hlookup. destruct (decide (other = nodeId)) as [->|Hne].
  - exists newCost. rewrite lookup_insert_eq. split; [done|].
    unfold improves in Himp. rewrite Hlookup in Himp. lia.
  - exists cost. rewrite lookup_insert_ne by done. split; [done|lia].
Qed.

Lemma not_improves costs nodeId newCost :
  ¬ improves costs nodeId newCost →
  ∃ cost, costs !! nodeId = Some cost ∧ (cost ≤ newCost)%Z.
Proof.
  unfold improves. destruct (costs !! nodeId) as [cost|]; [|done].
  intros ?. exists cost. split; [done|lia].
Qed.

Lemma consistent_zero graph :
  nonNegative graph → consistent graph (λ _, num_of_Z 0).
Proof.
  intros HnonNeg edge nodeId nextId Hedge _. specialize (HnonNeg _ Hedge).
  rewrite num_add_of_Z. apply num_le_of_Z. lia.
Qed.

(** Every walk ends in a settled node, or some waiting item has a cost plus
    estimate that is at most the weight of the walk plus the estimate at its
    end. *)
Lemma cost_frontier_bound graph startId eligible est st nodeId path traversed :
  consistent graph est → eligible startId →
  (∀ edge fromId toId, edge ∈ edges graph → connects fromId toId edge →
                       eligible toId) →
  CostBooks graph startId eligible st →
  walk graph startId nodeId path traversed →
  nodeId ∈ st_visited st ∨
  ∃ item, item ∈ st_frontier st ∧
          num_le (num_add (qi_cost item) (est (qi_nodeId item)))
                 (num_add (totalWeight traversed) (est nodeId)).
Proof.
  intros Hcons Hstart Helig [(cost0 & Hcost0 & Hle0) Hcosts Hedges].
  induction 1 as [|nodeId nextId path traversed edge Hwalk IH Hedge Hc].
  - destruct (Hcosts _ _ Hcost0 Hstart) as [?|(item & ? & Hnode & Hcost)]; [by left|].
    right. exists item. split; [done|]. rewrite Hnode, Hcost. simpl.
    by apply num_le_add.
  - rewrite totalWeight_snoc. pose proof (Hcons _ _ _ Hedge Hc) as Hstep.
    destruct IH as [Hsettled|(item & ? & Hitem)].
    + destruct (Hedges _ _ _ _ _ Hsettled Hwalk Hedge Hc) as (cost & Hcost & ?).
      destruct (Hcosts _ _ Hcost (Helig _ _ _ Hedge Hc))
        as [?|(item & ? & Hnode & Hitem)]; [by left|].
      right. exists item. split; [done|]. rewrite Hnode, Hitem.
      by apply num_le_add.
    + right. exists item. split; [done|].
      eapply num_le_trans; [exact Hitem|]. rewrite <- num_add_add.
      by apply num_le_add_mono.
Qed.

(** Folding with an invariant that sees the neighbours processed so far. *)
Lemma fold_left_prefix {A B} (f : A → B → A) (P : list B → A → Prop)
    (l : list B) (a : A) :
  P [] a →
  (∀ processed b a', b ∈ l → P processed a' → P (processed ++ [b]) (f a' b)) →
  P l (fold_left f l a).
Proof.
  intros Hstart Hstep.
  enough (∀ processed rest a',
            (∀ b, b ∈ rest → b ∈ l) → P processed a' →
            P (processed ++ rest) (fold_left f rest a')) as Hgen.
  { by apply (Hgen [] l a). }
  intros processed rest. revert processed.
  induction rest as [|b rest IH]; simpl; intros processed a' Hsub Ha'.
  - by rewrite app_nil_r.
  - rewrite (cons_middle b), (assoc_L (++)). apply IH.
    + intros b' ?. apply Hsub. by right.
    + apply Hstep; [|done]. apply Hsub. left.
Qed.

Section Dijkstra.
Context (graph : Graph) (startId goalId : string).
Context (nonNeg : nonNegative graph).

Local Abbreviation dequeueD := (shiftSorted qi_cost).
Local Abbreviation relaxD := (relaxDijkstra graph).
Local Abbreviation Books := (CostBooks graph startId (λ _, True)).

Lemma dijkstra_relax item st neighborId weight :
  let st' := relaxD item st (neighborId, weight) in
  lowered (st_costSoFar st) (st_costSoFar st') ∧
  (∃ cost, st_costSoFar st' !! neighborId = Some cost ∧
           (cost ≤ qi_cost item + weight)%Z) ∧
  (costsWaiting (λ _, True) st → costsWaiting (λ _, True) st').
Proof.
  simpl. unfold relaxDijkstra. case_decide as Himp; simpl.
  - split_and!.
    + by apply lowered_insert.
    + eexists. rewrite lookup_insert_eq. split; [done|lia].
    + intros Hwaiting nodeId cost Hlookup _. simpl in *.
      destruct (decide (nodeId = neighborId)) as [->|Hne].
      * rewrite lookup_insert_eq in Hlookup. injection Hlookup as <-.
        right. eexists. split_and!; [apply elem_of_app; right; left|done..].
      * rewrite lookup_insert_ne in Hlookup by done.
        destruct (Hwaiting _ _ Hlookup I) as [?|(other & ? & ? & ?)]; [by left|].
        right. exists other. split_and!; [|done..]. apply elem_of_app. by left.
  - split_and!; [apply lowered_refl|by apply not_improves|done].
Qed.

Lemma dijkstra_dequeued_least st item rest path traversed :
  Books st → dequeueD (st_frontier st) = Some (item, rest) →
  qi_nodeId item ∉ st_visited st →
  walk graph startId (qi_nodeId item) path traversed →
  (qi_cost item ≤ totalWeight traversed)%Z.
Proof using nonNeg.
  intros Hbooks Hdq Hnew Hwalk.
  destruct (cost_frontier_bound graph startId (λ _, True) (λ _, num_of_Z 0) st _ _ _
              (consistent_zero _ nonNeg) I (λ _ _ _ _ _, I) Hbooks Hwalk)
    as [?|(other & Hother & Hle)]; [done|].
  apply num_le_add in Hle.
  pose proof (shiftSorted_least _ _ _ _ _ Hdq Hother). lia.
Qed.

Lemma dijkstra_books_pass st emitted st' :
  Books st →
  pass dequeueD relaxD graph goalId st = Continue emitted st' → Books st'.
Proof using nonNeg.
  intros Hbooks Hpass.
  pose proof Hpass as (item & rest & Hdq & Hne & Hcases)%pass_Continue.
  assert (∀ other, other ∈ st_frontier st ↔ other = item ∨ other ∈ rest) as Helem.
  { intros other. by apply (dequeued_elem _ (shiftSorted_laws qi_cost)). }
  destruct Hcases as [(Hin & -> & ->)|(Hnotin & neighbors & Hn & -> & ->)].
  - destruct Hbooks as [Hstart Hcosts Hedges]. split; simpl; [done| |done].
    intros nodeId cost Hlookup _.
    destruct (Hcosts _ _ Hlookup I) as [?|(other & [->|?]%Helem & Hnode & ?)];
      [by left|left; by rewrite <- Hnode|right; eauto].
  - assert (∀ path traversed,
              walk graph startId (qi_nodeId item) path traversed →
              (qi_cost item ≤ totalWeight traversed)%Z) as Hleast.
    { intros path traversed. by eapply dijkstra_dequeued_least. }
    destruct Hbooks as [Hstart Hcosts Hedges].
    set (st0 := mkState rest (st_visited st ++ [qi_nodeId item]) (st_cameFrom st)
                        (st_costSoFar st) (S (st_nodesVisited st))).
    assert (costsWaiting (λ _, True) st0) as Hcosts0.
    { intros nodeId cost Hlookup _.
      destruct (Hcosts _ _ Hlookup I) as [?|(other & [->|?]%Helem & Hnode & ?)].
      - left. apply elem_of_app. by left.
      - left. rewrite <- Hnode. apply elem_of_app. right. left.
      - right. eauto. }
    pose proof (fold_left_prefix (relaxD item)
      (λ processed st1,
         st_visited st1 = st_visited st0 ∧
         lowered (st_costSoFar st0) (st_costSoFar st1) ∧
         costsWaiting (λ _, True) st1 ∧
         ∀ neighbor, neighbor ∈ processed →
           ∃ cost, st_costSoFar st1 !! neighbor.1 = Some cost ∧
                   (cost ≤ qi_cost item + neighbor.2)%Z) neighbors st0)
      as Hfold.
    destruct Hfold as (Hvisited & Hlowered & Hwaiting & Hrelaxed).
    { split_and!; [done|apply lowered_refl|done|by intros ? ?%elem_of_nil]. }
    { intros processed [neighborId weight] st1 _ (Hv1 & Hl1 & Hw1 & Hr1).
      destruct (dijkstra_relax item st1 neighborId weight) as (Hl & Hr & Hw).
      split_and!.
      - by rewrite (relax_visited _ _ (relaxDijkstra_laws graph)).
      - by eapply lowered_trans.
      - by apply Hw.
      - intros neighbor [Hold| ->%list_elem_of_singleton]%elem_of_app; [|done].
        destruct (Hr1 _ Hold) as (cost & Hcost & ?).
        destruct (Hl _ _ Hcost) as (cost' & ? & ?).
        exists cost'. split; [done|lia]. }
    split.
    + destruct Hstart as (cost & Hcost & ?).
      destruct (Hlowered _ _ Hcost) as (cost' & ? & ?).
      exists cost'. split; [done|lia].
    + done.
    + rewrite Hvisited. simpl.
      intros nodeId path traversed edge nextId Hsettled Hwalk Hedge Hc.
      apply elem_of_app in Hsettled as [Hsettled| ->%list_elem_of_singleton].
      * destruct (Hedges _ _ _ _ _ Hsettled Hwalk Hedge Hc) as (cost & Hcost & ?).
        destruct (Hlowered _ _ Hcost) as (cost' & ? & ?).
        exists cost'. split; [done|lia].
      * destruct (Hrelaxed (nextId, edge_weight edge)) as (cost & ? & ?).
        { apply (elem_of_getNeighbors _ _ _ _ _ Hn). eauto. }
        exists cost. split; [done|]. simpl in *.
        pose proof (Hleast _ _ Hwalk). lia.
Qed.

Lemma dijkstra_books_start :
  Books (initialState startId (num_of_Z 0) {[startId := 0%Z]}).
Proof.
  split; simpl.
  - exists 0%Z. by rewrite lookup_singleton_eq.
  - intros nodeId cost Hlookup _. simpl in Hlookup.
    apply lookup_singleton_Some in Hlookup as [<- <-].
    right. eexists. split_and!; [left|done..].
  - by intros ? ? ? ? ? ?%elem_of_nil.
Qed.
End Dijkstra.

Lemma dijkstra_least_cost graph startId goalId :
  nonNegative graph → reachable graph startId goalId →
  (∀ result,
     (dijkstra graph startId goalId).2 = Returned result →
     leastCost graph startId goalId result) ∧
  (edgesClosed graph →
   ∃ result, (dijkstra graph startId goalId).2 = Returned result).
Proof.
  intros HnonNeg (path0 & traversed0 & Hreach). unfold dijkstra.
  destruct (search_run (shiftSorted qi_cost) (relaxDijkstra graph) graph
              startId goalId (num_of_Z 0) {[startId := 0%Z]}
              (shiftSorted_laws _) (relaxDijkstra_laws graph)
              (λ st, Routed graph startId st ∧
                     CostBooks graph startId (λ _, True) st))
    as (log & st & emitted & outcome & Hbook & _ & [Hrouted Hbooks] & Hstop & ->).
  - intros st emitted st' _ [Hrouted Hbooks] Hpass. split.
    + eapply routed_pass; eauto using shiftSorted_laws, relaxDijkstra_carries.
    + by eapply dijkstra_books_pass.
  - split; [apply routed_start|apply dijkstra_books_start].
  - simpl. apply pass_Stop in Hstop
      as [(Hnone & _ & _)|[(item & rest & Hdq & Hgoal & _ & ->)|(item & rest & _ & _ & _ & Hthrow & _ & ->)]].
    + exfalso. apply (dequeue_none _ (shiftSorted_laws qi_cost)) in Hnone.
      destruct (cost_frontier_bound graph startId (λ _, True) (λ _, num_of_Z 0) st _ _ _
                  (consistent_zero _ HnonNeg) I (λ _ _ _ _ _, I) Hbooks Hreach)
        as [Hsettled|(other & Hin & _)].
      * by destruct (book_goal _ _ _ _ Hbook).
      * rewrite Hnone in Hin. by apply elem_of_nil in Hin.
    + split; [|eauto]. intros result [= <-].
      destruct (Hrouted item) as (traversed & Hwalk & Hcost).
      { rewrite (dequeued_elem _ (shiftSorted_laws qi_cost) _ _ _ _ Hdq). by left. }
      exists traversed. rewrite Hgoal in Hwalk. split_and!; [done..|]. simpl.
      intros path traversed' Hother. rewrite <- Hgoal in Hother.
      eapply dijkstra_dequeued_least; [done..| |done].
      rewrite Hgoal. apply (book_goal _ _ _ _ Hbook).
    + split; [done|]. intros Hclosed.
      destruct (getNeighbors_closed graph (qi_nodeId item) Hclosed). congruence.
Qed.

Section AstarLeast.
Context (graph : Graph) (goalNode : Node) (heuristicType : string).
Context (startId goalId : string).
Context (nonNeg : nonNegative graph) (closed : edgesClosed graph).
Context (startPresent : hasNode graph startId).

Local Abbreviation est := (estimate graph goalNode heuristicType).
Local Abbreviation dequeueA := shiftSortedByPriority.
Local Abbreviation relaxA := (relaxAstar graph goalNode heuristicType).
Local Abbreviation BooksA := (AstarBooks graph goalNode heuristicType).
Local Abbreviation BooksC := (CostBooks graph startId (hasNode graph)).

Lemma astar_cost_relax item st neighborId weight :
  st_costSoFar st !! qi_nodeId item = Some (qi_cost item) →
  let st' := relaxA item st (neighborId, weight) in
  lowered (st_costSoFar st) (st_costSoFar st') ∧
  (∃ cost, st_costSoFar st' !! neighborId = Some cost ∧
           (cost ≤ qi_cost item + weight)%Z) ∧
  (costsWaiting (hasNode graph) st → costsWaiting (hasNode graph) st').
Proof.
  intros Hcost. simpl. unfold relaxAstar. rewrite Hcost. simpl.
  case_decide as Himp; simpl.
  - destruct (findNode graph neighborId) as [neighborNode|] eqn:Hfind; simpl.
    + split_and!.
      * by apply lowered_insert.
      * eexists. rewrite lookup_insert_eq. split; [done|lia].
      * intros Hwaiting nodeId cost Hlookup Hnode. simpl in *.
        destruct (decide (nodeId = neighborId)) as [->|Hne].
        -- rewrite lookup_insert_eq in Hlookup. injection Hlookup as <-.
           right. eexists. split_and!; [apply elem_of_app; right; left|done..].
        -- rewrite lookup_insert_ne in Hlookup by done.
           destruct (Hwaiting _ _ Hlookup Hnode) as [?|(other & ? & ? & ?)];
             [by left|].
           right. exists other. split_and!; [|done..]. apply elem_of_app. by left.
    + split_and!.
      * by apply lowered_insert.
      * eexists. rewrite lookup_insert_eq. split; [done|lia].
      * intros Hwaiting nodeId cost Hlookup Hnode. simpl in *.
        destruct (decide (nodeId = neighborId)) as [->|Hne].
        -- apply findNode_hasNode in Hnode. rewrite Hfind in Hnode.
           by destruct Hnode.
        -- rewrite lookup_insert_ne in Hlookup by done. by apply Hwaiting.
  - split_and!; [apply lowered_refl|by apply not_improves|done].
Qed.

Lemma closed_eligible edge fromId toId :
  edge ∈ edges graph → connects fromId toId edge → hasNode graph toId.
Proof using closed.
  intros Hedge Hc. destruct (closed _ Hedge).
  by destruct (connects_endpoints _ _ _ Hc) as [[_ ->]|[_ ->]].
Qed.

Lemma astar_dequeued_least st item rest path traversed :
  consistent graph est → BooksA st → BooksC st →
  dequeueA (st_frontier st) = Some (item, rest) →
  qi_nodeId item ∉ st_visited st →
  walk graph startId (qi_nodeId item) path traversed →
  (qi_cost item ≤ totalWeight traversed)%Z.
Proof using closed startPresent.
  intros Hcons HbooksA HbooksC Hdq Hnew Hwalk.
  destruct (cost_frontier_bound graph startId (hasNode graph) est st _ _ _
              Hcons startPresent closed_eligible HbooksC Hwalk)
    as [?|(other & Hother & Hle)]; [done|].
  pose proof (shiftSortedByPriority_least _ _ _ _ Hdq Hother) as Hleast.
  assert (item ∈ st_frontier st) as Hitem.
  { rewrite (dequeued_elem _ shiftSortedByPriority_laws _ _ _ _ Hdq). by left. }
  rewrite (astar_priority _ _ _ _ HbooksA _ Hitem),
          (astar_priority _ _ _ _ HbooksA _ Hother) in Hleast.
  apply (num_le_add _ _ (est (qi_nodeId item))).
  by apply (num_le_trans _ _ _ Hleast).
Qed.

Lemma astar_books_pass st emitted st' :
  consistent graph est →
  Routed graph startId st ∧ BooksA st ∧ BooksC st →
  pass dequeueA relaxA graph goalId st = Continue emitted st' →
  Routed graph startId st' ∧ BooksA st' ∧ BooksC st'.
Proof using nonNeg closed startPresent.
  intros Hcons (Hrouted & HbooksA & HbooksC) Hpass.
  destruct (astar_pass graph goalNode heuristicType startId goalId nonNeg
              st emitted st' (conj Hrouted HbooksA) Hpass) as [Hrouted' HbooksA'].
  split_and!; [done..|].
  pose proof Hpass as (item & rest & Hdq & Hne & Hcases)%pass_Continue.
  assert (∀ other, other ∈ st_frontier st ↔ other = item ∨ other ∈ rest) as Helem.
  { intros other. by apply (dequeued_elem _ shiftSortedByPriority_laws). }
  destruct Hcases as [(Hin & -> & ->)|(Hnotin & neighbors & Hn & -> & ->)].
  - destruct HbooksC as [Hstart Hcosts Hedges]. split; simpl; [done| |done].
    intros nodeId cost Hlookup Hnode.
    destruct (Hcosts _ _ Hlookup Hnode) as [?|(other & [->|?]%Helem & Hnode' & ?)];
      [by left|left; by rewrite <- Hnode'|right; eauto].
  - assert (∀ path traversed,
              walk graph startId (qi_nodeId item) path traversed →
              (qi_cost item ≤ totalWeight traversed)%Z) as Hleast.
    { intros path traversed Hwalk.
      exact (astar_dequeued_least st item rest path traversed
               Hcons HbooksA HbooksC Hdq Hnotin Hwalk). }
    pose proof (astar_dequeued_cost _ _ _ _ _ _ HbooksA Hdq Hnotin) as Hcost.
    assert (routedItem graph startId item) as Hitem.
    { apply Hrouted, Helem. by left. }
    destruct HbooksC as [Hstart Hcosts Hedges].
    set (st0 := mkState rest (st_visited st ++ [qi_nodeId item]) (st_cameFrom st)
                        (st_costSoFar st) (S (st_nodesVisited st))).
    assert (costsWaiting (hasNode graph) st0) as Hcosts0.
    { intros nodeId cost Hlookup Hnode.
      destruct (Hcosts _ _ Hlookup Hnode) as [?|(other & [->|?]%Helem & Hnode' & ?)].
      - left. apply elem_of_app. by left.
      - left. rewrite <- Hnode'. apply elem_of_app. right. left.
      - right. eauto. }
    assert (Routed graph startId st0 ∧ BooksA st0) as [Hrouted0 HbooksA0].
    { destruct HbooksA as [Hprio Hnodes HcostsA]. split; [|split]; simpl.
      - intros other ?. apply Hrouted, Helem. by right.
      - intros other ?. apply Hprio, Helem. by right.
      - intros other ?. apply Hnodes, Helem. by right.
      - intros other Hother Hnew.
        rewrite elem_of_app, list_elem_of_singleton in Hnew.
        destruct (HcostsA other) as (cost & ? & ? & best & Hbest & Hnode & ?);
          [apply Helem; by right|tauto|].
        exists cost. split_and!; [done..|]. exists best. split_and!; [|done..].
        apply Helem in Hbest as [->|?]; [|done]. destruct Hnew. by right. }
    pose proof (fold_left_prefix (relaxA item)
      (λ processed st1,
         (qi_nodeId item ∈ st_visited st1 ∧
          st_costSoFar st1 !! qi_nodeId item = Some (qi_cost item) ∧
          Routed graph startId st1 ∧ BooksA st1) ∧
         st_visited st1 = st_visited st0 ∧
         lowered (st_costSoFar st0) (st_costSoFar st1) ∧
         costsWaiting (hasNode graph) st1 ∧
         ∀ neighbor, neighbor ∈ processed →
           ∃ cost, st_costSoFar st1 !! neighbor.1 = Some cost ∧
                   (cost ≤ qi_cost item + neighbor.2)%Z) neighbors st0)
      as Hfold.
    destruct Hfold as (_ & Hvisited & Hlowered & Hwaiting & Hrelaxed).
    { split_and!; [|done|done|done|done|apply lowered_refl|done|
                   by intros ? ?%elem_of_nil].
      simpl. apply elem_of_app. right. left. }
    { intros processed [neighborId weight] st1 Hin (Hastar & Hv1 & Hl1 & Hw1 & Hr1).
      pose proof Hastar as (_ & Hcost1 & _).
      destruct (astar_cost_relax item st1 neighborId weight Hcost1)
        as (Hl & Hr & Hw).
      split; [by eapply astar_relax|]. split_and!.
      - by rewrite (relax_visited _ _ (relaxAstar_laws graph goalNode heuristicType)).
      - by eapply lowered_trans.
      - by apply Hw.
      - intros neighbor [Hold| ->%list_elem_of_singleton]%elem_of_app; [|done].
        destruct (Hr1 _ Hold) as (cost & Hcost' & ?).
        destruct (Hl _ _ Hcost') as (cost' & ? & ?).
        exists cost'. split; [done|lia]. }
    split.
    + destruct Hstart as (cost & Hcost' & ?).
      destruct (Hlowered _ _ Hcost') as (cost' & ? & ?).
      exists cost'. split; [done|lia].
    + done.
    + rewrite Hvisited. simpl.
      intros nodeId path traversed edge nextId Hsettled Hwalk Hedge Hc.
      apply elem_of_app in Hsettled as [Hsettled| ->%list_elem_of_singleton].
      * destruct (Hedges _ _ _ _ _ Hsettled Hwalk Hedge Hc) as (cost & Hcost' & ?).
        destruct (Hlowered _ _ Hcost') as (cost' & ? & ?).
        exists cost'. split; [done|lia].
      * destruct (Hrelaxed (nextId, edge_weight edge)) as (cost & ? & ?).
        { apply (elem_of_getNeighbors _ _ _ _ _ Hn). eauto. }
        exists cost. split; [done|]. simpl in *.
        pose proof (Hleast _ _ Hwalk). lia.
Qed.

Lemma astar_cost_start priority :
  BooksC (initialState startId priority {[startId := 0%Z]}).
Proof.
  split; simpl.
  - exists 0%Z. by rewrite lookup_singleton_eq.
  - intros nodeId cost Hlookup _. simpl in Hlookup.
    apply lookup_singleton_Some in Hlookup as [<- <-].
    right. eexists. split_and!; [left|done..].
  - by intros ? ? ? ? ? ?%elem_of_nil.
Qed.
End AstarLeast.

(** When the goal is reachable, [astar] returns a traversable path from the
    start to the goal together with the total weight of its edges. *)
Lemma astar_returns_path graph startId goalId heuristicType :
  edgesClosed graph → nonNegative graph →
  hasNode graph startId → hasNode graph goalId →
  reachable graph startId goalId →
  ∃ result traversed,
    (astar graph startId goalId heuristicType).2 = Returned result ∧
    walk graph startId goalId (res_path result) traversed ∧
    res_pathLength result = length (res_path result) ∧
    res_pathCost result = totalWeight traversed.
Proof.
  intros Hclosed HnonNeg Hs Hg Hreach. unfold astar.
  apply findNode_hasNode in Hs as [startNode Hs].
  apply findNode_hasNode in Hg as [goalNode Hg]. rewrite Hs, Hg.
  set (kind := default "euclidean" heuristicType).
  assert (∀ nodeId, is_Some (({[startId := 0%Z]} : gmap string Z) !! nodeId) →
                    nodeId = startId) as Hcosts.
  { intros nodeId [? [-> _]%lookup_singleton_Some]. done. }
  destruct (search_run_closed shiftSortedByPriority (relaxAstar graph goalNode kind)
              graph startId goalId (calculateHeuristic startNode goalNode kind)
              {[startId := 0%Z]}
              shiftSortedByPriority_laws (relaxAstar_laws graph goalNode kind) Hcosts
              (λ st, Routed graph startId st ∧ AstarBooks graph goalNode kind st))
    as (log & st & Hbook & _ & Hexp & [Hrouted Hbooks] & Hend); [done| | |].
  - intros st emitted st' _ _ HJ Hpass. by eapply astar_pass.
  - split; [apply routed_start|by apply astar_start].
  - destruct Hend as [[Hempty _]|(item & rest & Hdq & Hgoal & Hrun)].
    + destruct (book_goal _ _ _ _ Hbook). by eapply explored_exhausted.
    + destruct (Hrouted item) as (traversed & Hwalk & Hcost).
      { rewrite (dequeued_elem _ shiftSortedByPriority_laws _ _ _ _ Hdq). by left. }
      exists (goalResult st item), traversed. rewrite Hrun.
      rewrite Hgoal in Hwalk. done.
Qed.

(** With a consistent estimate [astar] returns a least-cost path. *)
Lemma astar_least_cost graph startId goalId heuristicType goalNode :
  edgesClosed graph → nonNegative graph →
  hasNode graph startId → findNode graph goalId = Some goalNode →
  consistent graph (estimate graph goalNode (default "euclidean" heuristicType)) →
  reachable graph startId goalId →
  returnsLeastCost graph startId goalId (astar graph startId goalId heuristicType).
Proof.
  intros Hclosed HnonNeg Hstart Hg Hcons Hreach. unfold astar.
  pose proof Hstart as [startNode Hs]%findNode_hasNode. rewrite Hs, Hg.
  set (kind := default "euclidean" heuristicType) in *.
  assert (∀ nodeId, is_Some (({[startId := 0%Z]} : gmap string Z) !! nodeId) →
                    nodeId = startId) as Hcosts.
  { intros nodeId [? [-> _]%lookup_singleton_Some]. done. }
  destruct (search_run_closed shiftSortedByPriority (relaxAstar graph goalNode kind)
              graph startId goalId (calculateHeuristic startNode goalNode kind)
              {[startId := 0%Z]}
              shiftSortedByPriority_laws (relaxAstar_laws graph goalNode kind) Hcosts
              (λ st, Routed graph startId st ∧ AstarBooks graph goalNode kind st ∧
                     CostBooks graph startId (hasNode graph) st))
    as (log & st & Hbook & _ & Hexp & (Hrouted & HbooksA & HbooksC) & Hend);
    [done| | |].
  - intros st emitted st' _ _ HJ Hpass. by eapply astar_books_pass.
  - split_and!; [apply routed_start|by apply astar_start|apply astar_cost_start].
  - destruct Hend as [[Hempty _]|(item & rest & Hdq & Hgoal & Hrun)].
    + destruct (book_goal _ _ _ _ Hbook). by eapply explored_exhausted.
    + destruct (Hrouted item) as (traversed & Hwalk & Hcost).
      { rewrite (dequeued_elem _ shiftSortedByPriority_laws _ _ _ _ Hdq). by left. }
      exists (goalResult st item). rewrite Hrun. split; [done|].
      exists traversed. rewrite Hgoal in Hwalk. split_and!; [done..|]. simpl.
      intros path traversed' Hother. rewrite <- Hgoal in Hother.
      eapply (astar_dequeued_least graph goalNode kind startId); [done..| |done].
      rewrite Hgoal. apply (book_goal _ _ _ _ Hbook).
Qed.

(** The frontier of [astar] is ordered by the roots themselves.  On [skew],
    once S is dequeued, X waits with priority 1 + sqrt 5 and the goal with
    priority 3: the goal is dequeued first and [astar] returns the direct
    edge, of cost 3, where [dijkstra] returns the path through X, of cost 2. *)
Lemma astar_orders_by_root :
  num_leb (mkNum 3 0) (mkNum 1 5) = true ∧
  num_leb (mkNum 1 5) (mkNum 3 0) = false ∧
  (astar skew "S" "G" None).2 = Returned (mkResult ["S"; "G"] ["sg"] 2 3 1) ∧
  (dijkstra skew "S" "G").2 =
    Returned (mkResult ["S"; "X"; "G"] ["sx"; "xg"] 3 2 2).
Proof. split_and!; by vm_compute. Qed.

(** C1 (as stated, refuted).  On the graph [detour] (non-negative weights,
    goal reachable) [dijkstra] returns cost 2 along S, F, G while [astar],
    with the default heuristic, returns cost 10 along S, G: the estimate
    99 at the far node F overestimates the remaining cost 1, so the goal is
    dequeued first.  The costs differ and the cost of [astar] is not least. *)
Lemma astar_pathCost_not_least :
  nonNegative detour ∧ reachable detour "S" "G" ∧
  (dijkstra detour "S" "G").2 = Returned (mkResult ["S"; "F"; "G"] ["sf"; "fg"] 3 2 2) ∧
  (astar detour "S" "G" None).2 = Returned (mkResult ["S"; "G"] ["sg"] 2 10 1) ∧
  ¬ returnsLeastCost detour "S" "G" (astar detour "S" "G" None).
Proof.
  assert (walk detour "S" "G" (["S"] ++ ["F"] ++ ["G"])
               ([] ++ [mkEdge "sf" "S" "F" 1 EdgeDefault]
                   ++ [mkEdge "fg" "F" "G" 1 EdgeDefault])) as Hwalk.
  { rewrite !(assoc_L (++)).
    eapply walk_step; [eapply walk_step; [apply walk_start|..]|..];
      first [by left|vm_compute; repeat constructor]. }
  split_and!.
  - intros edge Hedge. vm_compute in Hedge.
    repeat (apply elem_of_cons in Hedge as [->|Hedge]; [done|]).
    by apply elem_of_nil in Hedge.
  - eexists _, _. exact Hwalk.
  - by vm_compute.
  - by vm_compute.
  - intros (result & Hrun & traversed & _ & _ & _ & Hleast).
    vm_compute in Hrun. injection Hrun as <-.
    specialize (Hleast _ _ Hwalk). vm_compute in Hleast. by apply Hleast.
Qed.

(** C1 (amended).  For every graph with non-negative edge weights and every
    start and goal with the goal reachable from the start, the [pathCost]
    [dijkstra] returns is the least total weight of any traversable path from
    the start to the goal (and [dijkstra] does return when the edges join
    nodes of the graph).  On such a graph [astar], the start and the goal
    being nodes, returns a traversable path with the total weight of its
    edges as [pathCost], so at least the [pathCost] of [dijkstra]; the two are
    equal when the heuristic estimate is consistent, that is, never drops by
    more than the weight along a traversable edge.  On the sample graph
    [dijkstra] from node 0 to node 5 returns path [0, 3, 5], cost 10 and
    length 3. *)
Theorem dijkstra_astar_pathCost graph startId goalId :
  nonNegative graph → reachable graph startId goalId →
  (∀ result,
     (dijkstra graph startId goalId).2 = Returned result →
     leastCost graph startId goalId result) ∧
  (edgesClosed graph →
   (∃ result, (dijkstra graph startId goalId).2 = Returned result) ∧
   (hasNode graph startId → hasNode graph goalId → ∀ heuristicType,
      ∃ resultD resultA traversed,
        (dijkstra graph startId goalId).2 = Returned resultD ∧
        (astar graph startId goalId heuristicType).2 = Returned resultA ∧
        walk graph startId goalId (res_path resultA) traversed ∧
        res_pathCost resultA = totalWeight traversed ∧
        (res_pathCost resultD ≤ res_pathCost resultA)%Z ∧
        ∀ goalNode,
          findNode graph goalId = Some goalNode →
          consistent graph
            (estimate graph goalNode (default "euclidean" heuristicType)) →
          res_pathCost resultA = res_pathCost resultD)) ∧
  ∃ result,
    (dijkstra generateSampleGraph "0" "5").2 = Returned result ∧
    res_path result = ["0"; "3"; "5"] ∧ res_pathCost result = 10%Z ∧
    res_pathLength result = 3.
Proof.
  intros HnonNeg Hreach.
  destruct (dijkstra_least_cost _ _ _ HnonNeg Hreach) as [HleastD HreturnsD].
  split_and!; [done| |].
  - intros Hclosed. destruct (HreturnsD Hclosed) as [resultD HrunD].
    split; [eauto|]. intros Hs Hg heuristicType.
    destruct (HleastD _ HrunD) as (traversedD & HwalkD & _ & HcostD & HminD).
    destruct (astar_returns_path _ _ _ heuristicType Hclosed HnonNeg Hs Hg Hreach)
      as (resultA & traversedA & HrunA & HwalkA & _ & HcostA).
    exists resultD, resultA, traversedA. split_and!; [done..| |].
    + rewrite HcostA. by eapply HminD.
    + intros goalNode Hfind Hcons.
      destruct (astar_least_cost _ _ _ heuristicType goalNode
                  Hclosed HnonNeg Hs Hfind Hcons Hreach)
        as (resultA' & HrunA' & _ & _ & _ & _ & HminA).
      rewrite HrunA in HrunA'. injection HrunA' as <-.
      pose proof (HminA _ _ HwalkD). pose proof (HminD _ _ HwalkA). lia.
  - eexists. split; [by vm_compute|]. done.
Qed.

Lemma dijkstra_astar_pathCost_witness :
  nonNegative detour ∧ reachable detour "S" "G" ∧
  ∀ result,
    (dijkstra detour "S" "G").2 = Returned result →
    leastCost detour "S" "G" result.
Proof.
  assert (nonNegative detour) as HnonNeg.
  { intros edge Hedge. vm_compute in Hedge.
    repeat (apply elem_of_cons in Hedge as [->|Hedge]; [done|]).
    by apply elem_of_nil in Hedge. }
  assert (reachable detour "S" "G") as Hreach.
  { exists (["S"] ++ ["G"]), ([] ++ [mkEdge "sg" "S" "G" 10 EdgeDefault]).
    eapply walk_step; [apply walk_start|vm_compute; repeat constructor|by left]. }
  split_and!; [exact HnonNeg|exact Hreach|].
  exact (proj1 (dijkstra_astar_pathCost detour "S" "G" HnonNeg Hreach)).
Defined.

(** * Further properties of the search procedures *)

(** ** The loop rule with the step log *)

Lemma search_run_logged dequeue relax graph startId goalId priority costSoFar
    (I : list AlgorithmStepResult → SearchState → Prop) :
  DequeueLaws dequeue → RelaxLaws graph relax →
  (∀ log st emitted st',
     Bookkeeping graph startId goalId st → Logged goalId log st → I log st →
     pass dequeue relax graph goalId st = Continue emitted st' →
     I (log ++ emitted) st') →
  I [] (initialState startId priority costSoFar) →
  ∃ log st emitted outcome,
    Bookkeeping graph startId goalId st ∧ Logged goalId log st ∧ I log st ∧
    pass dequeue relax graph goalId st = Stop emitted outcome ∧
    search dequeue relax graph goalId (budget graph)
           (initialState startId priority costSoFar) = (log ++ emitted, outcome).
Proof.
  intros dql rxl Hstep Hstart.
  pose proof (search_terminates dequeue relax graph startId goalId priority
                costSoFar dql rxl) as Hterm.
  destruct (search dequeue relax graph goalId (budget graph)
              (initialState startId priority costSoFar)) as [trace outcome] eqn:Hrun.
  destruct (search_inv dequeue relax graph goalId
              (λ log st, Bookkeeping graph startId goalId st ∧
                         Logged goalId log st ∧ I log st))
    with (fuel := budget graph) (log := @nil AlgorithmStepResult)
         (st := initialState startId priority costSoFar)
         (trace := trace) (outcome := outcome)
    as (log & st & emitted & (Hbook & Hlog & HI) & Hstop & Heq).
  - intros log st emitted st' (Hbook & Hlog & HI) Hpass.
    split_and!; eauto using bookkeeping_pass, logged_pass.
  - split_and!; [apply bookkeeping_start|apply logged_start|done].
  - done.
  - done.
  - simpl in Heq. subst trace. eauto 10.
Qed.

(** A property of the waiting items that survives the settling of further
    nodes, and that the extension of an item by a neighbour inherits, holds
    of the frontier after each pass. *)
Lemma frontier_pass dequeue relax graph goalId
    (Q : list string → QueueItem → Prop) st emitted st' :
  DequeueLaws dequeue → RelaxLaws graph relax →
  (∀ visited nodeId item, Q visited item → Q (visited ++ [nodeId]) item) →
  (∀ visited item neighbors neighbor cost priority,
     Q visited item → qi_nodeId item ∉ visited →
     getNeighbors graph (qi_nodeId item) = Some neighbors → neighbor ∈ neighbors →
     Q (visited ++ [qi_nodeId item]) (extend graph item neighbor.1 cost priority)) →
  (∀ item, item ∈ st_frontier st → Q (st_visited st) item) →
  pass dequeue relax graph goalId st = Continue emitted st' →
  ∀ item, item ∈ st_frontier st' → Q (st_visited st') item.
Proof.
  intros dql rxl Hmono Hextend Hfrontier
    (item & rest & Hdq & Hne & [(Hin & -> & ->)|(Hnotin & neighbors & Hn & -> & ->)])%pass_Continue.
  - simpl. intros other ?. apply Hfrontier.
    rewrite (dequeued_elem _ dql _ _ _ _ Hdq). by right.
  - rewrite (relaxing_visited _ _ rxl).
    destruct (relaxing_frontier _ _ rxl item neighbors
                (mkState rest (st_visited st ++ [qi_nodeId item]) (st_cameFrom st)
                         (st_costSoFar st) (S (st_nodesVisited st))))
      as (pushed & -> & _ & Hpushed).
    simpl. intros other [?|Hnew]%elem_of_app.
    + apply Hmono, Hfrontier. rewrite (dequeued_elem _ dql _ _ _ _ Hdq). by right.
    + pose proof (proj1 (Forall_forall _ _) Hpushed _ Hnew)
        as (neighbor & cost & priority & ? & ->).
      eapply Hextend; [|done..].
      apply Hfrontier. rewrite (dequeued_elem _ dql _ _ _ _ Hdq). by left.
Qed.

(** ** The edges of a path, hop by hop *)

Lemma hopEdges_snoc graph path nodeId nextId :
  last path = Some nodeId →
  hopEdges graph (path ++ [nextId]) =
  hopEdges graph path ++
    match findEdge graph nodeId nextId with
    | Some edge => [edge_id edge]
    | None => []
    end.
Proof.
  induction path as [|first path IH]; [done|].
  destruct path as [|second path].
  - intros [= ->]. simpl. by destruct (findEdge graph nodeId nextId).
  - intros Hlast. specialize (IH Hlast).
    change (hopEdges graph ((first :: second :: path) ++ [nextId]))
      with (match findEdge graph first second with
            | Some edge => edge_id edge :: hopEdges graph ((second :: path) ++ [nextId])
            | None => hopEdges graph ((second :: path) ++ [nextId])
            end).
    change (hopEdges graph (first :: second :: path))
      with (match findEdge graph first second with
            | Some edge => edge_id edge :: hopEdges graph (second :: path)
            | None => hopEdges graph (second :: path)
            end).
    rewrite IH. by destruct (findEdge graph first second).
Qed.

Lemma findEdge_connects graph nodeId nextId edge :
  edge ∈ edges graph → connects nodeId nextId edge →
  ∃ found, findEdge graph nodeId nextId = Some found ∧ found ∈ edges graph ∧
           connects nodeId nextId found.
Proof.
  intros Hedge Hc. unfold findEdge.
  destruct (List.find _ _) as [found|] eqn:Hfind.
  - apply find_first in Hfind as (before & after & Heq & Hfound & _).
    exists found. split_and!; [done| |by apply bool_decide_eq_true in Hfound].
    rewrite Heq, elem_of_app. right. left.
  - exfalso. pose proof (proj1 (find_nothing _ _) Hfind edge Hedge) as Hno.
    by apply bool_decide_eq_false in Hno.
Qed.

(** Every id [hopEdges] reports is the id of an edge of the graph. *)
Lemma hopEdges_ids graph path :
  Forall (λ edgeId, ∃ edge, edge ∈ edges graph ∧ edge_id edge = edgeId)
         (hopEdges graph path).
Proof.
  induction path as [|first path IH]; [constructor|].
  destruct path as [|second path]; [constructor|].
  change (hopEdges graph (first :: second :: path))
    with (match findEdge graph first second with
          | Some edge => edge_id edge :: hopEdges graph (second :: path)
          | None => hopEdges graph (second :: path)
          end).
  destruct (findEdge graph first second) as [found|] eqn:Hfind; [|done].
  constructor; [|done]. exists found. split; [|done].
  apply find_first in Hfind as (before & after & Heq & _ & _).
  rewrite Heq, elem_of_app. right. left.
Qed.

(** ** What the waiting items carry *)

Lemma carried_start graph startId priority costSoFar :
  Carried graph startId (initialState startId priority costSoFar).
Proof.
  intros item ->%list_elem_of_singleton. split.
  - split_and!; [|done..]. exists []. constructor.
  - exists []. split_and!; [done|constructor|by intros ? ?%elem_of_nil].
Qed.

Lemma carried_pass dequeue relax graph startId goalId st emitted st' :
  DequeueLaws dequeue → RelaxLaws graph relax →
  Carried graph startId st →
  pass dequeue relax graph goalId st = Continue emitted st' →
  Carried graph startId st'.
Proof.
  intros dql rxl Hcarried Hpass. unfold Carried in *.
  apply (frontier_pass dequeue relax graph goalId
           (λ visited item, tracedItem graph startId item ∧ simpleItem visited item)
           st emitted st' dql rxl); [| |done..].
  - intros visited nodeId item [Htraced (before & Hpath & Hnodup & Hsettled)].
    split; [done|]. exists before. split_and!; [done..|].
    intros other ?. apply elem_of_app. left. auto.
  - intros visited item neighbors [neighborId weight] cost priority
      [((traversed & Hwalk) & Hedges & Hlen) (before & Hpath & Hnodup & Hsettled)]
      Hnew Hn Hin.
    apply (elem_of_getNeighbors _ _ _ _ _ Hn) in Hin as (edge & Hedge & Hc & _).
    destruct (findEdge_connects _ _ _ _ Hedge Hc) as (found & Hfind & _ & _).
    pose proof (walk_ends _ _ _ _ _ Hwalk) as [_ Hlast].
    split.
    + split_and!.
      * exists (traversed ++ [edge]). by econstructor.
      * simpl. rewrite (hopEdges_snoc _ _ _ _ Hlast), Hfind. by rewrite Hedges.
      * simpl. rewrite Hfind, !length_app. simpl. lia.
    + exists (qi_path item). split_and!; [done| |].
      * rewrite Hpath. apply NoDup_app. split_and!; [done| |apply NoDup_singleton].
        intros other Hother ->%list_elem_of_singleton. auto.
      * rewrite Hpath. intros other [?| ->%list_elem_of_singleton]%elem_of_app;
          apply elem_of_app; [left; auto|right; left].
Qed.

Lemma simpleItem_NoDup visited item :
  simpleItem visited item → qi_nodeId item ∉ visited → NoDup (qi_path item).
Proof.
  intros (before & -> & Hnodup & Hsettled) Hnew.
  apply NoDup_app. split_and!; [done| |apply NoDup_singleton].
  intros other Hother ->%list_elem_of_singleton. auto.
Qed.

(** X1.  On a graph whose edges join nodes of the graph and which contains
    the start and the goal, every algorithm finds a goal that is reachable:
    it returns a traversable path from the start to the goal, and the last
    call to [onStep] is the final step at the goal with that path. *)
Theorem goal_found graph startId goalId :
  edgesClosed graph → hasNode graph startId → hasNode graph goalId →
  reachable graph startId goalId →
  everyAlgorithm graph startId goalId
    (λ run, ∃ result traversed log final,
       run = (log ++ [final], Returned result) ∧
       walk graph startId goalId (res_path result) traversed ∧
       step_currentNodeId final = Some goalId ∧
       step_path final = res_path result ∧
       step_pathEdges final = res_pathEdges result ∧
       step_isComplete final = true).
Proof.
  intros Hclosed Hs Hg Hreach.
  apply everyAlgorithm_searches; [|by intros []].
  intros dequeue relax priority costSoFar dql rxl Hcosts.
  destruct (search_run_closed dequeue relax graph startId goalId priority costSoFar
              dql rxl Hcosts (Carried graph startId))
    as (log & st & Hbook & _ & Hexp & Hcarried & Hend); [done| |..].
  - intros st emitted st' _ _ Hcarried Hpass. by eapply carried_pass.
  - apply carried_start.
  - destruct Hend as [[Hempty _]|(item & rest & Hdq & Hgoal & ->)].
    + destruct (book_goal _ _ _ _ Hbook).
      by apply (explored_exhausted _ _ _ _ Hexp Hempty).
    + destruct (Hcarried item) as [((traversed & Hwalk) & _) _].
      { rewrite (dequeued_elem _ dql _ _ _ _ Hdq). by left. }
      rewrite Hgoal in Hwalk.
      exists (goalResult st item), traversed, log, (goalStep st item rest).
      simpl. by rewrite Hgoal.
Qed.

Lemma goal_found_witness :
  edgesClosed generateSampleGraph ∧ hasNode generateSampleGraph "0" ∧
  hasNode generateSampleGraph "5" ∧ reachable generateSampleGraph "0" "5" ∧
  everyAlgorithm generateSampleGraph "0" "5"
    (λ run, ∃ result traversed log final,
       run = (log ++ [final], Returned result) ∧
       walk generateSampleGraph "0" "5" (res_path result) traversed ∧
       step_currentNodeId final = Some "5" ∧
       step_path final = res_path result ∧
       step_pathEdges final = res_pathEdges result ∧
       step_isComplete final = true).
Proof.
  assert (edgesClosed generateSampleGraph) as Hclosed.
  { intros edge Hedge. vm_compute in Hedge. unfold hasNode.
    repeat (apply elem_of_cons in Hedge as [->|Hedge];
            [vm_compute; split; repeat constructor|]).
    by apply elem_of_nil in Hedge. }
  assert (hasNode generateSampleGraph "0") as Hs by (vm_compute; repeat constructor).
  assert (hasNode generateSampleGraph "5") as Hg by (vm_compute; repeat constructor).
  assert (reachable generateSampleGraph "0" "5") as Hreach.
  { exists (["0"] ++ ["3"] ++ ["5"]),
           ([] ++ [mkEdge "e03" "0" "3" 4 EdgeDefault]
               ++ [mkEdge "e35" "3" "5" 6 EdgeDefault]).
    rewrite !(assoc_L (++)).
    eapply walk_step; [eapply walk_step; [apply walk_start|..]|..];
      first [by left|vm_compute; repeat constructor]. }
  split_and!; [exact Hclosed|exact Hs|exact Hg|exact Hreach|].
  exact (goal_found generateSampleGraph "0" "5" Hclosed Hs Hg Hreach).
Defined.

(** X2.  For every algorithm and every graph, the path edges of a returned
    result are the ids [findEdge] reports for the hops of the returned
    path, in order from the start: one id per hop, each the id of an edge of
    the graph.  So "Path Length" as displayed ([path.length - 1]) is the
    number of path edges, and 'No path found' is shown exactly for the empty
    path. *)
Theorem pathEdges_hop_by_hop graph startId goalId :
  everyAlgorithm graph startId goalId
    (λ run, ∀ result, run.2 = Returned result →
       res_pathEdges result = hopEdges graph (res_path result) ∧
       Forall (λ edgeId, ∃ edge, edge ∈ edges graph ∧ edge_id edge = edgeId)
              (res_pathEdges result) ∧
       shownPathLength result =
         (if decide (res_path result = []) then None
          else Some (length (res_pathEdges result)))).
Proof.
  apply everyAlgorithm_searches.
  - intros dequeue relax priority costSoFar dql rxl _.
    destruct (search_run dequeue relax graph startId goalId priority costSoFar
                dql rxl (Carried graph startId))
      as (log & st & emitted & outcome & _ & _ & Hcarried & Hstop & ->).
    + intros st emitted st' _ Hcarried Hpass. by eapply carried_pass.
    + apply carried_start.
    + simpl. apply pass_Stop in Hstop
        as [(_ & _ & ->)|[(item & rest & Hdq & _ & _ & ->)|(item & rest & _ & _ & _ & _ & _ & ->)]];
        intros result [= <-].
      * simpl. split_and!; [done|constructor|done].
      * destruct (Hcarried item) as [(_ & Hedges & Hlen) _].
        { rewrite (dequeued_elem _ dql _ _ _ _ Hdq). by left. }
        simpl. split_and!; [done| |].
        -- rewrite Hedges. apply hopEdges_ids.
        -- unfold shownPathLength. simpl.
           destruct (qi_path item) as [|first path]; [done|].
           rewrite decide_False by done. simpl in *. f_equal. lia.
  - intros _ result [= <-]. simpl. split_and!; [done|constructor|done].
Qed.

(** The steps record simple paths through settled nodes. *)
Lemma simple_steps dequeue relax graph startId goalId priority costSoFar :
  DequeueLaws dequeue → RelaxLaws graph relax →
  let run := search dequeue relax graph goalId (budget graph)
                    (initialState startId priority costSoFar) in
  Forall (λ step, NoDup (step_path step) ∧
                  ∀ nodeId, nodeId ∈ step_path step →
                            nodeId = goalId ∨ nodeId ∈ step_visited step) run.1 ∧
  ∀ result, run.2 = Returned result → NoDup (res_path result).
Proof.
  intros dql rxl run. subst run.
  set (good := λ step, NoDup (step_path step) ∧
                       ∀ nodeId, nodeId ∈ step_path step →
                                 nodeId = goalId ∨ nodeId ∈ step_visited step).
  destruct (search_run_logged dequeue relax graph startId goalId priority costSoFar
              (λ log st, Carried graph startId st ∧ Forall good log) dql rxl)
    as (log & st & emitted & outcome & Hbook & _ & [Hcarried Hlog] & Hstop & ->).
  - intros log st emitted st' _ _ [Hcarried Hlog] Hpass.
    split; [by eapply carried_pass|].
    apply pass_Continue in Hpass
      as (item & rest & Hdq & Hne & [(Hin & -> & _)|(Hnotin & neighbors & Hn & -> & _)]).
    + by rewrite app_nil_r.
    + apply Forall_app. split; [done|]. constructor; [|done].
      destruct (Hcarried item) as [_ Hsimple].
      { rewrite (dequeued_elem _ dql _ _ _ _ Hdq). by left. }
      split; simpl; [by eapply simpleItem_NoDup|].
      destruct Hsimple as (before & -> & _ & Hsettled).
      intros nodeId [?| ->%list_elem_of_singleton]%elem_of_app;
        right; apply elem_of_app; [left; auto|right; left].
  - split; [apply carried_start|constructor].
  - simpl. apply pass_Stop in Hstop
      as [(_ & -> & ->)|[(item & rest & Hdq & Hgoal & -> & ->)|(item & rest & Hdq & _ & Hnew & _ & -> & ->)]].
    + split; [|intros result [= <-]; constructor].
      apply Forall_app. split; [done|]. constructor; [|done].
      split; simpl; [constructor|by intros ? ?%elem_of_nil].
    + destruct (Hcarried item) as [_ Hsimple].
      { rewrite (dequeued_elem _ dql _ _ _ _ Hdq). by left. }
      assert (NoDup (qi_path item)) as Hnodup.
      { eapply simpleItem_NoDup; [done|]. rewrite Hgoal.
        apply (book_goal _ _ _ _ Hbook). }
      split; [|by intros result [= <-]].
      apply Forall_app. split; [done|]. constructor; [|done].
      split; simpl; [done|].
      destruct Hsimple as (before & -> & _ & Hsettled).
      intros nodeId [?| ->%list_elem_of_singleton]%elem_of_app; auto.
    + split; [|done].
      apply Forall_app. split; [done|]. constructor; [|done].
      destruct (Hcarried item) as [_ Hsimple].
      { rewrite (dequeued_elem _ dql _ _ _ _ Hdq). by left. }
      split; simpl; [by eapply simpleItem_NoDup|].
      destruct Hsimple as (before & -> & _ & Hsettled).
      intros nodeId [?| ->%list_elem_of_singleton]%elem_of_app;
        right; apply elem_of_app; [left; auto|right; left].
Qed.

(** X3.  For every algorithm and every graph, whatever the weights: no node
    occurs twice on the path of a step or on the returned path, and every
    node on the path of a step is the goal or is in the visited set the step
    shows. *)
Theorem paths_simple graph startId goalId :
  everyAlgorithm graph startId goalId
    (λ run,
       Forall (λ step, NoDup (step_path step) ∧
                       ∀ nodeId, nodeId ∈ step_path step →
                                 nodeId = goalId ∨ nodeId ∈ step_visited step) run.1 ∧
       ∀ result, run.2 = Returned result → NoDup (res_path result)).
Proof.
  apply everyAlgorithm_searches.
  - intros dequeue relax priority costSoFar dql rxl _.
    by apply simple_steps.
  - intros _. simpl. split; [constructor|]. intros result [= <-]. constructor.
Qed.

(** ** How many nodes are settled *)

Lemma candidates_nodes graph startId nodeId :
  edgesClosed graph → hasNode graph startId →
  nodeId ∈ candidates graph startId → hasNode graph nodeId.
Proof.
  intros Hclosed Hs [->|(edge & Hedge & Hin)%elem_of_flat_map]%elem_of_cons; [done|].
  destruct (Hclosed _ Hedge).
  rewrite !elem_of_cons, elem_of_nil in Hin. by destruct Hin as [->|[->|[]]].
Qed.

(** X4.  On a graph whose edges join nodes of the graph and which contains
    the start and the goal, every algorithm returns having settled fewer
    nodes than the graph has, after at most as many calls to [onStep] as the
    graph has nodes. *)
Theorem nodesVisited_bounded graph startId goalId :
  edgesClosed graph → hasNode graph startId → hasNode graph goalId →
  everyAlgorithm graph startId goalId
    (λ run, ∃ result,
       run.2 = Returned result ∧
       res_nodesVisited result < length (nodes graph) ∧
       length run.1 = S (res_nodesVisited result)).
Proof.
  intros Hclosed Hs Hg.
  apply everyAlgorithm_searches; [|by intros []].
  intros dequeue relax priority costSoFar dql rxl Hcosts.
  destruct (search_run_closed dequeue relax graph startId goalId priority costSoFar
              dql rxl Hcosts (λ _, True))
    as (log & st & Hbook & [Hlen _] & _ & _ & Hend); [done..|].
  destruct Hbook as [Hgoal Hnodup Hcount Hvisited _].
  assert (st_nodesVisited st < length (nodes graph)) as Hbound.
  { rewrite Hcount, <- (length_fmap node_id (nodes graph)).
    change (length (goalId :: st_visited st) ≤ length (node_id <$> nodes graph)).
    apply submseteq_length, NoDup_submseteq; [by constructor|].
    intros nodeId [->|?]%elem_of_cons; [done|].
    apply (candidates_nodes graph startId); auto. }
  destruct Hend as [[_ ->]|(item & rest & _ & _ & ->)]; simpl;
    (eexists; split_and!; [done|done|]); rewrite length_app; simpl; lia.
Qed.

Lemma nodesVisited_bounded_witness :
  edgesClosed generateSampleGraph ∧ hasNode generateSampleGraph "0" ∧
  hasNode generateSampleGraph "5" ∧
  everyAlgorithm generateSampleGraph "0" "5"
    (λ run, ∃ result,
       run.2 = Returned result ∧
       res_nodesVisited result < length (nodes generateSampleGraph) ∧
       length run.1 = S (res_nodesVisited result)).
Proof.
  assert (edgesClosed generateSampleGraph) as Hclosed.
  { intros edge Hedge. vm_compute in Hedge. unfold hasNode.
    repeat (apply elem_of_cons in Hedge as [->|Hedge];
            [vm_compute; split; repeat constructor|]).
    by apply elem_of_nil in Hedge. }
  assert (hasNode generateSampleGraph "0") as Hs by (vm_compute; repeat constructor).
  assert (hasNode generateSampleGraph "5") as Hg by (vm_compute; repeat constructor).
  split_and!; [exact Hclosed|exact Hs|exact Hg|].
  exact (nodesVisited_bounded generateSampleGraph "0" "5" Hclosed Hs Hg).
Defined.

(** ** The step log and the visited set *)

Lemma recorded_pass dequeue relax graph startId goalId log st emitted st' :
  RelaxLaws graph relax →
  Bookkeeping graph startId goalId st → Logged goalId log st →
  Recorded log st →
  pass dequeue relax graph goalId st = Continue emitted st' →
  Recorded (log ++ emitted) st'.
Proof.
  intros rxl Hbook [Hlen _] [Hcurrent Hvisited]
    (item & rest & Hdq & Hne & [(Hin & -> & ->)|(Hnotin & neighbors & Hn & -> & ->)])%pass_Continue.
  - by rewrite app_nil_r.
  - rewrite (book_count _ _ _ _ Hbook) in Hlen.
    split; rewrite (relaxing_visited _ _ rxl); simpl.
    + by rewrite !fmap_app, Hcurrent.
    + intros index step Hlookup.
      apply lookup_app_Some in Hlookup as [Hlookup|[Hge Hlookup]].
      * pose proof (lookup_lt_Some _ _ _ Hlookup).
        rewrite take_app_le by lia. auto.
      * apply list_lookup_singleton_Some in Hlookup as [Hindex <-]. simpl.
        rewrite take_ge; [done|]. rewrite length_app. simpl. lia.
Qed.

(** The shape of the step log of a run that returns. *)
Lemma recorded_run dequeue relax graph startId goalId priority costSoFar result :
  DequeueLaws dequeue → RelaxLaws graph relax →
  (search dequeue relax graph goalId (budget graph)
          (initialState startId priority costSoFar)).2 = Returned result →
  ∃ log final,
    (search dequeue relax graph goalId (budget graph)
            (initialState startId priority costSoFar)).1 = log ++ [final] ∧
    step_path final = res_path result ∧
    step_pathEdges final = res_pathEdges result ∧
    step_currentNodeId final =
      (if decide (res_path result = []) then None else Some goalId) ∧
    step_currentNodeId <$> log = Some <$> step_visited final ∧
    ∀ index step, log !! index = Some step →
      step_visited step = take (S index) (step_visited final).
Proof.
  intros dql rxl.
  destruct (search_run_logged dequeue relax graph startId goalId priority costSoFar
              (λ log st, Recorded log st ∧ Carried graph startId st) dql rxl)
    as (log & st & emitted & outcome & _ & _ & [[Hcurrent Hvisited] Hcarried] & Hstop & ->).
  - intros log st emitted st' Hbook Hlog [Hrec Hcarried] Hpass.
    split; [by eapply recorded_pass|by eapply carried_pass].
  - split; [|apply carried_start]. split; [done|].
    intros index step. by rewrite lookup_nil.
  - simpl. intros Hresult.
    apply pass_Stop in Hstop
      as [(_ & -> & ->)|[(item & rest & Hdq & Hgoal & -> & ->)|(item & rest & _ & _ & _ & _ & _ & ->)]];
      [| |done]; injection Hresult as <-; eexists log, _;
      (split; [done|]); simpl; split_and!; try done.
    destruct (Hcarried item) as [_ (before & Hpath & _)].
    { rewrite (dequeued_elem _ dql _ _ _ _ Hdq). by left. }
    rewrite Hgoal, decide_False; [done|]. rewrite Hpath. by destruct before.
Qed.

(** X5.  For every algorithm and every graph, the calls to [onStep] of a
    run that returns record the search node by node: the current nodes of
    the calls before the last are the visited set of the last call, in
    order; the call at index [i] shows the first [i + 1] of them as visited;
    and the last call carries the path and the path edges of the result,
    with the goal as current node when there is a path and none otherwise. *)
Theorem steps_record_visited graph startId goalId :
  everyAlgorithm graph startId goalId
    (λ run, ∀ result, run.2 = Returned result →
       run.1 = [] ∨
       ∃ log final,
         run.1 = log ++ [final] ∧
         step_path final = res_path result ∧
         step_pathEdges final = res_pathEdges result ∧
         step_currentNodeId final =
           (if decide (res_path result = []) then None else Some goalId) ∧
         step_currentNodeId <$> log = Some <$> step_visited final ∧
         ∀ index step, log !! index = Some step →
           step_visited step = take (S index) (step_visited final)).
Proof.
  apply everyAlgorithm_searches; [|by left].
  intros dequeue relax priority costSoFar dql rxl _ result Hresult. right.
  by eapply recorded_run.
Qed.

(** ** The path shown at each step *)

(** X6.  On a graph with non-negative weights, every call [dijkstra] makes
    to [onStep] with a current node shows a path that is a least-weight
    traversable path from the start to that node: nodes are settled with
    their final cost. *)
Theorem dijkstra_steps_least graph startId goalId :
  nonNegative graph →
  Forall (λ step, step_currentNodeId step = None ∨ leastStep graph startId step)
         (dijkstra graph startId goalId).1.
Proof.
  intros HnonNeg. unfold dijkstra.
  set (good := λ step, step_currentNodeId step = None ∨ leastStep graph startId step).
  assert (∀ st item rest,
            Bookkeeping graph startId goalId st →
            Routed graph startId st → CostBooks graph startId (λ _, True) st →
            shiftSorted qi_cost (st_frontier st) = Some (item, rest) →
            qi_nodeId item ∉ st_visited st →
            ∀ visited frontier complete,
              good (mkStep (Some (qi_nodeId item)) visited (qi_path item)
                           (qi_pathEdges item) frontier complete)) as Hdequeued.
  { intros st item rest Hbook Hrouted Hbooks Hdq Hnew visited frontier complete.
    right. destruct (Hrouted item) as (traversed & Hwalk & Hcost).
    { rewrite (dequeued_elem _ (shiftSorted_laws qi_cost) _ _ _ _ Hdq). by left. }
    exists (qi_nodeId item), traversed. split_and!; [done..|].
    intros path traversed' Hother. rewrite <- Hcost.
    by eapply dijkstra_dequeued_least. }
  destruct (search_run_logged (shiftSorted qi_cost) (relaxDijkstra graph) graph
              startId goalId (num_of_Z 0) {[startId := 0%Z]}
              (λ log st, Routed graph startId st ∧
                         CostBooks graph startId (λ _, True) st ∧ Forall good log)
              (shiftSorted_laws _) (relaxDijkstra_laws graph))
    as (log & st & emitted & outcome & Hbook & _ & (Hrouted & Hbooks & Hlog) & Hstop & ->).
  - intros log st emitted st' Hbook _ (Hrouted & Hbooks & Hlog) Hpass. split_and!.
    + eapply routed_pass; eauto using shiftSorted_laws, relaxDijkstra_carries.
    + by eapply dijkstra_books_pass.
    + apply pass_Continue in Hpass
        as (item & rest & Hdq & Hne & [(Hin & -> & _)|(Hnotin & neighbors & Hn & -> & _)]).
      * by rewrite app_nil_r.
      * apply Forall_app. split; [done|]. constructor; [|done]. by eapply Hdequeued.
  - split_and!; [apply routed_start|apply dijkstra_books_start|constructor].
  - simpl. apply Forall_app. split; [done|].
    apply pass_Stop in Hstop
      as [(_ & -> & _)|[(item & rest & Hdq & Hgoal & -> & _)|(item & rest & Hdq & _ & Hnew & _ & -> & _)]];
      (constructor; [|done]).
    + by left.
    + eapply Hdequeued; [done..|]. rewrite Hgoal. apply (book_goal _ _ _ _ Hbook).
    + by eapply Hdequeued.
Qed.

Lemma dijkstra_steps_least_witness :
  nonNegative detour ∧
  Forall (λ step, step_currentNodeId step = None ∨ leastStep detour "S" step)
         (dijkstra detour "S" "G").1.
Proof.
  assert (nonNegative detour) as HnonNeg.
  { intros edge Hedge. vm_compute in Hedge.
    repeat (apply elem_of_cons in Hedge as [->|Hedge]; [done|]).
    by apply elem_of_nil in Hedge. }
  split; [exact HnonNeg|].
  exact (dijkstra_steps_least detour "S" "G" HnonNeg).
Defined.

(** X7.  For every graph, whatever the weights, every call [bfs] makes to
    [onStep] with a current node shows a traversable path from the start to
    that node with the fewest nodes of any such path. *)
Theorem bfs_steps_fewest graph startId goalId :
  Forall (λ step, step_currentNodeId step = None ∨ fewestStep graph startId step)
         (bfs graph startId goalId).1.
Proof.
  unfold bfs.
  set (good := λ step, step_currentNodeId step = None ∨ fewestStep graph startId step).
  assert (∀ st item rest,
            Carried graph startId st → BfsLayers graph startId st →
            shift (st_frontier st) = Some (item, rest) →
            qi_nodeId item ∉ st_visited st →
            ∀ visited frontier complete,
              good (mkStep (Some (qi_nodeId item)) visited (qi_path item)
                           (qi_pathEdges item) frontier complete)) as Hdequeued.
  { intros st item rest Hcarried Hlayers Hdq Hnew visited frontier complete.
    right. destruct (Hcarried item) as [((traversed & Hwalk) & _) _].
    { rewrite (dequeued_elem _ shift_laws _ _ _ _ Hdq). by left. }
    exists (qi_nodeId item), traversed. split_and!; [done..|].
    intros path traversed' Hother. simpl.
    assert (st_frontier st = item :: rest) as Hfrontier.
    { unfold shift in Hdq. destruct (st_frontier st); by simplify_eq. }
    destruct (bfs_frontier_bound _ _ _ _ _ _ Hlayers Hother)
      as [?|(other & Hin & Hle)]; [done|].
    pose proof (bfs_first_least _ _ _ _ _ _ Hlayers Hfrontier Hin) as Hfirst.
    unfold hops in *. lia. }
  destruct (search_run_logged shift (relaxUnvisited graph) graph
              startId goalId (num_of_Z 0) ∅
              (λ log st, Carried graph startId st ∧
                         BfsLayers graph startId st ∧ Forall good log)
              shift_laws (relaxUnvisited_laws graph))
    as (log & st & emitted & outcome & Hbook & _ & (Hcarried & Hlayers & Hlog) & Hstop & ->).
  - intros log st emitted st' Hbook _ (Hcarried & Hlayers & Hlog) Hpass. split_and!.
    + eapply carried_pass; eauto using shift_laws, relaxUnvisited_laws.
    + by eapply bfs_layers_pass.
    + apply pass_Continue in Hpass
        as (item & rest & Hdq & Hne & [(Hin & -> & _)|(Hnotin & neighbors & Hn & -> & _)]).
      * by rewrite app_nil_r.
      * apply Forall_app. split; [done|]. constructor; [|done]. by eapply Hdequeued.
  - split_and!; [apply carried_start|apply bfs_layers_start|constructor].
  - simpl. apply Forall_app. split; [done|].
    apply pass_Stop in Hstop
      as [(_ & -> & _)|[(item & rest & Hdq & Hgoal & -> & _)|(item & rest & Hdq & _ & Hnew & _ & -> & _)]];
      (constructor; [|done]).
    + by left.
    + eapply Hdequeued; [done..|]. rewrite Hgoal. apply (book_goal _ _ _ _ Hbook).
    + by eapply Hdequeued.
Qed.

(** ** What the searches do not read *)

Lemma fold_left_ext {A B} (f g : A → B → A) (l : list B) (a : A) :
  (∀ a' b, f a' b = g a' b) → fold_left f l a = fold_left g l a.
Proof.
  intros Hext. revert a. induction l as [|b l IH]; simpl; [done|].
  intros a. by rewrite Hext, IH.
Qed.

Lemma search_ext dequeue relax relax' graph graph' goalId fuel st :
  (∀ nodeId, getNeighbors graph nodeId = getNeighbors graph' nodeId) →
  (∀ item st' neighbor, relax item st' neighbor = relax' item st' neighbor) →
  search dequeue relax graph goalId fuel st =
  search dequeue relax' graph' goalId fuel st.
Proof.
  intros Hneighbors Hrelax. revert st. induction fuel as [|fuel IH]; [done|].
  intros st. simpl.
  assert (pass dequeue relax graph goalId st = pass dequeue relax' graph' goalId st)
    as ->.
  { unfold pass. destruct (dequeue (st_frontier st)) as [[item rest]|]; [|done].
    repeat case_decide; [done..|]. rewrite <- Hneighbors.
    destruct (getNeighbors graph (qi_nodeId item)); [|done].
    f_equal. apply fold_left_ext. intros. apply Hrelax. }
  destruct (pass dequeue relax' graph' goalId st); [done|]. by rewrite IH.
Qed.

Lemma getNeighbors_sameLayout graph graph' nodeId :
  sameLayout graph graph' → getNeighbors graph nodeId = getNeighbors graph' nodeId.
Proof.
  intros [Hids Hedges]. unfold getNeighbors. rewrite <- Hedges.
  assert (hasNode graph nodeId ↔ hasNode graph' nodeId) as Hnode.
  { unfold hasNode. by rewrite Hids. }
  repeat case_decide; tauto.
Qed.

Lemma extend_sameLayout graph graph' item neighborId cost priority :
  sameLayout graph graph' →
  extend graph item neighborId cost priority =
  extend graph' item neighborId cost priority.
Proof. intros [_ Hedges]. unfold extend, findEdge. by rewrite Hedges. Qed.

Lemma moveNode_sameLayout graph nodeId x y :
  sameLayout graph (moveNode graph nodeId x y).
Proof.
  split; [|done]. simpl. rewrite <- list_fmap_compose.
  apply list_fmap_ext. intros index node _. simpl. by case_decide.
Qed.

(** X8.  [bfs], [dfs] and [dijkstra] never read the coordinates of a node:
    moving a node leaves the steps and the outcome of each of them
    unchanged, for every graph, start and goal. *)
Theorem moveNode_keeps_runs graph nodeId x y startId goalId :
  bfs (moveNode graph nodeId x y) startId goalId = bfs graph startId goalId ∧
  dfs (moveNode graph nodeId x y) startId goalId = dfs graph startId goalId ∧
  dijkstra (moveNode graph nodeId x y) startId goalId =
    dijkstra graph startId goalId.
Proof.
  pose proof (moveNode_sameLayout graph nodeId x y) as Hsame.
  assert (budget (moveNode graph nodeId x y) = budget graph) as Hbudget by done.
  unfold bfs, dfs, dijkstra. rewrite Hbudget.
  split_and!; symmetry; apply search_ext;
    try (intros; by apply getNeighbors_sameLayout).
  - intros item st [neighborId weight]. unfold relaxUnvisited.
    by rewrite (extend_sameLayout _ _ _ _ _ _ Hsame).
  - intros item st [neighborId weight]. unfold relaxUnvisited.
    by rewrite (extend_sameLayout _ _ _ _ _ _ Hsame).
  - intros item st [neighborId weight]. unfold relaxDijkstra.
    by rewrite (extend_sameLayout _ _ _ _ _ _ Hsame).
Qed.

(** *** Weights *)

Lemma sameShape_edges graph graph' :
  sameShape graph graph' →
  Forall2 (λ edge edge', unweighted edge = unweighted edge')
          (edges graph) (edges graph').
Proof. intros [_ Hedges]. by apply Forall2_fmap, list_eq_Forall2. Qed.

Lemma neighborEntries_unweighted nodeId edge edge' :
  unweighted edge = unweighted edge' →
  (neighborEntries nodeId edge).*1 = (neighborEntries nodeId edge').*1.
Proof.
  unfold unweighted, neighborEntries. intros [= _ -> -> ->].
  rewrite !fmap_app. by repeat case_decide.
Qed.

Lemma getNeighbors_sameShape graph graph' nodeId :
  sameShape graph graph' →
  match getNeighbors graph nodeId, getNeighbors graph' nodeId with
  | Some neighbors, Some neighbors' => neighbors.*1 = neighbors'.*1
  | None, None => True
  | _, _ => False
  end.
Proof.
  intros Hsame.
  assert ((flat_map (neighborEntries nodeId) (edges graph)).*1 =
          (flat_map (neighborEntries nodeId) (edges graph')).*1) as Hpushed.
  { induction (sameShape_edges _ _ Hsame) as [|edge edge' ? ? Hedge _ IH];
      simpl; [done|].
    by rewrite !fmap_app, IH, (neighborEntries_unweighted _ _ _ Hedge). }
  assert (hasNode graph nodeId ↔ hasNode graph' nodeId) as Hnode.
  { unfold hasNode. destruct Hsame as [-> _]. done. }
  unfold getNeighbors.
  destruct (flat_map _ (edges graph)), (flat_map _ (edges graph'));
    repeat case_decide; try done; tauto.
Qed.

Lemma findEdge_sameShape graph graph' sourceId targetId :
  sameShape graph graph' →
  edge_id <$> findEdge graph sourceId targetId =
  edge_id <$> findEdge graph' sourceId targetId.
Proof.
  intros Hsame. unfold findEdge.
  induction (sameShape_edges _ _ Hsame) as [|edge edge' ? ? Hedge _ IH];
    simpl; [done|].
  assert (connects sourceId targetId edge ↔ connects sourceId targetId edge')
    as Hconnects.
  { unfold unweighted in Hedge. injection Hedge as _ Hs Ht Hty.
    unfold connects. by rewrite Hs, Ht, Hty. }
  assert (edge_id edge = edge_id edge') as Hid.
  { unfold unweighted in Hedge. by injection Hedge. }
  rewrite (bool_decide_ext _ _ Hconnects).
  destruct (bool_decide (connects sourceId targetId edge')); simpl; [|done].
  by rewrite Hid.
Qed.

Lemma extend_sameShape graph graph' item item' neighborId cost cost' priority :
  sameShape graph graph' → uncosted item = uncosted item' →
  uncosted (extend graph item neighborId cost priority) =
  uncosted (extend graph' item' neighborId cost' priority).
Proof.
  intros Hsame Hitem. unfold uncosted in Hitem.
  injection Hitem as Hnode Hpath Hedges _.
  pose proof (findEdge_sameShape _ _ (qi_nodeId item) neighborId Hsame) as Hfind.
  unfold extend, uncosted. simpl. rewrite <- Hnode, <- Hpath, <- Hedges.
  destruct (findEdge graph (qi_nodeId item) neighborId) as [found|],
           (findEdge graph' (qi_nodeId item) neighborId) as [found'|];
    simpl in Hfind; try done.
  injection Hfind as Hid. by rewrite Hid.
Qed.

Lemma uncosted_nodeIds (frontier frontier' : list QueueItem) :
  uncosted <$> frontier = uncosted <$> frontier' →
  qi_nodeId <$> frontier = qi_nodeId <$> frontier'.
Proof.
  intros Heq. apply (f_equal (fmap qi_nodeId)) in Heq.
  rewrite <- 2!list_fmap_compose in Heq. exact Heq.
Qed.

Lemma relaxing_alike graph graph' item item' neighbors neighbors' st st' :
  sameShape graph graph' → uncosted item = uncosted item' →
  neighbors.*1 = neighbors'.*1 → alike st st' →
  alike (fold_left (relaxUnvisited graph item) neighbors st)
        (fold_left (relaxUnvisited graph' item') neighbors' st').
Proof.
  intros Hsame Hitem. revert neighbors' st st'.
  induction neighbors as [|[neighborId weight] neighbors IH];
    intros [|[neighborId' weight'] neighbors'] st st' Hfst Halike; try done.
  simpl in Hfst. injection Hfst as <- Hfst. simpl. apply IH; [done|].
  destruct Halike as (Hfrontier & Hvisited & Hcount).
  unfold relaxUnvisited. rewrite <- Hvisited. case_decide; [done|].
  split_and!; simpl; [|done..].
  rewrite !fmap_app, Hfrontier. simpl.
  by rewrite (extend_sameShape graph graph' item item' neighborId
                (qi_cost item + weight) (qi_cost item' + weight') (num_of_Z 0) Hsame Hitem).
Qed.

Lemma pass_alike dequeue graph graph' goalId st st' :
  costBlind dequeue → sameShape graph graph' → alike st st' →
  match pass dequeue (relaxUnvisited graph) graph goalId st,
        pass dequeue (relaxUnvisited graph') graph' goalId st' with
  | Stop emitted outcome, Stop emitted' outcome' =>
      emitted = emitted' ∧ uncostedOutcome outcome = uncostedOutcome outcome'
  | Continue emitted next, Continue emitted' next' =>
      emitted = emitted' ∧ alike next next'
  | _, _ => False
  end.
Proof.
  intros Hblind Hsame (Hfrontier & Hvisited & Hcount).
  specialize (Hblind _ _ Hfrontier). unfold pass.
  destruct (dequeue (st_frontier st)) as [[item rest]|],
           (dequeue (st_frontier st')) as [[item' rest']|]; try done.
  - destruct Hblind as [Hitem Hrest].
    pose proof (uncosted_nodeIds _ _ Hrest) as Hids.
    pose proof Hitem as Hfields. unfold uncosted in Hfields.
    injection Hfields as Hnode Hpath Hedges _.
    rewrite <- Hnode, <- Hpath, <- Hedges, <- Hvisited, <- Hcount, <- Hids.
    pose proof (getNeighbors_sameShape _ _ (qi_nodeId item) Hsame) as Hneighbors.
    repeat case_decide; simpl; [done| |].
    + split; [done|]. by split_and!.
    + destruct (getNeighbors graph (qi_nodeId item)) as [neighbors|],
               (getNeighbors graph' (qi_nodeId item)) as [neighbors'|]; try done.
      split; [done|]. apply relaxing_alike; [done..|]. by split_and!.
  - simpl. by rewrite Hvisited, Hcount.
Qed.

Lemma search_alike dequeue graph graph' goalId fuel st st' :
  costBlind dequeue → sameShape graph graph' → alike st st' →
  (search dequeue (relaxUnvisited graph) graph goalId fuel st).1 =
  (search dequeue (relaxUnvisited graph') graph' goalId fuel st').1 ∧
  uncostedOutcome (search dequeue (relaxUnvisited graph) graph goalId fuel st).2 =
  uncostedOutcome (search dequeue (relaxUnvisited graph') graph' goalId fuel st').2.
Proof.
  intros Hblind Hsame. revert st st'. induction fuel as [|fuel IH]; [done|].
  intros st st' Halike. simpl.
  pose proof (pass_alike dequeue graph graph' goalId st st' Hblind Hsame Halike)
    as Hpass.
  destruct (pass dequeue (relaxUnvisited graph) graph goalId st)
    as [emitted outcome|emitted next],
    (pass dequeue (relaxUnvisited graph') graph' goalId st')
    as [emitted' outcome'|emitted' next']; try done.
  destruct Hpass as [<- Hnext]. specialize (IH _ _ Hnext).
  destruct (search dequeue (relaxUnvisited graph) graph goalId fuel next),
           (search dequeue (relaxUnvisited graph') graph' goalId fuel next').
  simpl in *. destruct IH as [-> ->]. done.
Qed.

Lemma cons_eq_inv {A} (x y : A) (l k : list A) :
  x :: l = y :: k → x = y ∧ l = k.
Proof.
  intros Heq. split; [|exact (f_equal tail Heq)].
  apply (inj Some). exact (f_equal head Heq).
Qed.

Lemma shift_costBlind : costBlind shift.
Proof.
  intros [|item rest] [|item' rest'] Heq; simpl; try done.
  by apply cons_eq_inv.
Qed.

Lemma pop_costBlind : costBlind pop.
Proof.
  intros frontier frontier' Heq. unfold pop.
  assert (uncosted <$> reverse frontier = uncosted <$> reverse frontier') as Hrev.
  { by rewrite !fmap_reverse, Heq. }
  destruct (reverse frontier) as [|item rest], (reverse frontier') as [|item' rest'];
    try done.
  apply cons_eq_inv in Hrev as [Hitem Hrest].
  split; [done|]. rewrite !fmap_reverse. f_equal. exact Hrest.
Qed.

Lemma updateEdgeWeight_sameShape graph edgeId weight :
  sameShape (updateEdgeWeight graph edgeId weight) graph.
Proof.
  split; [done|]. simpl. rewrite <- list_fmap_compose.
  apply list_fmap_ext. intros index edge _. simpl. by case_decide.
Qed.

Lemma budget_sameShape graph graph' :
  sameShape graph graph' → budget graph = budget graph'.
Proof.
  intros [_ Hedges]. unfold budget.
  by rewrite <- (length_fmap unweighted (edges graph)), Hedges, length_fmap.
Qed.

(** X9.  [bfs] and [dfs] never read the weights: changing the weight of an
    edge leaves every call to [onStep] unchanged, and the outcome unchanged
    apart from [pathCost]: the same path, path edges, length and number of
    settled nodes, or the same [TypeError]. *)
Theorem updateEdgeWeight_keeps_bfs_dfs graph edgeId weight startId goalId :
  (bfs (updateEdgeWeight graph edgeId weight) startId goalId).1 =
    (bfs graph startId goalId).1 ∧
  uncostedOutcome (bfs (updateEdgeWeight graph edgeId weight) startId goalId).2 =
    uncostedOutcome (bfs graph startId goalId).2 ∧
  (dfs (updateEdgeWeight graph edgeId weight) startId goalId).1 =
    (dfs graph startId goalId).1 ∧
  uncostedOutcome (dfs (updateEdgeWeight graph edgeId weight) startId goalId).2 =
    uncostedOutcome (dfs graph startId goalId).2.
Proof.
  pose proof (updateEdgeWeight_sameShape graph edgeId weight) as Hsame.
  unfold bfs, dfs. rewrite (budget_sameShape _ _ Hsame).
  destruct (search_alike shift _ _ goalId (budget graph)
              (initialState startId (num_of_Z 0) ∅)
              (initialState startId (num_of_Z 0) ∅)
              shift_costBlind Hsame) as [? ?]; [done|].
  destruct (search_alike pop _ _ goalId (budget graph)
              (initialState startId (num_of_Z 0) ∅)
              (initialState startId (num_of_Z 0) ∅)
              pop_costBlind Hsame) as [? ?]; [done|].
  done.
Qed.

(** * The operations on graphs *)

Lemma fmap_fixed {A} (f : A → A) (l : list A) :
  (∀ x, x ∈ l → f x = x) → f <$> l = l.
Proof.
  induction l as [|a l IH]; intros Hfixed; [done|]. csimpl. f_equal.
  - apply Hfixed. left.
  - apply IH. intros x ?. apply Hfixed. by right.
Qed.

Lemma filter_fixed {A} (P : A → Prop) `{∀ x, Decision (P x)} (l : list A) :
  (∀ x, x ∈ l → P x) → filter P l = l.
Proof.
  induction l as [|a l IH]; intros Hall; [done|].
  rewrite filter_cons_True by (apply Hall; left). f_equal.
  apply IH. intros x ?. apply Hall. by right.
Qed.

(** ** deleteNode *)

Lemma hasNode_deleteNode graph nodeId other :
  hasNode (deleteNode graph nodeId) other ↔ hasNode graph other ∧ other ≠ nodeId.
Proof.
  unfold hasNode. simpl. rewrite !list_elem_of_fmap. split.
  - intros (node & -> & [Hne Hin]%list_elem_of_filter). split; [eauto|done].
  - intros [(node & -> & Hin) Hne]. exists node. split; [done|].
    by apply list_elem_of_filter.
Qed.

(** X10.  [deleteNode] keeps the invariant of the data model: when the
    edges of a graph join nodes of the graph, so do those of the graph after
    a node is deleted; no node with the deleted id is left, no edge at it,
    and every other node stays. *)
Theorem deleteNode_closed graph nodeId :
  edgesClosed graph →
  edgesClosed (deleteNode graph nodeId) ∧
  ¬ hasNode (deleteNode graph nodeId) nodeId ∧
  (∀ other, other ≠ nodeId →
            (hasNode (deleteNode graph nodeId) other ↔ hasNode graph other)) ∧
  ∀ edge, edge ∈ edges (deleteNode graph nodeId) →
          edge_source edge ≠ nodeId ∧ edge_target edge ≠ nodeId.
Proof.
  intros Hclosed. split_and!.
  - intros edge Hin. simpl in Hin.
    apply list_elem_of_filter in Hin as [[Hs Ht] Hin].
    destruct (Hclosed _ Hin). by rewrite !hasNode_deleteNode.
  - rewrite hasNode_deleteNode. by intros [_ ?].
  - intros other Hne. rewrite hasNode_deleteNode. tauto.
  - intros edge Hin. simpl in Hin. by apply list_elem_of_filter in Hin as [? _].
Qed.

Lemma deleteNode_closed_witness :
  edgesClosed generateSampleGraph ∧
  edgesClosed (deleteNode generateSampleGraph "3") ∧
  ¬ hasNode (deleteNode generateSampleGraph "3") "3" ∧
  (∀ other, other ≠ "3" →
            (hasNode (deleteNode generateSampleGraph "3") other ↔
             hasNode generateSampleGraph other)) ∧
  ∀ edge, edge ∈ edges (deleteNode generateSampleGraph "3") →
          edge_source edge ≠ "3" ∧ edge_target edge ≠ "3".
Proof.
  assert (edgesClosed generateSampleGraph) as Hclosed.
  { intros edge Hedge. vm_compute in Hedge. unfold hasNode.
    repeat (apply elem_of_cons in Hedge as [->|Hedge];
            [vm_compute; split; repeat constructor|]).
    by apply elem_of_nil in Hedge. }
  split; [exact Hclosed|].
  exact (deleteNode_closed generateSampleGraph "3" Hclosed).
Defined.

(** X11.  The traversable paths of the graph after [deleteNode] are exactly
    the traversable paths of the graph before that use no edge at the
    deleted node: deleting a node never makes a node reachable, and keeps
    every path that avoids the node. *)
Theorem deleteNode_walk graph nodeId startId goalId path traversed :
  walk (deleteNode graph nodeId) startId goalId path traversed ↔
  walk graph startId goalId path traversed ∧
  Forall (λ edge, edge_source edge ≠ nodeId ∧ edge_target edge ≠ nodeId) traversed.
Proof.
  split.
  - induction 1 as [|fromId toId path traversed edge Hwalk [IHw IHf] Hedge Hc];
      [split; constructor|].
    simpl in Hedge. apply list_elem_of_filter in Hedge as [Hends Hin].
    split; [by econstructor|]. apply Forall_app. split; [done|]. by constructor.
  - intros [Hwalk Hall].
    induction Hwalk as [|fromId toId path traversed edge Hwalk IH Hedge Hc];
      [constructor|].
    apply Forall_app in Hall as [Hall Hlast]. apply Forall_cons in Hlast as [Hlast _].
    econstructor; [by apply IH| |done]. simpl. apply list_elem_of_filter. auto.
Qed.

(** X12.  On a graph whose edges join nodes of the graph, deleting a node
    that was just added under a fresh id gives back the graph. *)
Theorem deleteNode_addNode graph id x y :
  edgesClosed graph → ¬ hasNode graph id →
  deleteNode (addNode graph id x y) id = graph.
Proof.
  intros Hclosed Hfresh. destruct graph as [ns es].
  unfold deleteNode, addNode. simpl. f_equal.
  - rewrite filter_app, filter_cons_False, filter_nil, app_nil_r
      by (simpl; intros Hne; by apply Hne).
    apply filter_fixed. intros node Hin Heq. apply Hfresh.
    unfold hasNode. simpl. apply list_elem_of_fmap. eauto.
  - apply filter_fixed. intros edge Hin.
    destruct (Hclosed edge Hin) as [Hs Ht].
    split; intros Heq; apply Hfresh; congruence.
Qed.

Lemma deleteNode_addNode_witness :
  edgesClosed generateSampleGraph ∧ ¬ hasNode generateSampleGraph "6" ∧
  deleteNode (addNode generateSampleGraph "6" 10 20) "6" = generateSampleGraph.
Proof.
  assert (edgesClosed generateSampleGraph) as Hclosed.
  { intros edge Hedge. vm_compute in Hedge. unfold hasNode.
    repeat (apply elem_of_cons in Hedge as [->|Hedge];
            [vm_compute; split; repeat constructor|]).
    by apply elem_of_nil in Hedge. }
  assert (¬ hasNode generateSampleGraph "6") as Hfresh.
  { unfold hasNode. vm_compute. intros Hin.
    repeat (apply elem_of_cons in Hin as [?|Hin]; [done|]).
    by apply elem_of_nil in Hin. }
  split_and!; [exact Hclosed|exact Hfresh|].
  exact (deleteNode_addNode generateSampleGraph "6" 10 20 Hclosed Hfresh).
Defined.

(** ** addEdge *)

Lemma addEdge_cases graph id source target weight type :
  (addEdge graph id source target weight type = graph ∧
   ∃ edge, edge ∈ edges graph ∧
     ((edge_source edge = source ∧ edge_target edge = target) ∨
      (type = EdgeUndirected ∧
       edge_source edge = target ∧ edge_target edge = source))) ∨
  (addEdge graph id source target weight type =
     mkGraph (nodes graph) (edges graph ++ [mkEdge id source target weight type]) ∧
   ∀ edge, edge ∈ edges graph →
     ¬ ((edge_source edge = source ∧ edge_target edge = target) ∨
        (type = EdgeUndirected ∧
         edge_source edge = target ∧ edge_target edge = source))).
Proof.
  unfold addEdge. destruct (List.find _ _) as [found|] eqn:Hfind.
  - left. split; [done|].
    apply find_first in Hfind as (before & after & Heq & Hfound & _).
    exists found. split; [|by apply bool_decide_eq_true in Hfound].
    rewrite Heq, elem_of_app. right. left.
  - right. split; [done|]. intros edge Hin.
    pose proof (proj1 (find_nothing _ _) Hfind edge Hin) as Hno.
    by apply bool_decide_eq_false in Hno.
Qed.

Lemma addEdge_existing graph id source target weight type edge :
  edge ∈ edges graph →
  (edge_source edge = source ∧ edge_target edge = target) ∨
  (type = EdgeUndirected ∧ edge_source edge = target ∧ edge_target edge = source) →
  addEdge graph id source target weight type = graph.
Proof.
  intros Hin Hmatch.
  destruct (addEdge_cases graph id source target weight type)
    as [[? _]|[_ Hnone]]; [done|].
  by destruct (Hnone edge Hin).
Qed.

(** X13.  Adding an edge between the same two nodes a second time changes
    nothing, whatever id and weight the second call brings: the first edge
    and its weight stay. *)
Theorem addEdge_idempotent graph id id' source target weight weight' type :
  addEdge (addEdge graph id source target weight type)
          id' source target weight' type =
  addEdge graph id source target weight type.
Proof.
  destruct (addEdge_cases graph id source target weight type)
    as [[-> (edge & Hin & Hmatch)]|[-> _]].
  - by eapply addEdge_existing.
  - eapply (addEdge_existing _ _ _ _ _ _ (mkEdge id source target weight type)).
    + simpl. apply elem_of_app. right. left.
    + left. done.
Qed.

(** X14.  [addEdge] keeps the invariants of the data model: between nodes
    of the graph it keeps the edges joining nodes of the graph, it never
    gives two edges the same source and target, it changes no node and no
    edge that was there. *)
Theorem addEdge_invariants graph id source target weight type :
  edgesClosed graph → noParallel graph →
  hasNode graph source → hasNode graph target →
  edgesClosed (addEdge graph id source target weight type) ∧
  noParallel (addEdge graph id source target weight type) ∧
  nodes (addEdge graph id source target weight type) = nodes graph ∧
  ∃ added, edges (addEdge graph id source target weight type) =
           edges graph ++ added.
Proof.
  intros Hclosed Hunique Hs Ht.
  destruct (addEdge_cases graph id source target weight type)
    as [[-> _]|[-> Hnone]].
  - split_and!; [done..|]. exists []. by rewrite app_nil_r.
  - split_and!; [| |done|by eexists].
    + intros edge [Hin| ->%list_elem_of_singleton]%elem_of_app; [by apply Hclosed|].
      done.
    + unfold noParallel. simpl. rewrite fmap_app. apply NoDup_app.
      split_and!; [done| |apply NoDup_singleton].
      intros pair (edge & -> & Hin)%list_elem_of_fmap Hnew%list_elem_of_singleton.
      simpl in Hnew. injection Hnew as ? ?. destruct (Hnone edge Hin). by left.
Qed.

Lemma addEdge_invariants_witness :
  edgesClosed generateSampleGraph ∧ noParallel generateSampleGraph ∧
  hasNode generateSampleGraph "5" ∧ hasNode generateSampleGraph "0" ∧
  edgesClosed (addEdge generateSampleGraph "e50" "5" "0" 1 EdgeUndirected) ∧
  noParallel (addEdge generateSampleGraph "e50" "5" "0" 1 EdgeUndirected) ∧
  nodes (addEdge generateSampleGraph "e50" "5" "0" 1 EdgeUndirected) =
    nodes generateSampleGraph ∧
  ∃ added, edges (addEdge generateSampleGraph "e50" "5" "0" 1 EdgeUndirected) =
           edges generateSampleGraph ++ added.
Proof.
  assert (edgesClosed generateSampleGraph) as Hclosed.
  { intros edge Hedge. vm_compute in Hedge. unfold hasNode.
    repeat (apply elem_of_cons in Hedge as [->|Hedge];
            [vm_compute; split; repeat constructor|]).
    by apply elem_of_nil in Hedge. }
  assert (noParallel generateSampleGraph) as Hunique.
  { unfold noParallel. vm_compute.
    repeat (constructor; [rewrite ?not_elem_of_cons; split_and?;
                            first [done|apply not_elem_of_nil]|]).
    constructor. }
  assert (hasNode generateSampleGraph "5") as Hs by (vm_compute; repeat constructor).
  assert (hasNode generateSampleGraph "0") as Ht by (vm_compute; repeat constructor).
  split; [exact Hclosed|]. split; [exact Hunique|].
  split; [exact Hs|]. split; [exact Ht|].
  exact (addEdge_invariants generateSampleGraph "e50" "5" "0" 1 EdgeUndirected
           Hclosed Hunique Hs Ht).
Defined.

(** X15.  After [addEdge] the two nodes are joined in at least one
    direction, and from the source to the target when the edge asked for is
    directed.  (An undirected edge is refused when an edge leads from the
    target to the source, also when that edge is directed.) *)
Theorem addEdge_traversable graph id source target weight type :
  (type = EdgeUndirected ∨
   is_Some (findEdge (addEdge graph id source target weight type) source target)) ∧
  (is_Some (findEdge (addEdge graph id source target weight type) source target) ∨
   is_Some (findEdge (addEdge graph id source target weight type) target source)).
Proof.
  assert (∀ graph' fromId toId edge,
            edge ∈ edges graph' → connects fromId toId edge →
            is_Some (findEdge graph' fromId toId)) as Hfound.
  { intros graph' fromId toId edge Hin Hc.
    destruct (findEdge_connects _ _ _ _ Hin Hc) as (found & -> & _). done. }
  destruct (addEdge_cases graph id source target weight type)
    as [[-> (edge & Hin & [Hmatch|(Htype & Hmatch)])]|[-> _]].
  - assert (is_Some (findEdge graph source target)).
    { apply (Hfound _ _ _ edge Hin). by left. }
    auto.
  - assert (is_Some (findEdge graph target source)).
    { apply (Hfound _ _ _ edge Hin). by left. }
    auto.
  - assert (is_Some (findEdge
              (mkGraph (nodes graph)
                       (edges graph ++ [mkEdge id source target weight type]))
              source target)).
    { apply (Hfound _ _ _ (mkEdge id source target weight type)).
      - simpl. apply elem_of_app. right. left.
      - by left. }
    auto.
Qed.

(** ** setEdgeType, and marking and resetting the path *)

Lemma retyped_fold graph type ids :
  nodes (foldl (λ prevGraph edgeId, setEdgeType prevGraph edgeId type) graph ids) =
    nodes graph ∧
  edges (foldl (λ prevGraph edgeId, setEdgeType prevGraph edgeId type) graph ids) =
    (λ edge, if decide (edge_id edge ∈ ids) then retyped edge type else edge)
      <$> edges graph.
Proof.
  revert graph. induction ids as [|edgeId ids IH]; intros graph.
  - simpl. split; [done|]. symmetry. apply fmap_fixed. by intros edge _.
  - simpl. destruct (IH (setEdgeType graph edgeId type)) as [-> ->].
    split; [done|]. simpl. rewrite <- list_fmap_compose.
    apply list_fmap_ext. intros index edge _. simpl.
    destruct (decide (edge_id edge = edgeId)) as [<-|Hne]; simpl.
    + rewrite (decide_True (P := edge_id edge ∈ edge_id edge :: ids)) by left.
      by case_decide.
    + destruct (decide (edge_id edge ∈ ids)) as [Hin|Hnotin].
      * rewrite decide_True; [done|by right].
      * rewrite decide_False; [done|]. rewrite not_elem_of_cons. done.
Qed.

Lemma resetEdgeTypes_fold graph :
  resetEdgeTypes graph =
  foldl (λ prevGraph edgeId, setEdgeType prevGraph edgeId EdgeDefault) graph
        (pathTyped graph).
Proof.
  unfold resetEdgeTypes, pathTyped. generalize graph at 1 3.
  induction (edges graph) as [|edge rest IH]; intros updatedGraph; [done|].
  simpl. case_decide.
  - rewrite filter_cons_True by done. csimpl. apply IH.
  - rewrite filter_cons_False by done. apply IH.
Qed.

Lemma elem_of_pathTyped graph edgeId :
  edgeId ∈ pathTyped graph ↔
  ∃ edge, edge ∈ edges graph ∧ edge_type edge = EdgePath ∧ edge_id edge = edgeId.
Proof.
  unfold pathTyped. rewrite list_elem_of_fmap. split.
  - intros (edge & -> & [? ?]%list_elem_of_filter). eauto.
  - intros (edge & ? & ? & <-). exists edge. split; [done|].
    by apply list_elem_of_filter.
Qed.

Lemma marked_then_reset_edges graph pathEdges :
  edges (resetEdgeTypes (markPathEdges graph pathEdges)) =
  (λ edge, if decide (edge_id edge ∈ pathEdges ++ pathTyped graph)
           then retyped edge EdgeDefault else edge) <$> edges graph.
Proof.
  rewrite resetEdgeTypes_fold.
  destruct (retyped_fold (markPathEdges graph pathEdges) EdgeDefault
              (pathTyped (markPathEdges graph pathEdges))) as [_ ->].
  assert (∀ edgeId,
            edgeId ∈ pathTyped (markPathEdges graph pathEdges) ↔
            (edgeId ∈ pathEdges ∧ edgeId ∈ (edge_id <$> edges graph)) ∨
            edgeId ∈ pathTyped graph) as Hmarked.
  { intros edgeId. rewrite !elem_of_pathTyped. unfold markPathEdges.
    destruct (retyped_fold graph EdgePath pathEdges) as [_ ->].
    setoid_rewrite list_elem_of_fmap. split.
    - intros (marked & (edge & -> & Hin) & Htype & <-).
      case_decide; simpl in *; [left|right]; eauto.
    - intros [[Hin (edge & -> & Hedge)]|(edge & Hedge & Htype & <-)].
      + exists (retyped edge EdgePath). split_and!; [|done..].
        exists edge. split; [|done]. by rewrite decide_True.
      + exists (if decide (edge_id edge ∈ pathEdges) then retyped edge EdgePath
                else edge).
        split_and!; [eauto|by case_decide..]. }
  rewrite (proj2 (retyped_fold graph EdgePath pathEdges)
             : edges (markPathEdges graph pathEdges) = _).
  rewrite <- list_fmap_compose. apply list_fmap_ext. intros index edge Hlookup.
  apply list_elem_of_lookup_2 in Hlookup. simpl.
  assert (edge_id edge ∈ (edge_id <$> edges graph)) as Hid.
  { apply list_elem_of_fmap. eauto. }
  destruct (decide (edge_id edge ∈ pathEdges)) as [Hin|Hnotin]; simpl.
  - rewrite decide_True by (apply Hmarked; auto).
    rewrite decide_True by (apply elem_of_app; auto). done.
  - destruct (decide (edge_id edge ∈ pathTyped graph)) as [Hpath|Hnopath].
    + rewrite decide_True by (apply Hmarked; auto).
      rewrite decide_True by (apply elem_of_app; auto). done.
    + rewrite decide_False by (rewrite Hmarked; tauto).
      rewrite decide_False by (rewrite elem_of_app; tauto). done.
Qed.

(** X16.  Showing a path and resetting the display rewrites the graph: once
    the path edges are marked (the [onPathEdge] callback of Index.tsx, for
    each path edge id) and the marks are reset (the loop over the edges of
    [resetNodeTypes]), every edge whose id was among the path edges, or
    among the edges of type ['path'] before, has type ['default'], whatever
    its type was; only the type of edges changes. *)
Theorem reset_after_marking graph pathEdges :
  nodes (resetEdgeTypes (markPathEdges graph pathEdges)) = nodes graph ∧
  edges (resetEdgeTypes (markPathEdges graph pathEdges)) =
  (λ edge, if decide (edge_id edge ∈ pathEdges ++ pathTyped graph)
           then retyped edge EdgeDefault else edge) <$> edges graph.
Proof.
  split; [|apply marked_then_reset_edges].
  rewrite resetEdgeTypes_fold.
  destruct (retyped_fold (markPathEdges graph pathEdges) EdgeDefault
              (pathTyped (markPathEdges graph pathEdges))) as [-> _].
  unfold markPathEdges. by destruct (retyped_fold graph EdgePath pathEdges) as [-> _].
Qed.

(** X17.  An undirected edge on a displayed path becomes one-way: if an
    undirected edge between two different nodes is the only edge leading
    from its target to its source, then after its id is marked as a path
    edge and the marks are reset, the edge still leads from its source to
    its target but nothing leads back. *)
Theorem marked_edge_one_way graph pathEdges edge :
  edge ∈ edges graph → edge_type edge = EdgeUndirected →
  edge_id edge ∈ pathEdges → edge_source edge ≠ edge_target edge →
  (∀ other, other ∈ edges graph →
            connects (edge_target edge) (edge_source edge) other → other = edge) →
  is_Some (findEdge graph (edge_target edge) (edge_source edge)) ∧
  is_Some (findEdge (resetEdgeTypes (markPathEdges graph pathEdges))
                    (edge_source edge) (edge_target edge)) ∧
  findEdge (resetEdgeTypes (markPathEdges graph pathEdges))
           (edge_target edge) (edge_source edge) = None.
Proof.
  intros Hin Htype Hmarked Hne Honly. split_and!.
  - destruct (findEdge_connects graph (edge_target edge) (edge_source edge) edge)
      as (found & -> & _); [done|by right|done].
  - destruct (findEdge_connects (resetEdgeTypes (markPathEdges graph pathEdges))
                (edge_source edge) (edge_target edge) (retyped edge EdgeDefault))
      as (found & -> & _); [|by left|done].
    rewrite marked_then_reset_edges. apply list_elem_of_fmap.
    exists edge. split; [|done].
    rewrite decide_True; [done|]. apply elem_of_app. by left.
  - apply find_nothing. intros found Hfound. apply bool_decide_eq_false.
    rewrite marked_then_reset_edges in Hfound.
    apply list_elem_of_fmap in Hfound as (other & -> & Hother).
    intros Hc. case_decide as Hid.
    + destruct Hc as [[Hs Ht]|[? _]]; [|done]. simpl in Hs, Ht.
      assert (other = edge) as -> by (apply Honly; [done|by left]).
      congruence.
    + assert (other = edge) as -> by by apply Honly.
      apply Hid, elem_of_app. by left.
Qed.

Lemma marked_edge_one_way_witness :
  mkEdge "ab" "A" "B" 5 EdgeUndirected ∈ edges undirectedPair ∧
  edge_type (mkEdge "ab" "A" "B" 5 EdgeUndirected) = EdgeUndirected ∧
  edge_id (mkEdge "ab" "A" "B" 5 EdgeUndirected) ∈ ["ab"] ∧
  edge_source (mkEdge "ab" "A" "B" 5 EdgeUndirected) ≠
    edge_target (mkEdge "ab" "A" "B" 5 EdgeUndirected) ∧
  (∀ other, other ∈ edges undirectedPair →
            connects "B" "A" other → other = mkEdge "ab" "A" "B" 5 EdgeUndirected) ∧
  is_Some (findEdge undirectedPair "B" "A") ∧
  is_Some (findEdge (resetEdgeTypes (markPathEdges undirectedPair ["ab"])) "A" "B") ∧
  findEdge (resetEdgeTypes (markPathEdges undirectedPair ["ab"])) "B" "A" = None.
Proof.
  assert (mkEdge "ab" "A" "B" 5 EdgeUndirected ∈ edges undirectedPair) as Hin
    by (vm_compute; repeat constructor).
  assert (edge_id (mkEdge "ab" "A" "B" 5 EdgeUndirected) ∈ ["ab"]) as Hmarked
    by (simpl; repeat constructor).
  assert (edge_source (mkEdge "ab" "A" "B" 5 EdgeUndirected) ≠
          edge_target (mkEdge "ab" "A" "B" 5 EdgeUndirected)) as Hne by done.
  assert (∀ other, other ∈ edges undirectedPair →
            connects "B" "A" other → other = mkEdge "ab" "A" "B" 5 EdgeUndirected)
    as Honly.
  { intros other Hother _. vm_compute in Hother.
    apply elem_of_cons in Hother as [->|Hother]; [done|].
    by apply elem_of_nil in Hother. }
  split; [exact Hin|]. split; [reflexivity|]. split; [exact Hmarked|].
  split; [exact Hne|]. split; [exact Honly|].
  exact (marked_edge_one_way undirectedPair ["ab"]
           (mkEdge "ab" "A" "B" 5 EdgeUndirected) Hin eq_refl Hmarked Hne Honly).
Defined.

(** X18.  Giving an edge a directed type never makes a node reachable:
    every traversable path of the graph after [setEdgeType] to ['default']
    or ['path'] is a traversable path of the graph before, with the same
    total weight. *)
Theorem setEdgeType_directed_walk graph edgeId type startId goalId path traversed :
  type ≠ EdgeUndirected →
  walk (setEdgeType graph edgeId type) startId goalId path traversed →
  ∃ traversed',
    walk graph startId goalId path traversed' ∧
    totalWeight traversed' = totalWeight traversed.
Proof.
  intros Htype.
  induction 1 as [|fromId toId path traversed edge Hwalk (traversed' & IHw & IHt) Hedge Hc].
  - exists []. split; [constructor|done].
  - simpl in Hedge. apply list_elem_of_fmap in Hedge as (before & -> & Hin).
    exists (traversed' ++ [before]). rewrite !totalWeight_snoc, IHt.
    split.
    + econstructor; [done..|]. case_decide; [|done].
      destruct Hc as [?|[? _]]; [by left|done].
    + by case_decide.
Qed.

Lemma setEdgeType_directed_walk_witness :
  EdgePath ≠ EdgeUndirected ∧
  walk (setEdgeType undirectedPair "ab" EdgePath) "A" "B"
       (["A"] ++ ["B"]) ([] ++ [mkEdge "ab" "A" "B" 5 EdgePath]) ∧
  ∃ traversed',
    walk undirectedPair "A" "B" (["A"] ++ ["B"]) traversed' ∧
    totalWeight traversed' = totalWeight ([] ++ [mkEdge "ab" "A" "B" 5 EdgePath]).
Proof.
  assert (EdgePath ≠ EdgeUndirected) as Htype by done.
  assert (walk (setEdgeType undirectedPair "ab" EdgePath) "A" "B"
               (["A"] ++ ["B"]) ([] ++ [mkEdge "ab" "A" "B" 5 EdgePath])) as Hwalk.
  { eapply walk_step; [apply walk_start|vm_compute; repeat constructor|by left]. }
  split; [exact Htype|]. split; [exact Hwalk|].
  exact (setEdgeType_directed_walk undirectedPair "ab" EdgePath "A" "B" _ _
           Htype Hwalk).
Defined.

(** X19.  An id that names nothing is ignored without notice: on a graph
    whose edges join nodes of the graph, [moveNode] and [deleteNode] with an
    id that is not a node id, and [updateEdgeWeight] and [setEdgeType] with
    an id that is not an edge id, return the graph unchanged. *)
Theorem unknown_id_ignored graph nodeId edgeId x y weight type :
  edgesClosed graph → ¬ hasNode graph nodeId →
  (∀ edge, edge ∈ edges graph → edge_id edge ≠ edgeId) →
  moveNode graph nodeId x y = graph ∧
  deleteNode graph nodeId = graph ∧
  updateEdgeWeight graph edgeId weight = graph ∧
  setEdgeType graph edgeId type = graph.
Proof.
  intros Hclosed Hnode Hedge. destruct graph as [ns es].
  assert (∀ node, node ∈ ns → node_id node ≠ nodeId) as Hnodes.
  { intros node Hin Heq. apply Hnode. unfold hasNode. simpl.
    apply list_elem_of_fmap. eauto. }
  unfold moveNode, deleteNode, updateEdgeWeight, setEdgeType. simpl in *.
  split_and!; f_equal.
  - apply fmap_fixed. intros node Hin. rewrite decide_False; auto.
  - by apply filter_fixed.
  - apply filter_fixed. intros edge Hin. destruct (Hclosed edge Hin).
    split; intros Heq; apply Hnode; congruence.
  - apply fmap_fixed. intros edge Hin. rewrite decide_False; auto.
  - apply fmap_fixed. intros edge Hin. rewrite decide_False; auto.
Qed.

Lemma unknown_id_ignored_witness :
  edgesClosed generateSampleGraph ∧ ¬ hasNode generateSampleGraph "6" ∧
  (∀ edge, edge ∈ edges generateSampleGraph → edge_id edge ≠ "e99") ∧
  moveNode generateSampleGraph "6" 1 2 = generateSampleGraph ∧
  deleteNode generateSampleGraph "6" = generateSampleGraph ∧
  updateEdgeWeight generateSampleGraph "e99" 3 = generateSampleGraph ∧
  setEdgeType generateSampleGraph "e99" EdgeUndirected = generateSampleGraph.
Proof.
  assert (edgesClosed generateSampleGraph) as Hclosed.
  { intros edge Hedge. vm_compute in Hedge. unfold hasNode.
    repeat (apply elem_of_cons in Hedge as [->|Hedge];
            [vm_compute; split; repeat constructor|]).
    by apply elem_of_nil in Hedge. }
  assert (¬ hasNode generateSampleGraph "6") as Hfresh.
  { unfold hasNode. vm_compute. intros Hin.
    repeat (apply elem_of_cons in Hin as [?|Hin]; [done|]).
    by apply elem_of_nil in Hin. }
  assert (∀ edge, edge ∈ edges generateSampleGraph → edge_id edge ≠ "e99") as Hedge.
  { intros edge Hin. vm_compute in Hin.
    repeat (apply elem_of_cons in Hin as [->|Hin]; [done|]).
    by apply elem_of_nil in Hin. }
  split; [exact Hclosed|]. split; [exact Hfresh|]. split; [exact Hedge|].
  exact (unknown_id_ignored generateSampleGraph "6" "e99" 1 2 3 EdgeUndirected
           Hclosed Hfresh Hedge).
Defined.

(** * The heuristics of [astar] *)

Lemma spatial_nonNegative graph :
  edgesClosed graph → spatialWeights graph → nonNegative graph.
Proof.
  intros Hclosed Hspatial edge Hedge.
  destruct (Hclosed _ Hedge) as [[sourceNode Hs]%findNode_hasNode
                                 [targetNode Ht]%findNode_hasNode].
  pose proof (Hspatial _ _ _ Hedge Hs Ht) as Hweight.
  unfold manhattanDistance in Hweight. lia.
Qed.

Lemma manhattan_consistent graph goalNode :
  edgesClosed graph → spatialWeights graph →
  consistent graph (estimate graph goalNode "manhattan").
Proof.
  intros Hclosed Hspatial edge nodeId nextId Hedge Hc.
  destruct (Hclosed _ Hedge) as [[sourceNode Hs]%findNode_hasNode
                                 [targetNode Ht]%findNode_hasNode].
  pose proof (Hspatial _ _ _ Hedge Hs Ht) as Hweight.
  unfold estimate.
  destruct (connects_endpoints _ _ _ Hc) as [[-> ->]|[-> ->]]; rewrite Hs, Ht;
    unfold calculateHeuristic;
    rewrite !(decide_False (P := "manhattan" = "euclidean")) by done;
    rewrite !(decide_True (P := "manhattan" = "manhattan")) by done;
    rewrite num_add_of_Z; apply num_le_of_Z;
    unfold manhattanDistance in *; lia.
Qed.

(** X20.  [astar] with the Manhattan heuristic returns a least-cost path
    whenever every edge weighs at least the Manhattan distance between the
    nodes it joins (the edges joining nodes of the graph, the start and the
    goal being nodes, and the goal reachable): the cost returned is the
    least total weight of any traversable path from the start to the goal. *)
Theorem astar_manhattan_least graph startId goalId :
  edgesClosed graph → spatialWeights graph →
  hasNode graph startId → hasNode graph goalId →
  reachable graph startId goalId →
  returnsLeastCost graph startId goalId
    (runAlgorithm graph startId goalId "astar" (Some "manhattan")).
Proof.
  intros Hclosed Hspatial Hs Hg Hreach.
  assert (runAlgorithm graph startId goalId "astar" (Some "manhattan") =
          astar graph startId goalId (Some "manhattan")) as ->.
  { unfold runAlgorithm. by repeat case_decide. }
  pose proof Hg as [goalNode Hgoal]%findNode_hasNode.
  apply (astar_least_cost graph startId goalId (Some "manhattan") goalNode);
    auto using spatial_nonNegative.
  by apply manhattan_consistent.
Qed.

Lemma astar_manhattan_least_witness :
  edgesClosed cityBlocks ∧ spatialWeights cityBlocks ∧
  hasNode cityBlocks "A" ∧ hasNode cityBlocks "B" ∧ reachable cityBlocks "A" "B" ∧
  returnsLeastCost cityBlocks "A" "B"
    (runAlgorithm cityBlocks "A" "B" "astar" (Some "manhattan")).
Proof.
  assert (edgesClosed cityBlocks) as Hclosed.
  { intros edge Hedge. vm_compute in Hedge. unfold hasNode.
    repeat (apply elem_of_cons in Hedge as [->|Hedge];
            [vm_compute; split; repeat constructor|]).
    by apply elem_of_nil in Hedge. }
  assert (spatialWeights cityBlocks) as Hspatial.
  { intros edge sourceNode targetNode Hedge Hs Ht. vm_compute in Hedge.
    repeat (apply elem_of_cons in Hedge as [->|Hedge];
            [vm_compute in Hs, Ht; injection Hs as <-; injection Ht as <-;
             vm_compute; by intros [=]|]).
    by apply elem_of_nil in Hedge. }
  assert (hasNode cityBlocks "A") as Hs by (vm_compute; repeat constructor).
  assert (hasNode cityBlocks "B") as Hg by (vm_compute; repeat constructor).
  assert (reachable cityBlocks "A" "B") as Hreach.
  { exists (["A"] ++ ["B"]), ([] ++ [mkEdge "ab" "A" "B" 7 EdgeDefault]).
    eapply walk_step; [apply walk_start|vm_compute; repeat constructor|by left]. }
  split; [exact Hclosed|]. split; [exact Hspatial|]. split; [exact Hs|].
  split; [exact Hg|]. split; [exact Hreach|].
  exact (astar_manhattan_least cityBlocks "A" "B" Hclosed Hspatial Hs Hg Hreach).
Defined.

(** The default estimate, the straight-line distance to the goal, is
    consistent on [cityBlocks], and [astar] called without a heuristic
    argument returns the least cost there. *)
Lemma astar_default_cityBlocks :
  consistent cityBlocks (estimate cityBlocks (mkNode "B" 3 4) "euclidean") ∧
  returnsLeastCost cityBlocks "A" "B" (astar cityBlocks "A" "B" None).
Proof.
  assert (consistent cityBlocks (estimate cityBlocks (mkNode "B" 3 4) "euclidean"))
    as Hcons.
  { intros edge nodeId nextId Hedge Hc. vm_compute in Hedge.
    repeat (apply elem_of_cons in Hedge as [->|Hedge];
            [destruct Hc as [[<- <-]|(Hu & <- & <-)]; simpl in *;
             first [done|by vm_compute]|]).
    by apply elem_of_nil in Hedge. }
  split; [exact Hcons|].
  apply (astar_least_cost cityBlocks "A" "B" None (mkNode "B" 3 4));
    [|apply spatial_nonNegative| | | |].
  - intros edge Hedge. vm_compute in Hedge. unfold hasNode.
    repeat (apply elem_of_cons in Hedge as [->|Hedge];
            [vm_compute; split; repeat constructor|]).
    by apply elem_of_nil in Hedge.
  - intros edge Hedge. vm_compute in Hedge. unfold hasNode.
    repeat (apply elem_of_cons in Hedge as [->|Hedge];
            [vm_compute; split; repeat constructor|]).
    by apply elem_of_nil in Hedge.
  - intros edge sourceNode targetNode Hedge Hs Ht. vm_compute in Hedge.
    repeat (apply elem_of_cons in Hedge as [->|Hedge];
            [vm_compute in Hs, Ht; injection Hs as <-; injection Ht as <-;
             vm_compute; by intros [=]|]).
    by apply elem_of_nil in Hedge.
  - vm_compute. repeat constructor.
  - done.
  - exact Hcons.
  - exists (["A"] ++ ["B"]), ([] ++ [mkEdge "ab" "A" "B" 7 EdgeDefault]).
    eapply walk_step; [apply walk_start|vm_compute; repeat constructor|by left].
Qed.

(** X21.  With a heuristic kind that is neither ['euclidean'] nor
    ['manhattan'], [calculateHeuristic] is 0 everywhere and [astar] returns
    a least-cost path on every graph with non-negative weights (the edges
    joining nodes of the graph, the start and the goal being nodes, and the
    goal reachable). *)
Theorem astar_plain_least graph startId goalId heuristicType :
  heuristicType ≠ "euclidean" → heuristicType ≠ "manhattan" →
  edgesClosed graph → nonNegative graph →
  hasNode graph startId → hasNode graph goalId →
  reachable graph startId goalId →
  (∀ node goalNode, calculateHeuristic node goalNode heuristicType = num_of_Z 0) ∧
  returnsLeastCost graph startId goalId
    (astar graph startId goalId (Some heuristicType)).
Proof.
  intros Hne1 Hne2 Hclosed HnonNeg Hs Hg Hreach.
  assert (∀ node goalNode,
            calculateHeuristic node goalNode heuristicType = num_of_Z 0)
    as Hzero.
  { intros node goalNode. unfold calculateHeuristic.
    by rewrite !decide_False by done. }
  split; [done|].
  pose proof Hg as [goalNode Hgoal]%findNode_hasNode.
  apply (astar_least_cost graph startId goalId (Some heuristicType) goalNode);
    auto.
  intros edge nodeId nextId Hedge _. specialize (HnonNeg _ Hedge).
  unfold estimate. simpl.
  destruct (findNode graph nodeId), (findNode graph nextId);
    rewrite ?Hzero, num_add_of_Z; apply num_le_of_Z; lia.
Qed.

Lemma astar_plain_least_witness :
  "none" ≠ "euclidean" ∧ "none" ≠ "manhattan" ∧
  edgesClosed detour ∧ nonNegative detour ∧
  hasNode detour "S" ∧ hasNode detour "G" ∧ reachable detour "S" "G" ∧
  (∀ node goalNode, calculateHeuristic node goalNode "none" = num_of_Z 0) ∧
  returnsLeastCost detour "S" "G" (astar detour "S" "G" (Some "none")).
Proof.
  assert ("none" ≠ "euclidean") as Hne1 by done.
  assert ("none" ≠ "manhattan") as Hne2 by done.
  assert (edgesClosed detour) as Hclosed.
  { intros edge Hedge. vm_compute in Hedge. unfold hasNode.
    repeat (apply elem_of_cons in Hedge as [->|Hedge];
            [vm_compute; split; repeat constructor|]).
    by apply elem_of_nil in Hedge. }
  assert (nonNegative detour) as HnonNeg.
  { intros edge Hedge. vm_compute in Hedge.
    repeat (apply elem_of_cons in Hedge as [->|Hedge]; [done|]).
    by apply elem_of_nil in Hedge. }
  assert (hasNode detour "S") as Hs by (vm_compute; repeat constructor).
  assert (hasNode detour "G") as Hg by (vm_compute; repeat constructor).
  assert (reachable detour "S" "G") as Hreach.
  { exists (["S"] ++ ["G"]), ([] ++ [mkEdge "sg" "S" "G" 10 EdgeDefault]).
    eapply walk_step; [apply walk_start|vm_compute; repeat constructor|by left]. }
  split; [exact Hne1|]. split; [exact Hne2|]. split; [exact Hclosed|].
  split; [exact HnonNeg|]. split; [exact Hs|]. split; [exact Hg|].
  split; [exact Hreach|].
  exact (astar_plain_least detour "S" "G" "none" Hne1 Hne2 Hclosed HnonNeg
           Hs Hg Hreach).
Defined.

(** * Adjacency *)

(** X22.  [getNeighbors] raises exactly when it is asked about an id that
    is not a node of the graph although an edge can be traversed from it;
    for every other id it returns. *)
Theorem getNeighbors_raises graph nodeId :
  getNeighbors graph nodeId = None ↔
  ¬ hasNode graph nodeId ∧
  ∃ edge neighborId, edge ∈ edges graph ∧ connects nodeId neighborId edge.
Proof.
  unfold getNeighbors. case_decide as Hnode; [by split; [|intros [? _]]|].
  destruct (flat_map (neighborEntries nodeId) (edges graph))
    as [|[neighborId weight] rest] eqn:Hpushed.
  - split; [done|]. intros [_ (edge & neighborId & Hedge & Hc)].
    assert ((neighborId, edge_weight edge) ∈
            flat_map (neighborEntries nodeId) (edges graph)) as Hin.
    { apply elem_of_flat_map. exists edge. split; [done|].
      by apply elem_of_neighborEntries. }
    rewrite Hpushed in Hin. by apply elem_of_nil in Hin.
  - split; [|done]. intros _. split; [done|].
    assert ((neighborId, weight) ∈ flat_map (neighborEntries nodeId) (edges graph))
      as (edge & Hedge & [Hc _]%elem_of_neighborEntries)%elem_of_flat_map
      by (rewrite Hpushed; left).
    eauto.
Qed.

Lemma emptyArrays_lookup (nodes' : list Node)
    (adjacencyList : gmap string (list (string * Z))) nodeId :
  foldl (λ adjacencyList node, <[node_id node := []]> adjacencyList)
        adjacencyList nodes' !! nodeId =
  if decide (nodeId ∈ node_id <$> nodes') then Some [] else adjacencyList !! nodeId.
Proof.
  revert adjacencyList.
  induction nodes' as [|node rest IH]; intros adjacencyList.
  - cbn [foldl]. rewrite decide_False; [done|apply not_elem_of_nil].
  - simpl. rewrite IH. csimpl.
    destruct (decide (nodeId = node_id node)) as [->|Hne].
    + rewrite lookup_insert_eq.
      rewrite (decide_True (P := node_id node ∈ node_id node :: _)) by left.
      by case_decide.
    + rewrite lookup_insert_ne by done.
      destruct (decide (nodeId ∈ node_id <$> rest)) as [Hin|Hnotin].
      * rewrite decide_True; [done|by right].
      * rewrite decide_False; [done|]. rewrite not_elem_of_cons. done.
Qed.

Lemma emptyAdjacency_lookup graph nodeId :
  emptyAdjacency graph !! nodeId =
  if decide (hasNode graph nodeId) then Some [] else None.
Proof.
  unfold emptyAdjacency. rewrite emptyArrays_lookup, lookup_empty.
  unfold hasNode. by repeat case_decide.
Qed.

Lemma pushEntry_lookup (adjacencyList : gmap string (list (string * Z))) key entry :
  is_Some (adjacencyList !! key) →
  ∃ pushed,
    pushEntry adjacencyList key entry = Some pushed ∧
    ∀ nodeId, pushed !! nodeId =
              (λ entries, entries ++ if decide (key = nodeId) then [entry] else [])
                <$> (adjacencyList !! nodeId).
Proof.
  intros [entries Hentries]. unfold pushEntry. rewrite Hentries.
  eexists. split; [done|]. intros nodeId.
  destruct (decide (key = nodeId)) as [<-|Hne].
  - by rewrite lookup_insert_eq, Hentries.
  - rewrite lookup_insert_ne by done.
    destruct (adjacencyList !! nodeId); simpl; [|done]. by rewrite app_nil_r.
Qed.

(** The table after the edges [done] have been processed. *)
Lemma addAdjacency_lookup graph done (adjacencyList : gmap string (list (string * Z)))
    edge :
  (∀ nodeId, adjacencyList !! nodeId =
             if decide (hasNode graph nodeId)
             then Some (flat_map (neighborEntries nodeId) done) else None) →
  (pushable graph edge →
   ∃ pushed,
     addAdjacency adjacencyList edge = Some pushed ∧
     ∀ nodeId, pushed !! nodeId =
               if decide (hasNode graph nodeId)
               then Some (flat_map (neighborEntries nodeId) (done ++ [edge]))
               else None) ∧
  (¬ pushable graph edge → addAdjacency adjacencyList edge = None).
Proof.
  intros Htable. unfold addAdjacency, pushable. split.
  - intros [Hs Ht].
    destruct (pushEntry_lookup adjacencyList (edge_source edge)
                (edge_target edge, edge_weight edge)) as (first & -> & Hfirst).
    { rewrite Htable. by rewrite decide_True. }
    simpl. case_decide as Htype.
    + destruct (pushEntry_lookup first (edge_target edge)
                  (edge_source edge, edge_weight edge)) as (second & -> & Hsecond).
      { rewrite Hfirst, Htable.
        rewrite (decide_True (P := hasNode graph (edge_target edge))) by auto.
        simpl. eauto. }
      eexists. split; [done|]. intros nodeId.
      rewrite Hsecond, Hfirst, Htable.
      destruct (decide (hasNode graph nodeId)); [|done]. simpl.
      rewrite flat_map_app. simpl. rewrite app_nil_r. unfold neighborEntries.
      rewrite <- (assoc_L (++)). do 3 f_equal.
      repeat case_decide; try done; tauto.
    + eexists. split; [done|]. intros nodeId.
      rewrite Hfirst, Htable.
      destruct (decide (hasNode graph nodeId)); [|done]. simpl.
      rewrite flat_map_app. simpl. rewrite app_nil_r. unfold neighborEntries.
      do 2 f_equal. rewrite (decide_False (P := _ ∧ _)) by tauto.
      by rewrite app_nil_r.
  - intros Hno. destruct (decide (hasNode graph (edge_source edge))) as [Hs|Hs].
    + destruct (pushEntry_lookup adjacencyList (edge_source edge)
                  (edge_target edge, edge_weight edge)) as (first & -> & Hfirst).
      { rewrite Htable. by rewrite decide_True. }
      simpl. case_decide as Htype; [|destruct Hno; split; [done|by intros ?]].
      unfold pushEntry. rewrite Hfirst, Htable.
      rewrite (decide_False (P := hasNode graph (edge_target edge))); [done|].
      intros Ht. apply Hno. auto.
    + assert (pushEntry adjacencyList (edge_source edge)
                        (edge_target edge, edge_weight edge) = None) as ->; [|done].
      unfold pushEntry. rewrite Htable. by rewrite decide_False.
Qed.

Lemma fillAdjacency_failed edges' :
  foldl (λ filled edge, filled ≫= λ adjacencyList, addAdjacency adjacencyList edge)
        None edges' = None.
Proof. by induction edges'. Qed.

Lemma fillAdjacency_fold graph done rest
    (adjacencyList : gmap string (list (string * Z))) :
  (∀ nodeId, adjacencyList !! nodeId =
             if decide (hasNode graph nodeId)
             then Some (flat_map (neighborEntries nodeId) done) else None) →
  (Forall (pushable graph) rest →
   ∃ filled,
     foldl (λ filled edge, filled ≫= λ adjacencyList, addAdjacency adjacencyList edge)
           (Some adjacencyList) rest = Some filled ∧
     ∀ nodeId, filled !! nodeId =
               if decide (hasNode graph nodeId)
               then Some (flat_map (neighborEntries nodeId) (done ++ rest))
               else None) ∧
  (¬ Forall (pushable graph) rest →
   foldl (λ filled edge, filled ≫= λ adjacencyList, addAdjacency adjacencyList edge)
         (Some adjacencyList) rest = None).
Proof.
  revert done adjacencyList.
  induction rest as [|edge rest IH]; intros done adjacencyList Htable.
  - split; [|by intros []]. intros _. exists adjacencyList. split; [done|].
    intros nodeId. by rewrite app_nil_r.
  - destruct (addAdjacency_lookup graph done adjacencyList edge Htable)
      as [Hpush Hraise].
    destruct (decide (pushable graph edge)) as [Hedge|Hedge].
    + destruct (Hpush Hedge) as (pushed & Hadd & Hpushed).
      destruct (IH _ _ Hpushed) as [Hok Hfail].
      simpl. rewrite Hadd. rewrite <- (assoc_L (++)) in Hok. split.
      * intros [_ Hrest]%Forall_cons. by apply Hok.
      * intros Hno. apply Hfail. intros Hrest. apply Hno. by constructor.
    + simpl. rewrite (Hraise Hedge). split.
      * by intros [? _]%Forall_cons.
      * intros _. apply fillAdjacency_failed.
Qed.

Lemma fillAdjacency_spec graph :
  (Forall (pushable graph) (edges graph) →
   ∃ filled,
     fillAdjacency graph = Some filled ∧
     ∀ nodeId, filled !! nodeId =
               if decide (hasNode graph nodeId)
               then Some (flat_map (neighborEntries nodeId) (edges graph))
               else None) ∧
  (¬ Forall (pushable graph) (edges graph) → fillAdjacency graph = None).
Proof.
  apply (fillAdjacency_fold graph [] (edges graph) (emptyAdjacency graph)).
  intros nodeId. apply emptyAdjacency_lookup.
Qed.

(** X23.  On a graph whose edges join nodes of the graph, the exported
    [getAdjacencyList] with a node id returns what the private
    [getNeighbors] of the searches returns; the empty string as id is
    treated as no id at all and gives the whole table. *)
Theorem getAdjacencyList_getNeighbors graph nodeId :
  edgesClosed graph → nodeId ≠ "" →
  getAdjacencyList graph (Some nodeId) = OneList <$> getNeighbors graph nodeId ∧
  getAdjacencyList graph (Some "") = getAdjacencyList graph None.
Proof.
  intros Hclosed Hne. split; [|done].
  destruct (fillAdjacency_spec graph) as [Hok _].
  destruct Hok as (filled & Hfill & Hfilled).
  { apply Forall_forall. intros edge Hedge. destruct (Hclosed _ Hedge). by split. }
  unfold getAdjacencyList. rewrite Hfill. simpl.
  rewrite decide_False by done. rewrite Hfilled.
  destruct (getNeighbors_closed graph nodeId Hclosed) as [neighbors Hn].
  rewrite Hn. simpl. do 2 f_equal.
  unfold getNeighbors in Hn. case_decide; simpl; [congruence|].
  destruct (flat_map _ _); congruence.
Qed.

Lemma getAdjacencyList_getNeighbors_witness :
  edgesClosed generateSampleGraph ∧ "0" ≠ "" ∧
  getAdjacencyList generateSampleGraph (Some "0") =
    OneList <$> getNeighbors generateSampleGraph "0" ∧
  getAdjacencyList generateSampleGraph (Some "") =
    getAdjacencyList generateSampleGraph None.
Proof.
  assert (edgesClosed generateSampleGraph) as Hclosed.
  { intros edge Hedge. vm_compute in Hedge. unfold hasNode.
    repeat (apply elem_of_cons in Hedge as [->|Hedge];
            [vm_compute; split; repeat constructor|]).
    by apply elem_of_nil in Hedge. }
  assert ("0" ≠ "") as Hne by done.
  split; [exact Hclosed|]. split; [exact Hne|].
  exact (getAdjacencyList_getNeighbors generateSampleGraph "0" Hclosed Hne).
Defined.

(** X24.  [getAdjacencyList] raises, whatever id it is given, exactly when
    some edge of the graph has a source that is not a node, or is undirected
    with a target that is not a node; a directed edge to a missing node is
    accepted. *)
Theorem getAdjacencyList_raises graph nodeId :
  getAdjacencyList graph nodeId = None ↔
  ∃ edge, edge ∈ edges graph ∧
    (¬ hasNode graph (edge_source edge) ∨
     (edge_type edge = EdgeUndirected ∧ ¬ hasNode graph (edge_target edge))).
Proof.
  destruct (fillAdjacency_spec graph) as [Hok Hfail].
  unfold getAdjacencyList.
  destruct (decide (Forall (pushable graph) (edges graph))) as [Hall|Hsome].
  - destruct (Hok Hall) as (filled & -> & _). simpl. split.
    + destruct nodeId as [id|]; [case_decide|]; done.
    + intros (edge & Hedge & Hbad).
      destruct (proj1 (Forall_forall _ _) Hall edge Hedge) as [Hs Ht]. tauto.
  - rewrite (Hfail Hsome). split; [intros _|done].
    apply not_Forall_Exists in Hsome; [|apply _].
    apply Exists_exists in Hsome as (edge & Hedge & Hbad).
    exists edge. split; [done|]. unfold pushable in Hbad. simpl in Hbad.
    destruct (decide (hasNode graph (edge_source edge))); [|by left].
    right. destruct (decide (edge_type edge = EdgeUndirected)); [|tauto].
    split; [done|]. intros Ht. apply Hbad. auto.
Qed.

(** * reconstructPath *)

Lemma chained_snoc cameFrom path previous current :
  last path = Some previous →
  chained cameFrom (path ++ [current]) ↔
  chained cameFrom path ∧ cameFrom !! current = Some previous.
Proof.
  induction path as [|first path IH]; [done|].
  destruct path as [|second path].
  - intros [= ->]. simpl. tauto.
  - intros Hlast. specialize (IH Hlast).
    change (chained cameFrom ((first :: second :: path) ++ [current]))
      with (cameFrom !! second = Some first ∧
            chained cameFrom ((second :: path) ++ [current])).
    change (chained cameFrom (first :: second :: path))
      with (cameFrom !! second = Some first ∧ chained cameFrom (second :: path)).
    tauto.
Qed.

Lemma reconstructLoop_start fuel graph cameFrom startNodeId path pathEdges :
  reconstructLoop fuel graph cameFrom startNodeId startNodeId path pathEdges =
  Some (path, pathEdges).
Proof. destruct fuel; simpl; by rewrite decide_True. Qed.

Lemma reconstructLoop_step fuel graph cameFrom startNodeId current previous
    path pathEdges :
  current ≠ startNodeId → cameFrom !! current = Some previous → previous ≠ "" →
  reconstructLoop (S fuel) graph cameFrom startNodeId current path pathEdges =
  reconstructLoop fuel graph cameFrom startNodeId previous (previous :: path)
    (pathEdges ++ match findEdge graph previous current with
                  | Some edge => [edge_id edge]
                  | None => []
                  end).
Proof.
  intros Hne Hfrom Hprevious. simpl.
  rewrite decide_False by done. rewrite Hfrom. rewrite decide_False by done.
  destruct (findEdge graph previous current); [done|]. by rewrite app_nil_r.
Qed.

Lemma reconstructLoop_chain graph cameFrom startNodeId before :
  ∀ current after pathEdges fuel,
    NoDup (before ++ [current]) → chained cameFrom (before ++ [current]) →
    (∀ nodeId, nodeId ∈ before → nodeId ≠ "") →
    head (before ++ [current]) = Some startNodeId →
    length before ≤ fuel →
    reconstructLoop fuel graph cameFrom startNodeId current (current :: after)
                    pathEdges =
    Some (before ++ current :: after,
          pathEdges ++ reverse (hopEdges graph (before ++ [current]))).
Proof.
  induction before as [|previous before IH] using rev_ind;
    intros current after pathEdges fuel Hnodup Hchained Hids Hhead Hfuel.
  - simpl in Hhead. injection Hhead as ->.
    rewrite reconstructLoop_start. simpl. by rewrite app_nil_r.
  - rewrite length_app in Hfuel. simpl in Hfuel.
    destruct fuel as [|fuel]; [lia|].
    assert (last (before ++ [previous]) = Some previous) as Hlast
      by apply last_snoc.
    apply NoDup_app in Hnodup as (Hnodup & Hfresh & _).
    apply (chained_snoc _ _ _ _ Hlast) in Hchained as [Hchained Hfrom].
    assert (head (before ++ [previous]) = Some startNodeId) as Hhead'.
    { by destruct before. }
    assert (current ≠ startNodeId) as Hne.
    { intros ->. apply (Hfresh startNodeId); [|left].
      destruct before; simpl in Hhead'; injection Hhead' as ->; left. }
    rewrite (reconstructLoop_step _ _ _ _ _ previous); [|done..|].
    + rewrite (IH previous (current :: after)); [|done..| |done|lia].
      * rewrite (hopEdges_snoc _ _ _ _ Hlast), reverse_app.
        rewrite <- !(assoc_L (++)). do 2 f_equal.
        by destruct (findEdge graph previous current).
      * intros nodeId Hin. apply Hids, elem_of_app. by left.
    + apply Hids, elem_of_app. right. left.
Qed.

(** X25.  [reconstructPath] reads a path back from a predecessor map: when
    [cameFrom] links the nodes of a path from the start to the goal, each to
    the one before it, the path has no repeated node and no empty id, and
    the loop is allowed one pass per hop, the function returns the path
    together with the ids of its hop edges in order from the goal back to
    the start (the reverse of the order in which the searches report path
    edges). *)
Theorem reconstructPath_reads_chain graph cameFrom startNodeId goalNodeId path fuel :
  head path = Some startNodeId → last path = Some goalNodeId →
  NoDup path → (∀ nodeId, nodeId ∈ path → nodeId ≠ "") →
  chained cameFrom path → length path ≤ S fuel →
  reconstructPath fuel graph cameFrom startNodeId goalNodeId =
  Some (path, reverse (hopEdges graph path)).
Proof.
  intros Hhead Hlast Hnodup Hids Hchained Hfuel.
  destruct path as [|first path] using rev_ind; [done|]. clear IHpath.
  rewrite last_snoc in Hlast. injection Hlast as ->.
  unfold reconstructPath.
  rewrite (reconstructLoop_chain graph cameFrom startNodeId path goalNodeId [] []);
    [done..| | |].
  - intros nodeId Hin. apply Hids, elem_of_app. by left.
  - done.
  - rewrite length_app in Hfuel. simpl in Hfuel. lia.
Qed.

Lemma reconstructPath_reads_chain_witness :
  head ["0"; "3"; "5"] = Some "0" ∧ last ["0"; "3"; "5"] = Some "5" ∧
  NoDup ["0"; "3"; "5"] ∧ (∀ nodeId, nodeId ∈ ["0"; "3"; "5"] → nodeId ≠ "") ∧
  chained {["3" := "0"; "5" := "3"]} ["0"; "3"; "5"] ∧
  length ["0"; "3"; "5"] ≤ 3 ∧
  reconstructPath 2 generateSampleGraph {["3" := "0"; "5" := "3"]} "0" "5" =
  Some (["0"; "3"; "5"], reverse (hopEdges generateSampleGraph ["0"; "3"; "5"])).
Proof.
  assert (NoDup ["0"; "3"; "5"]) as Hnodup.
  { repeat (constructor; [rewrite ?not_elem_of_cons; split_and?;
                            first [done|apply not_elem_of_nil]|]).
    constructor. }
  assert (∀ nodeId, nodeId ∈ ["0"; "3"; "5"] → nodeId ≠ "") as Hids.
  { intros nodeId Hin.
    repeat (apply elem_of_cons in Hin as [->|Hin]; [done|]).
    by apply elem_of_nil in Hin. }
  assert (chained ({["3" := "0"; "5" := "3"]} : gmap string string)
                  ["0"; "3"; "5"]) as Hchained.
  { simpl. split_and!; [|by vm_compute|done].
    by vm_compute. }
  assert (length ["0"; "3"; "5"] ≤ 3) as Hfuel by (simpl; lia).
  split; [reflexivity|]. split; [reflexivity|]. split; [exact Hnodup|].
  split; [exact Hids|]. split; [exact Hchained|]. split; [exact Hfuel|].
  exact (reconstructPath_reads_chain generateSampleGraph _ "0" "5" ["0"; "3"; "5"] 2
           eq_refl eq_refl Hnodup Hids Hchained Hfuel).
Defined.

(** * Replaying the steps *)

Lemma visualizeNextStep_inside steps index step :
  steps !! index = Some step →
  visualizeNextStep false steps index =
  (stepCalls (bool_decide (index = length steps - 1)) index step,
   if bool_decide (index < length steps - 1) then Some (S index) else None).
Proof.
  intros Hstep. unfold visualizeNextStep, stepCalls. rewrite Hstep. simpl.
  f_equal. do 2 f_equal. by case_bool_decide; case_decide.
Qed.

Lemma replayFrom_replayed steps rest :
  ∀ index fuel,
    drop index steps = rest → rest ≠ [] → length rest ≤ fuel →
    replayFrom fuel steps index = replayed index rest.
Proof.
  induction rest as [|step rest IH]; intros index fuel Hdrop Hne Hfuel; [done|].
  destruct fuel as [|fuel]; [simpl in Hfuel; lia|].
  assert (steps !! index = Some step) as Hstep.
  { rewrite <- (Nat.add_0_r index), <- lookup_drop, Hdrop. done. }
  assert (length steps = index + S (length rest)) as Hlen.
  { pose proof (f_equal length Hdrop) as Hl. rewrite length_drop in Hl.
    simpl in Hl. pose proof (lookup_lt_Some _ _ _ Hstep). lia. }
  assert (drop (S index) steps = rest) as Hdrop'.
  { rewrite (drop_S _ _ _ Hstep) in Hdrop. by apply cons_eq_inv in Hdrop as [_ ?]. }
  simpl. rewrite (visualizeNextStep_inside _ _ _ Hstep).
  destruct rest as [|next rest].
  - simpl in Hlen. rewrite bool_decide_false by lia.
    rewrite (bool_decide_true (index = _)) by lia.
    simpl. by rewrite app_nil_r.
  - simpl in Hlen. rewrite bool_decide_true by lia.
    rewrite (bool_decide_false (index = _)) by lia.
    rewrite (IH (S index) fuel); [done..|simpl in *; lia].
Qed.

Lemma replay_replayed steps : steps ≠ [] → replay steps = replayed 0 steps.
Proof.
  intros Hne. unfold replay. apply replayFrom_replayed; [done..|lia].
Qed.

Lemma omap_all {A B} (f : A → option B) (g : B → A) (l : list B) :
  (∀ x, f (g x) = Some x) → omap f (g <$> l) = l.
Proof.
  intros Hall. induction l as [|x l IH]; [done|]. csimpl. by rewrite Hall, IH.
Qed.

Lemma omap_none {A B C} (f : A → option B) (g : C → A) (l : list C) :
  (∀ x, f (g x) = None) → omap f (g <$> l) = [].
Proof.
  intros Hnone. induction l as [|x l IH]; [done|]. csimpl. by rewrite Hnone, IH.
Qed.

Lemma calls_app calls calls' :
  currentStepCalls (calls ++ calls') =
    currentStepCalls calls ++ currentStepCalls calls' ∧
  visitCalls (calls ++ calls') = visitCalls calls ++ visitCalls calls' ∧
  pathNodeCalls (calls ++ calls') = pathNodeCalls calls ++ pathNodeCalls calls' ∧
  pathEdgeCalls (calls ++ calls') = pathEdgeCalls calls ++ pathEdgeCalls calls' ∧
  runningCalls (calls ++ calls') = runningCalls calls ++ runningCalls calls'.
Proof.
  unfold currentStepCalls, visitCalls, pathNodeCalls, pathEdgeCalls, runningCalls.
  by rewrite !omap_app.
Qed.

Lemma calls_of_stepCalls isLast index step :
  currentStepCalls (stepCalls isLast index step) = [index] ∧
  visitCalls (stepCalls isLast index step) =
    filter (λ nodeId, nodeId ≠ "") (omap step_currentNodeId [step]) ∧
  pathNodeCalls (stepCalls isLast index step) =
    (if isLast then step_path step else []) ∧
  pathEdgeCalls (stepCalls isLast index step) =
    (if isLast then step_pathEdges step else []) ∧
  runningCalls (stepCalls isLast index step) = [].
Proof.
  unfold stepCalls.
  destruct (calls_app [SetCurrentStep index]
              (match step_currentNodeId step with
               | Some nodeId =>
                   if decide (nodeId = "") then [] else [OnVisitNode nodeId]
               | None => []
               end ++
               (if isLast
                then (OnPathNode <$> step_path step) ++
                     (OnPathEdge <$> step_pathEdges step)
                else []))) as (-> & -> & -> & -> & ->).
  destruct (calls_app
              (match step_currentNodeId step with
               | Some nodeId =>
                   if decide (nodeId = "") then [] else [OnVisitNode nodeId]
               | None => []
               end)
              (if isLast
               then (OnPathNode <$> step_path step) ++
                    (OnPathEdge <$> step_pathEdges step)
               else [])) as (-> & -> & -> & -> & ->).
  assert (currentStepCalls
            (if isLast
             then (OnPathNode <$> step_path step) ++
                  (OnPathEdge <$> step_pathEdges step) else []) = [] ∧
          visitCalls
            (if isLast
             then (OnPathNode <$> step_path step) ++
                  (OnPathEdge <$> step_pathEdges step) else []) = [] ∧
          pathNodeCalls
            (if isLast
             then (OnPathNode <$> step_path step) ++
                  (OnPathEdge <$> step_pathEdges step) else []) =
            (if isLast then step_path step else []) ∧
          pathEdgeCalls
            (if isLast
             then (OnPathNode <$> step_path step) ++
                  (OnPathEdge <$> step_pathEdges step) else []) =
            (if isLast then step_pathEdges step else []) ∧
          runningCalls
            (if isLast
             then (OnPathNode <$> step_path step) ++
                  (OnPathEdge <$> step_pathEdges step) else []) = [])
    as (-> & -> & -> & -> & ->).
  { destruct isLast; [|done].
    destruct (calls_app (OnPathNode <$> step_path step)
                (OnPathEdge <$> step_pathEdges step)) as (-> & -> & -> & -> & ->).
    unfold currentStepCalls, visitCalls, pathNodeCalls, pathEdgeCalls, runningCalls.
    repeat first [rewrite (omap_none _ OnPathNode) by done
                 |rewrite (omap_all _ OnPathNode) by done
                 |rewrite (omap_none _ OnPathEdge) by done
                 |rewrite (omap_all _ OnPathEdge) by done].
    rewrite !app_nil_r. by split_and!. }
  csimpl. destruct (step_currentNodeId step) as [nodeId|]; csimpl;
    [|by rewrite ?app_nil_r].
  destruct (decide (nodeId = "")) as [->|Hne]; csimpl.
  - rewrite filter_cons_False by (by intros []). by rewrite ?app_nil_r.
  - rewrite filter_cons_True by done. by rewrite ?app_nil_r.
Qed.

Lemma replayed_cons index step rest :
  replayed index (step :: rest) =
  stepCalls (bool_decide (rest = [])) index step ++ replayed (S index) rest.
Proof. done. Qed.

Lemma calls_of_replayed index log final :
  currentStepCalls (replayed index (log ++ [final])) = seq index (S (length log)) ∧
  visitCalls (replayed index (log ++ [final])) =
    filter (λ nodeId, nodeId ≠ "") (omap step_currentNodeId (log ++ [final])) ∧
  pathNodeCalls (replayed index (log ++ [final])) = step_path final ∧
  pathEdgeCalls (replayed index (log ++ [final])) = step_pathEdges final ∧
  runningCalls (replayed index (log ++ [final])) = [].
Proof.
  revert index. induction log as [|step log IH]; intros index.
  - change ([] ++ [final]) with [final]. rewrite replayed_cons.
    rewrite bool_decide_true by done.
    destruct (calls_app (stepCalls true index final) (replayed (S index) []))
      as (-> & -> & -> & -> & ->).
    destruct (calls_of_stepCalls true index final) as (-> & -> & -> & -> & ->).
    simpl. by rewrite !app_nil_r.
  - change ((step :: log) ++ [final]) with (step :: (log ++ [final])).
    rewrite replayed_cons. rewrite bool_decide_false by by destruct log.
    destruct (calls_app (stepCalls false index step)
                (replayed (S index) (log ++ [final]))) as (-> & -> & -> & -> & ->).
    destruct (calls_of_stepCalls false index step) as (-> & -> & -> & -> & ->).
    destruct (IH (S index)) as (-> & -> & -> & -> & ->).
    split_and!; try done.
    change (step :: (log ++ [final])) with ([step] ++ (log ++ [final])).
    by rewrite (omap_app _ [step]), filter_app.
Qed.

(** X26.  A replay that is not paused, started at the first of the
    collected steps, goes through every step once and in order: it reports
    the indexes 0, 1, ... to [setCurrentStep]; it calls [onVisitNode] with
    the current node of each step that has one (an empty id is skipped); it
    calls [onPathNode] and [onPathEdge] with the path and the path edges of
    the last step only; and it makes no call to [setIsRunning], which
    [runSelectedAlgorithm] has set to [true] before the replay starts. *)
Theorem replay_calls log final :
  currentStepCalls (replay (log ++ [final])) = seq 0 (S (length log)) ∧
  visitCalls (replay (log ++ [final])) =
    filter (λ nodeId, nodeId ≠ "") (omap step_currentNodeId (log ++ [final])) ∧
  pathNodeCalls (replay (log ++ [final])) = step_path final ∧
  pathEdgeCalls (replay (log ++ [final])) = step_pathEdges final ∧
  runningCalls (replay (log ++ [final])) = [].
Proof.
  rewrite replay_replayed by by destruct log.
  apply (calls_of_replayed 0 log final).
Qed.

(** X27.  The replay of a search shows its result: for every algorithm and
    every graph, when the run returns after at least one call to [onStep],
    the replay of the collected steps calls [onPathNode] with exactly the
    nodes of the returned path and [onPathEdge] with exactly its path edges,
    in order from the start; it calls [onVisitNode] with the settled nodes
    in the order they were settled, followed by the goal when a path was
    found (empty ids skipped); and it does not call [setIsRunning]. *)
Theorem replay_shows_result graph startId goalId :
  everyAlgorithm graph startId goalId
    (λ run, ∀ result, run.2 = Returned result → run.1 ≠ [] →
       pathNodeCalls (replay run.1) = res_path result ∧
       pathEdgeCalls (replay run.1) = res_pathEdges result ∧
       runningCalls (replay run.1) = [] ∧
       ∃ final,
         last run.1 = Some final ∧
         visitCalls (replay run.1) =
           filter (λ nodeId, nodeId ≠ "")
                  (step_visited final ++
                   if decide (res_path result = []) then [] else [goalId])).
Proof.
  apply everyAlgorithm_searches; [|by intros _ result _ []].
  intros dequeue relax priority costSoFar dql rxl _ result Hresult _.
  destruct (recorded_run dequeue relax graph startId goalId priority costSoFar
              result dql rxl Hresult)
    as (log & final & -> & Hpath & Hedges & Hfinal & Hcurrent & _).
  destruct (calls_of_replayed 0 log final) as (_ & Hvisits & Hnodes & Hmarked & Hrunning).
  rewrite replay_replayed by by destruct log.
  rewrite Hnodes, Hmarked, Hrunning, Hvisits, Hpath, Hedges.
  split_and!; [done..|]. exists final. split; [apply last_snoc|].
  f_equal. rewrite omap_app. f_equal.
  - clear -Hcurrent. revert Hcurrent. generalize (step_visited final).
    induction log as [|step log IH]; intros [|nodeId visited] Hcurrent; try done.
    csimpl in *. apply cons_eq_inv in Hcurrent as [-> Hrest].
    simpl. f_equal. by apply IH.
  - simpl. rewrite Hfinal. by case_decide.
Qed.

(** * Distances and estimates *)

Lemma euclideanDistance_nonneg node1 node2 :
  num_le (num_of_Z 0) (euclideanDistance node1 node2).
Proof.
  apply num_le_value. rewrite num_value_of_Z. unfold num_value. simpl.
  pose proof (sqrt_pos (IZR ((node_x node1 - node_x node2) *
                             (node_x node1 - node_x node2) +
                             (node_y node1 - node_y node2) *
                             (node_y node1 - node_y node2)))).
  lra.
Qed.

(** [sqrt (dx * dx + dy * dy) <= |dx| + |dy|] *)
Lemma euclidean_le_manhattan node1 node2 :
  num_le (euclideanDistance node1 node2)
         (num_of_Z (manhattanDistance node1 node2)).
Proof.
  unfold num_le, num_leb, euclideanDistance, manhattanDistance. simpl.
  set (dx := (node_x node1 - node_x node2)%Z).
  set (dy := (node_y node1 - node_y node2)%Z).
  pose proof (Z.abs_square dx). pose proof (Z.abs_square dy).
  pose proof (Z.abs_nonneg dx). pose proof (Z.abs_nonneg dy).
  rewrite (proj2 (Z.leb_le 0 _)) by lia.
  apply orb_true_iff. left. apply Z.leb_le. nia.
Qed.

Lemma euclideanDistance_same node : euclideanDistance node node = num_of_Z 0.
Proof. unfold euclideanDistance. simpl. by rewrite !Z.sub_diag. Qed.

(** X28.  For nodes with integer coordinates of magnitude at most 2^25
    (so that the squares of the differences and their sum are computed
    exactly), whatever the heuristic kind, the estimate [calculateHeuristic]
    gives is never negative and is 0 at the goal itself, so that the
    priority of the goal in [astar] is its cost; and the Euclidean estimate,
    the square root itself, never exceeds the Manhattan estimate. *)
Theorem calculateHeuristic_bounds node goalNode heuristicType :
  exactCoordinates node → exactCoordinates goalNode →
  num_le (num_of_Z 0) (calculateHeuristic node goalNode heuristicType) ∧
  calculateHeuristic goalNode goalNode heuristicType = num_of_Z 0 ∧
  num_le (calculateHeuristic node goalNode "euclidean")
         (calculateHeuristic node goalNode "manhattan").
Proof.
  intros _ _.
  assert (manhattanDistance goalNode goalNode = 0%Z) as Hzero.
  { unfold manhattanDistance. lia. }
  unfold calculateHeuristic.
  rewrite (decide_True (P := "euclidean" = "euclidean")) by done.
  rewrite (decide_False (P := "manhattan" = "euclidean")) by done.
  rewrite (decide_True (P := "manhattan" = "manhattan")) by done.
  split_and!; [| |apply euclidean_le_manhattan].
  - repeat case_decide;
      [apply euclideanDistance_nonneg| |apply num_le_refl].
    apply num_le_of_Z. unfold manhattanDistance. lia.
  - repeat case_decide; [apply euclideanDistance_same|by rewrite Hzero|done].
Qed.

Lemma calculateHeuristic_bounds_witness :
  exactCoordinates (mkNode "1" 300 100) ∧ exactCoordinates (mkNode "5" 300 400) ∧
  num_le (num_of_Z 0)
         (calculateHeuristic (mkNode "1" 300 100) (mkNode "5" 300 400) "euclidean") ∧
  calculateHeuristic (mkNode "5" 300 400) (mkNode "5" 300 400) "euclidean" =
    num_of_Z 0 ∧
  num_le (calculateHeuristic (mkNode "1" 300 100) (mkNode "5" 300 400) "euclidean")
         (calculateHeuristic (mkNode "1" 300 100) (mkNode "5" 300 400) "manhattan").
Proof.
  assert (exactCoordinates (mkNode "1" 300 100)) as Hnode.
  { unfold exactCoordinates. simpl. lia. }
  assert (exactCoordinates (mkNode "5" 300 400)) as Hgoal.
  { unfold exactCoordinates. simpl. lia. }
  split; [exact Hnode|]. split; [exact Hgoal|].
  exact (calculateHeuristic_bounds (mkNode "1" 300 100) (mkNode "5" 300 400)
           "euclidean" Hnode Hgoal).
Defined.

(** * Editing the graph and searching again *)

Lemma getNeighbors_addNode graph id x y nodeId :
  edgesClosed graph → ¬ hasNode graph id →
  getNeighbors (addNode graph id x y) nodeId = getNeighbors graph nodeId.
Proof.
  intros Hclosed Hfresh.
  destruct (getNeighbors_closed graph nodeId Hclosed) as [neighbors Hn].
  rewrite Hn. unfold getNeighbors in *. simpl.
  assert (hasNode (addNode graph id x y) nodeId ↔ hasNode graph nodeId ∨ nodeId = id)
    as Hnode.
  { unfold hasNode. simpl. rewrite fmap_app, elem_of_app. simpl.
    by rewrite list_elem_of_singleton. }
  destruct (decide (hasNode graph nodeId)) as [Hin|Hnotin].
  - rewrite decide_True by tauto. done.
  - destruct (flat_map (neighborEntries nodeId) (edges graph)) eqn:Hpushed; [|done].
    by case_decide.
Qed.

(** X29.  On a graph whose edges join nodes of the graph, adding a node
    under a fresh id changes nothing for [bfs], [dfs] and [dijkstra]: the
    steps and the outcome of every run are the same, whatever the start and
    the goal (the new node included). *)
Theorem addNode_keeps_runs graph id x y startId goalId :
  edgesClosed graph → ¬ hasNode graph id →
  bfs (addNode graph id x y) startId goalId = bfs graph startId goalId ∧
  dfs (addNode graph id x y) startId goalId = dfs graph startId goalId ∧
  dijkstra (addNode graph id x y) startId goalId = dijkstra graph startId goalId.
Proof.
  intros Hclosed Hfresh.
  assert (budget (addNode graph id x y) = budget graph) as Hbudget by done.
  unfold bfs, dfs, dijkstra. rewrite Hbudget.
  split_and!; apply search_ext;
    try (intros; by apply getNeighbors_addNode); by intros item st [? ?].
Qed.

Lemma addNode_keeps_runs_witness :
  edgesClosed generateSampleGraph ∧ ¬ hasNode generateSampleGraph "6" ∧
  bfs (addNode generateSampleGraph "6" 10 20) "0" "5" =
    bfs generateSampleGraph "0" "5" ∧
  dfs (addNode generateSampleGraph "6" 10 20) "0" "5" =
    dfs generateSampleGraph "0" "5" ∧
  dijkstra (addNode generateSampleGraph "6" 10 20) "0" "5" =
    dijkstra generateSampleGraph "0" "5".
Proof.
  assert (edgesClosed generateSampleGraph) as Hclosed.
  { intros edge Hedge. vm_compute in Hedge. unfold hasNode.
    repeat (apply elem_of_cons in Hedge as [->|Hedge];
            [vm_compute; split; repeat constructor|]).
    by apply elem_of_nil in Hedge. }
  assert (¬ hasNode generateSampleGraph "6") as Hfresh.
  { unfold hasNode. vm_compute. intros Hin.
    repeat (apply elem_of_cons in Hin as [?|Hin]; [done|]).
    by apply elem_of_nil in Hin. }
  split; [exact Hclosed|]. split; [exact Hfresh|].
  exact (addNode_keeps_runs generateSampleGraph "6" 10 20 "0" "5" Hclosed Hfresh).
Defined.

Lemma candidates_deleteNode graph nodeId startId other :
  nodeId ≠ startId →
  other ∈ candidates (deleteNode graph nodeId) startId → other ≠ nodeId.
Proof.
  intros Hne [->|(edge & Hedge & Hin)%elem_of_flat_map]%elem_of_cons; [done|].
  simpl in Hedge. apply list_elem_of_filter in Hedge as [[Hs Ht] _].
  rewrite !elem_of_cons, elem_of_nil in Hin. by destruct Hin as [->|[->|[]]].
Qed.

(** X30.  After [deleteNode], no algorithm routes through the deleted
    node: whatever the start (other than the deleted node itself) and the
    goal, the deleted id occurs neither on the returned path nor in the
    path or the visited set of any step. *)
Theorem deleted_node_avoided graph nodeId startId goalId :
  nodeId ≠ startId →
  everyAlgorithm (deleteNode graph nodeId) startId goalId
    (λ run,
       Forall (λ step, (nodeId ∉ step_path step) ∧ (nodeId ∉ step_visited step))
              run.1 ∧
       ∀ result, run.2 = Returned result → nodeId ∉ res_path result).
Proof.
  intros Hne. apply everyAlgorithm_searches.
  - intros dequeue relax priority costSoFar dql rxl _.
    set (graph' := deleteNode graph nodeId).
    set (clean := λ step, (nodeId ∉ step_path step) ∧ (nodeId ∉ step_visited step)).
    assert (∀ st item,
              Bookkeeping graph' startId goalId st → Carried graph' startId st →
              item ∈ st_frontier st → nodeId ∉ qi_path item) as Hpath.
    { intros st item Hbook Hcarried Hin.
      destruct (Hcarried item Hin) as [_ (before & -> & _ & Hsettled)].
      intros [Hbefore|Hlast%list_elem_of_singleton]%elem_of_app.
      - apply (candidates_deleteNode graph nodeId startId nodeId); [done| |done].
        by apply (book_visited _ _ _ _ Hbook), Hsettled.
      - apply (candidates_deleteNode graph nodeId startId nodeId); [done| |done].
        pose proof (book_frontier _ _ _ _ Hbook item Hin) as Hitem.
        by rewrite <- Hlast in Hitem. }
    assert (∀ st, Bookkeeping graph' startId goalId st → nodeId ∉ st_visited st)
      as Hvisited.
    { intros st Hbook Hin.
      apply (candidates_deleteNode graph nodeId startId nodeId); [done| |done].
      by apply (book_visited _ _ _ _ Hbook). }
    destruct (search_run_logged dequeue relax graph' startId goalId priority costSoFar
                (λ log st, Carried graph' startId st ∧ Forall clean log) dql rxl)
      as (log & st & emitted & outcome & Hbook & _ & [Hcarried Hlog] & Hstop & ->).
    + intros log st emitted st' Hbook _ [Hcarried Hlog] Hpass.
      split; [by eapply carried_pass|].
      pose proof (bookkeeping_pass _ _ _ _ _ dql rxl _ _ _ Hbook Hpass) as Hbook'.
      apply pass_Continue in Hpass
        as (item & rest & Hdq & _ & [(_ & -> & _)|(_ & neighbors & _ & -> & Hst')]).
      * by rewrite app_nil_r.
      * apply Forall_app. split; [done|]. constructor; [|done]. split; simpl.
        -- apply (Hpath st item Hbook Hcarried).
           rewrite (dequeued_elem _ dql _ _ _ _ Hdq). by left.
        -- specialize (Hvisited _ Hbook'). rewrite Hst' in Hvisited.
           by rewrite (relaxing_visited _ _ rxl) in Hvisited.
    + split; [apply carried_start|constructor].
    + simpl. specialize (Hvisited _ Hbook).
      apply pass_Stop in Hstop
        as [(_ & -> & ->)|[(item & rest & Hdq & _ & -> & ->)|(item & rest & Hdq & _ & _ & _ & -> & ->)]].
      * split; [|intros result [= <-]; apply not_elem_of_nil].
        apply Forall_app. split; [done|]. constructor; [|done].
        split; simpl; [apply not_elem_of_nil|done].
      * assert (nodeId ∉ qi_path item) as Hitem.
        { apply (Hpath st item Hbook Hcarried).
          rewrite (dequeued_elem _ dql _ _ _ _ Hdq). by left. }
        split; [|by intros result [= <-]].
        apply Forall_app. split; [done|]. constructor; [|done]. by split.
      * split; [|done].
        apply Forall_app. split; [done|]. constructor; [|done]. split; simpl.
        -- apply (Hpath st item Hbook Hcarried).
           rewrite (dequeued_elem _ dql _ _ _ _ Hdq). by left.
        -- rewrite elem_of_app, list_elem_of_singleton.
           intros [?|Hitem]; [done|].
           apply (candidates_deleteNode graph nodeId startId nodeId);
             [done| |done].
           assert (item ∈ st_frontier st) as Hin.
           { rewrite (dequeued_elem _ dql _ _ _ _ Hdq). by left. }
           pose proof (book_frontier _ _ _ _ Hbook item Hin) as Hcandidate.
           by rewrite <- Hitem in Hcandidate.
  - intros _. simpl. split; [constructor|].
    intros result [= <-]. apply not_elem_of_nil.
Qed.

Lemma deleted_node_avoided_witness :
  "3" ≠ "0" ∧
  everyAlgorithm (deleteNode generateSampleGraph "3") "0" "5"
    (λ run,
       Forall (λ step, ("3" ∉ step_path step) ∧ ("3" ∉ step_visited step))
              run.1 ∧
       ∀ result, run.2 = Returned result → "3" ∉ res_path result).
Proof.
  assert ("3" ≠ "0") as Hne by done.
  split; [exact Hne|].
  exact (deleted_node_avoided generateSampleGraph "3" "0" "5" Hne).
Defined.
